(** * P_Excel Desktop: execution engine

    A shallow embedding of the execution engine of P_Excel Desktop:

    - [Cache]     the disk cache of [src/workers/cacheWorker.js]
                  (class [CacheWorker]);
    - [Pool]      the worker pool of [src/main/workerPool.js]
                  (class [WorkerPool]);
    - [Processor] the data operations of [src/workers/cacheWorker.js]
                  (class [DataProcessorWorker]: filter, sort, aggregate,
                  merge, duplicates, empty cells);
    - [Parser]    the CSV line splitter of [src/workers/cacheWorker.js]
                  (class [DataParserWorker]);
    - [Stream]    the chunked pipeline of [src/main/streamProcessor.js]
                  (class [StreamProcessor]).

    The JavaScript runtime (hashing, compression, JSON, number and date
    parsing, collation, regular expressions) is not part of the program:
    each module takes the primitives it calls as Section variables, and
    module [Ref] gives small executable stand-ins used to run examples. *)

From Stdlib Require Import ZArith QArith List String Ascii Bool Lia.
From Stdlib Require Import Permutation Sorted DecimalString.
Import ListNotations.
Local Open Scope string_scope.
Local Open Scope list_scope.
Local Open Scope Z_scope.

Set Warnings "-register-all".

(* ================================================================== *)
(** * JavaScript numbers and values *)
(* ================================================================== *)

(** A JavaScript number: every finite double is a (dyadic) rational, so a
    finite value is carried as a [Q]; the two infinities and NaN are kept
    apart.  Comparisons are exact.  Sums and differences are computed in
    [Q], without the rounding of binary64; the sign of a difference of two
    doubles is the sign of the exact difference, which is all the
    comparators below look at. *)
Inductive number : Type :=
| NaN
| PInf
| NInf
| Fin (q : Q).

Definition isNaN (n : number) : bool :=
  match n with NaN => true | _ => false end.

Definition num_of_Z (z : Z) : number := Fin (inject_Z z).

Definition num_neg (n : number) : number :=
  match n with
  | NaN => NaN
  | PInf => NInf
  | NInf => PInf
  | Fin q => Fin (Qopp q)
  end.

Definition num_add (a b : number) : number :=
  match a, b with
  | NaN, _ | _, NaN => NaN
  | PInf, NInf | NInf, PInf => NaN
  | PInf, _ | _, PInf => PInf
  | NInf, _ | _, NInf => NInf
  | Fin x, Fin y => Fin (Qplus x y)
  end.

Definition num_sub (a b : number) : number := num_add a (num_neg b).

(** [a < b] of JavaScript: false as soon as one side is NaN. *)
Definition num_ltb (a b : number) : bool :=
  match a, b with
  | NaN, _ | _, NaN => false
  | _, NInf => false
  | NInf, _ => true
  | PInf, _ => false
  | _, PInf => true
  | Fin x, Fin y => match Qcompare x y with Lt => true | _ => false end
  end.

(** [a === b] on numbers: NaN differs from itself. *)
Definition num_eqb (a b : number) : bool :=
  match a, b with
  | PInf, PInf | NInf, NInf => true
  | Fin x, Fin y => Qeq_bool x y
  | _, _ => false
  end.

Definition num_gtb (a b : number) : bool := num_ltb b a.
Definition num_leb (a b : number) : bool := num_ltb a b || num_eqb a b.
Definition num_geb (a b : number) : bool := num_ltb b a || num_eqb a b.

(** Sign of a number as the sort algorithm reads a comparator's result:
    negative, zero or positive; NaN counts as zero (ECMAScript
    SortCompare replaces a NaN result by +0). *)
Definition num_sign (n : number) : Z :=
  match n with
  | NaN => 0
  | PInf => 1
  | NInf => -1
  | Fin q => match Qcompare q 0 with Lt => -1 | Eq => 0 | Gt => 1 end
  end.



(** JavaScript values.  Objects are property lists in insertion order. *)
Inductive jsval : Type :=
| VUndefined
| VNull
| VBool (b : bool)
| VNum (n : number)
| VStr (s : string)
| VArr (l : list jsval)
| VObj (l : list (string * jsval)).

(** ToBoolean. *)
Definition truthy (v : jsval) : bool :=
  match v with
  | VUndefined | VNull => false
  | VBool b => b
  | VNum n => negb (isNaN n || num_eqb n (num_of_Z 0))
  | VStr s => negb (String.eqb s EmptyString)
  | VArr _ | VObj _ => true
  end.

(** [a === b].  Arrays and objects compare by reference; two values that
    reach the program through different fields of a message are different
    references, so they are never equal here. *)
Definition strict_eq (a b : jsval) : bool :=
  match a, b with
  | VUndefined, VUndefined => true
  | VNull, VNull => true
  | VBool x, VBool y => Bool.eqb x y
  | VNum x, VNum y => num_eqb x y
  | VStr x, VStr y => String.eqb x y
  | _, _ => false
  end.

(** SameValueZero, the equality of [Array.prototype.includes]:
    as [===] except that NaN equals NaN. *)
Definition same_value_zero (a b : jsval) : bool :=
  match a, b with
  | VNum NaN, VNum NaN => true
  | _, _ => strict_eq a b
  end.

Definition is_nullish (v : jsval) : bool :=
  match v with VUndefined | VNull => true | _ => false end.

Definition join (sep : string) (l : list string) : string :=
  String.concat sep l.

(* ================================================================== *)
(** * Insertion-ordered maps ([Map] and plain objects) *)
(* ================================================================== *)

(** A JavaScript [Map] (and an object used as a record of cells) iterates
    in insertion order, and the programs below depend on that order
    (first idle worker, ties of the eviction sort, order of the groups).
    It is an association list: [set] on a present key keeps its place. *)
Module JsMap.

Definition t (V : Type) : Type := list (string * V).

Definition empty {V : Type} : t V := [].

Fixpoint get {V : Type} (k : string) (m : t V) : option V :=
  match m with
  | [] => None
  | (k', v) :: m' => if String.eqb k k' then Some v else get k m'
  end.

Definition has {V : Type} (k : string) (m : t V) : bool :=
  match get k m with Some _ => true | None => false end.

Fixpoint set {V : Type} (k : string) (v : V) (m : t V) : t V :=
  match m with
  | [] => [(k, v)]
  | (k', v') :: m' =>
      if String.eqb k k' then (k, v) :: m' else (k', v') :: set k v m'
  end.

Definition delete {V : Type} (k : string) (m : t V) : t V :=
  filter (fun kv => negb (String.eqb k (fst kv))) m.

Definition size {V : Type} (m : t V) : Z := Z.of_nat (List.length m).

Definition keys {V : Type} (m : t V) : list string := map fst m.

Definition values {V : Type} (m : t V) : list V := map snd m.

Lemma get_set_same {V : Type} (k : string) (v : V) (m : t V) :
  get k (set k v m) = Some v.
Proof.
  induction m as [|[k' v'] m IH]; simpl.
  - now rewrite String.eqb_refl.
  - destruct (String.eqb k k') eqn:E; simpl.
    + now rewrite String.eqb_refl.
    + now rewrite E.
Qed.

Lemma get_set_other {V : Type} (k k0 : string) (v : V) (m : t V) :
  k0 <> k -> get k0 (set k v m) = get k0 m.
Proof.
  intros Hne. induction m as [|[k' v'] m IH]; simpl.
  - destruct (String.eqb k0 k) eqn:E; [apply String.eqb_eq in E; tauto | reflexivity].
  - destruct (String.eqb k k') eqn:E; simpl.
    + apply String.eqb_eq in E; subst k'.
      destruct (String.eqb k0 k) eqn:E0; [apply String.eqb_eq in E0; tauto | reflexivity].
    + now rewrite IH.
Qed.

Lemma get_delete_same {V : Type} (k : string) (m : t V) :
  get k (delete k m) = None.
Proof.
  induction m as [|[k' v'] m IH]; simpl; [reflexivity|].
  destruct (String.eqb k k') eqn:E; simpl; [assumption|].
  now rewrite E.
Qed.

Lemma get_delete_other {V : Type} (k k0 : string) (m : t V) :
  k0 <> k -> get k0 (delete k m) = get k0 m.
Proof.
  intros Hne. induction m as [|[k' v'] m IH]; simpl; [reflexivity|].
  destruct (String.eqb k k') eqn:E; simpl.
  - apply String.eqb_eq in E; subst k'.
    destruct (String.eqb k0 k) eqn:E0; [apply String.eqb_eq in E0; tauto | assumption].
  - now rewrite IH.
Qed.

Lemma get_In {V : Type} (k : string) (v : V) (m : t V) :
  get k m = Some v -> In (k, v) m.
Proof.
  induction m as [|[k' v'] m IH]; simpl; [discriminate|].
  destruct (String.eqb k k') eqn:E.
  - apply String.eqb_eq in E. intros [= ->]. left; now subst.
  - intros H; right; auto.
Qed.

End JsMap.

(** Property read [o[k]]: a missing property reads as [undefined]. *)
Definition prop (o : JsMap.t jsval) (k : string) : jsval :=
  match JsMap.get k o with Some v => v | None => VUndefined end.

(* ================================================================== *)
(** * [Array.prototype.sort] *)
(* ================================================================== *)

(** ECMAScript (2019 on) requires [sort] to be stable, and leaves the
    order implementation-defined when the comparator is not a consistent
    ordering of the elements.  The model is the stable insertion sort:
    an element goes before the first element it does not compare greater
    than.  On a consistent comparator every stable sort returns this
    list. *)
Section ArraySort.
Variable A : Type.
Variable comparefn : A -> A -> number.

Definition SortCompare (x y : A) : Z := num_sign (comparefn x y).

Fixpoint sort_insert (x : A) (l : list A) : list A :=
  match l with
  | [] => [x]
  | y :: l' => if 0 <? SortCompare x y then y :: sort_insert x l' else x :: l
  end.

Definition array_sort (l : list A) : list A := fold_right sort_insert [] l.

(** The comparator is a consistent ordering of the elements of [l]:
    comparing the other way round flips the sign, and "not greater" is
    transitive. *)
Definition consistent_on (l : list A) : Prop :=
  (forall x y, In x l -> In y l -> SortCompare y x = - SortCompare x y) /\
  (forall x y z, In x l -> In y l -> In z l ->
     SortCompare x y <= 0 -> SortCompare y z <= 0 -> SortCompare x z <= 0).

Definition consistentb (l : list A) : bool :=
  forallb (fun x => forallb (fun y =>
    (SortCompare y x =? - SortCompare x y) &&
    forallb (fun z =>
      implb ((SortCompare x y <=? 0) && (SortCompare y z <=? 0))
            (SortCompare x z <=? 0)) l) l) l.

Lemma consistentb_sound (l : list A) :
  consistentb l = true -> consistent_on l.
Proof.
  unfold consistentb, consistent_on. rewrite forallb_forall. intros H. split.
  - intros x y Hx Hy. specialize (H x Hx). rewrite forallb_forall in H.
    specialize (H y Hy). apply andb_prop in H. destruct H as [H _].
    now apply Z.eqb_eq in H.
  - intros x y z Hx Hy Hz Hxy Hyz. specialize (H x Hx).
    rewrite forallb_forall in H. specialize (H y Hy).
    apply andb_prop in H. destruct H as [_ H].
    rewrite forallb_forall in H. specialize (H z Hz).
    apply Z.leb_le in Hxy, Hyz. rewrite Hxy, Hyz in H. simpl in H.
    now apply Z.leb_le.
Qed.

Lemma sort_insert_perm (x : A) (l : list A) :
  Permutation (x :: l) (sort_insert x l).
Proof.
  induction l as [|y l IH]; simpl; [reflexivity|].
  destruct (0 <? SortCompare x y); [|reflexivity].
  rewrite perm_swap. now constructor.
Qed.

Lemma array_sort_perm (l : list A) : Permutation l (array_sort l).
Proof.
  induction l as [|x l IH]; simpl; [constructor|].
  rewrite <- sort_insert_perm. now constructor.
Qed.

Lemma array_sort_In (l : list A) (x : A) : In x (array_sort l) <-> In x l.
Proof.
  split; apply Permutation_in;
    [apply Permutation_sym|]; apply array_sort_perm.
Qed.

Lemma array_sort_length (l : list A) :
  List.length (array_sort l) = List.length l.
Proof. symmetry. apply Permutation_length, array_sort_perm. Qed.

Lemma sort_insert_In (x y : A) (l : list A) :
  In y (sort_insert x l) <-> y = x \/ In y l.
Proof.
  split.
  - intros H. apply (Permutation_in _ (Permutation_sym (sort_insert_perm x l))) in H.
    destruct H; [left; congruence | now right].
  - intros H. apply (Permutation_in _ (sort_insert_perm x l)).
    destruct H; [left; congruence | now right].
Qed.

(** Sortedness: every element is "not greater" than all later ones. *)
Definition not_greater (x y : A) : Prop := SortCompare x y <= 0.

Lemma sort_insert_sorted (dom : list A) (x : A) (l : list A) :
  consistent_on dom -> In x dom -> incl l dom ->
  StronglySorted not_greater l -> StronglySorted not_greater (sort_insert x l).
Proof.
  intros [Hanti Htrans] Hx Hl Hs.
  induction l as [|y l IH]; simpl.
  - constructor; constructor.
  - assert (Hy : In y dom) by (apply Hl; now left).
    assert (Hl' : incl l dom) by (intros z Hz; apply Hl; now right).
    inversion Hs as [|? ? Hs' Hall]; subst.
    destruct (0 <? SortCompare x y) eqn:E.
    + apply Z.ltb_lt in E. constructor; [now apply IH|].
      rewrite Forall_forall in *. intros z Hz.
      apply sort_insert_In in Hz. destruct Hz as [-> | Hz]; [|now apply Hall].
      unfold not_greater. rewrite (Hanti x y Hx Hy). lia.
    + apply Z.ltb_ge in E. constructor; [assumption|].
      constructor; [exact E|].
      rewrite Forall_forall in *. intros z Hz.
      apply (Htrans x y z); auto. now apply Hall.
Qed.

Lemma array_sort_sorted (l : list A) :
  consistent_on l -> StronglySorted not_greater (array_sort l).
Proof.
  intros Hc.
  assert (H : forall l', incl l' l -> StronglySorted not_greater (array_sort l')).
  { induction l' as [|x l' IH]; intros Hincl; simpl; [constructor|].
    apply sort_insert_sorted with (dom := l).
    - exact Hc.
    - apply Hincl; now left.
    - intros z Hz. apply Hincl. right. now apply array_sort_In.
    - apply IH. intros z Hz; apply Hincl; now right. }
  apply H, incl_refl.
Qed.

(** Stability: the elements that compare equal to a given [r] come out
    in the order they came in. *)
Definition ties_of (r : A) (l : list A) : list A :=
  filter (fun x => SortCompare r x =? 0) l.

Lemma sort_insert_ties (dom : list A) (r x : A) (l : list A) :
  consistent_on dom -> In r dom -> In x dom -> incl l dom ->
  ties_of r (sort_insert x l) = ties_of r (x :: l).
Proof.
  intros [Hanti Htrans] Hr Hx Hl.
  induction l as [|y l IH]; [reflexivity|].
  assert (Hy : In y dom) by (apply Hl; now left).
  assert (Hl' : incl l dom) by (intros z Hz; apply Hl; now right).
  cbn [sort_insert]. destruct (0 <? SortCompare x y) eqn:E; [|reflexivity].
  apply Z.ltb_lt in E. specialize (IH Hl').
  unfold ties_of in *. cbn [filter] in *. rewrite IH.
  destruct (SortCompare r x =? 0) eqn:Ex; [|reflexivity].
  destruct (SortCompare r y =? 0) eqn:Ey; [|reflexivity].
  exfalso. apply Z.eqb_eq in Ex, Ey.
  assert (Hxr : SortCompare x r <= 0) by (rewrite (Hanti r x Hr Hx); lia).
  assert (Hry : SortCompare r y <= 0) by lia.
  pose proof (Htrans x r y Hx Hr Hy Hxr Hry). lia.
Qed.

Lemma array_sort_stable (l : list A) (r : A) :
  consistent_on l -> In r l -> ties_of r (array_sort l) = ties_of r l.
Proof.
  intros Hc Hr.
  assert (H : forall l', incl l' l -> ties_of r (array_sort l') = ties_of r l').
  { induction l' as [|x l' IH]; intros Hincl; [reflexivity|].
    cbn [array_sort fold_right]. fold (array_sort l').
    rewrite sort_insert_ties with (dom := l); auto.
    - unfold ties_of in *. cbn [filter]. rewrite IH; [reflexivity|].
      intros z Hz; apply Hincl; now right.
    - apply Hincl; now left.
    - intros z Hz. apply Hincl. right. now apply array_sort_In. }
  apply H, incl_refl.
Qed.

End ArraySort.

Arguments SortCompare {A} comparefn x y.
Arguments sort_insert {A} comparefn x l.
Arguments array_sort {A} comparefn l.
Arguments consistent_on {A} comparefn l.
Arguments consistentb {A} comparefn l.
Arguments not_greater {A} comparefn x y.
Arguments ties_of {A} comparefn r l.

Lemma num_sign_of_Z (z : Z) : num_sign (num_of_Z z) = Z.sgn z.
Proof.
  unfold num_sign, num_of_Z, Qcompare, inject_Z. simpl.
  rewrite Z.mul_1_r. destruct z; reflexivity.
Qed.

(* ================================================================== *)
(** * Conversions to string *)
(* ================================================================== *)

Section Conversions.

(** [Number.prototype.toString], a primitive of the runtime. *)
Variable NumberToString : number -> string.

(** [String(v)].  [Array.prototype.join] (which [String] of an array
    calls with [","]) prints [null] and [undefined] elements as the empty
    string. *)
Fixpoint ToString (v : jsval) : string :=
  match v with
  | VUndefined => "undefined"
  | VNull => "null"
  | VBool true => "true"
  | VBool false => "false"
  | VNum n => NumberToString n
  | VStr s => s
  | VArr l =>
      join "," (map (fun x => if is_nullish x then EmptyString else ToString x) l)
  | VObj _ => "[object Object]"
  end.

(** [l.join(sep)] on an array of values. *)
Definition array_join (sep : string) (l : list jsval) : string :=
  join sep (map (fun x => if is_nullish x then EmptyString else ToString x) l).

End Conversions.

(* ================================================================== *)
(** * String methods *)
(* ================================================================== *)

(** [s.startsWith(p)], [s.endsWith(p)] and [s.includes(p)]. *)
Definition str_startsWith (s p : string) : bool := String.prefix p s.

Fixpoint str_includes (s p : string) : bool :=
  String.prefix p s ||
  match s with
  | EmptyString => false
  | String _ s' => str_includes s' p
  end.

Definition str_rev (s : string) : string :=
  string_of_list_ascii (rev (list_ascii_of_string s)).

Definition str_endsWith (s p : string) : bool :=
  String.prefix (str_rev p) (str_rev s).

(** Comparison of strings by code units ([<] on strings). *)
Definition str_ltb (a b : string) : bool := String.ltb a b.

(* ================================================================== *)
(** * Executable stand-ins for the runtime primitives *)
(* ================================================================== *)

(** The theorems below hold for every choice of the runtime primitives.
    To run the programs on concrete inputs, this module fixes small
    executable stand-ins.  They agree with the runtime on the inputs the
    examples use (decimal integers, ISO dates, ASCII text); they are not
    meant as models of MD5, zlib, ICU or the RegExp engine. *)
Module Ref.

Definition quote : ascii := "034"%char.

(** Integers print in decimal, as JavaScript prints them (below 1e21). *)
Definition NumberToString (n : number) : string :=
  match n with
  | NaN => "NaN"
  | PInf => "Infinity"
  | NInf => "-Infinity"
  | Fin q =>
      let r := Qred q in
      match Qden r with
      | 1%positive => NilZero.string_of_int (Z.to_int (Qnum r))
      | d => (NilZero.string_of_int (Z.to_int (Qnum r)) ++ "/"
              ++ NilZero.string_of_int (Z.to_int (Zpos d)))%string
      end
  end.

(** [Number(s)] on decimal integers; the empty string is 0. *)
Definition StringToNumber (s : string) : number :=
  match s with
  | EmptyString => num_of_Z 0
  | _ => match NilZero.int_of_string s with
         | Some i => num_of_Z (Z.of_int i)
         | None => NaN
         end
  end.

Definition is_digit (c : ascii) : bool :=
  let n := nat_of_ascii c in (48 <=? n)%nat && (n <=? 57)%nat.

Definition digits_value (cs : list ascii) : Z :=
  fold_left (fun acc c => 10 * acc + (Z.of_nat (nat_of_ascii c) - 48)) cs 0.

(** Days from 1970-01-01 to a civil date (proleptic Gregorian). *)
Definition days_from_civil (y m d : Z) : Z :=
  let y' := if m <=? 2 then y - 1 else y in
  let era := y' / 400 in
  let yoe := y' - era * 400 in
  let doy := (153 * (if 2 <? m then m - 3 else m + 9) + 2) / 5 + d - 1 in
  let doe := yoe * 365 + yoe / 4 - yoe / 100 + doy in
  era * 146097 + doe - 719468.

(** [new Date(s).getTime()] on dates written YYYY-MM-DD. *)
Definition Date_parse (s : string) : number :=
  match list_ascii_of_string s with
  | [y1; y2; y3; y4; "-"%char; m1; m2; "-"%char; d1; d2] =>
      if forallb is_digit [y1; y2; y3; y4; m1; m2; d1; d2] then
        let m := digits_value [m1; m2] in
        let d := digits_value [d1; d2] in
        if (1 <=? m) && (m <=? 12) && (1 <=? d) && (d <=? 31) then
          num_of_Z (days_from_civil (digits_value [y1; y2; y3; y4]) m d
                    * 86400000)
        else NaN
      else NaN
  | _ => NaN
  end.

(** [a.localeCompare(b)], by code units. *)
Definition localeCompare (a b : string) : number :=
  match String.compare a b with
  | Lt => num_of_Z (-1)
  | Eq => num_of_Z 0
  | Gt => num_of_Z 1
  end.

Definition lower_ascii (c : ascii) : ascii :=
  let n := nat_of_ascii c in
  if (65 <=? n)%nat && (n <=? 90)%nat then ascii_of_nat (n + 32) else c.

Fixpoint toLowerCase (s : string) : string :=
  match s with
  | EmptyString => EmptyString
  | String c s' => String (lower_ascii c) (toLowerCase s')
  end.

(** [new RegExp(p, 'i').test(s)] for a pattern without metacharacters. *)
Definition regex_test (p : jsval) (s : string) : option bool :=
  match p with
  | VStr pat => Some (str_includes (toLowerCase s) (toLowerCase pat))
  | _ => None
  end.

(** A digest stand-in: the bytes of the string in hexadecimal. *)
Definition hex_digit (n : nat) : ascii :=
  if (n <? 10)%nat then ascii_of_nat (48 + n) else ascii_of_nat (87 + n).

Fixpoint md5hex (s : string) : string :=
  match s with
  | EmptyString => EmptyString
  | String c s' =>
      let n := nat_of_ascii c in
      String (hex_digit (n / 16)) (String (hex_digit (n mod 16)) (md5hex s'))
  end.

(** A compression stand-in: the gzip magic bytes, then the payload. *)
Definition gzip (s : string) : string :=
  String "031"%char (String "139"%char s).

Definition gunzip (s : string) : option string :=
  match s with
  | String "031"%char (String "139"%char payload) => Some payload
  | _ => None
  end.

(** JSON for [null], booleans, integers, strings without escapes, arrays
    and objects, printed without white space. *)
Fixpoint JSON_stringify (v : jsval) : string :=
  match v with
  | VUndefined | VNull => "null"
  | VBool true => "true"
  | VBool false => "false"
  | VNum NaN | VNum PInf | VNum NInf => "null"
  | VNum n => NumberToString n
  | VStr s => String quote (s ++ String quote EmptyString)
  | VArr l => ("[" ++ join "," (map JSON_stringify l) ++ "]")%string
  | VObj l =>
      ("{" ++ join ","
         (map (fun kv => String quote (fst kv ++ String quote EmptyString)
                         ++ ":" ++ JSON_stringify (snd kv)) l) ++ "}")%string
  end.

Fixpoint take_string (cs : list ascii) : option (string * list ascii) :=
  match cs with
  | [] => None
  | c :: r =>
      if Ascii.eqb c quote then Some (EmptyString, r)
      else match take_string r with
           | Some (s, r') => Some (String c s, r')
           | None => None
           end
  end.

Fixpoint take_digits (cs : list ascii) : list ascii * list ascii :=
  match cs with
  | c :: r => if is_digit c
              then let (ds, r') := take_digits r in (c :: ds, r')
              else ([], cs)
  | [] => ([], [])
  end.

Definition take_number (cs : list ascii) : option (jsval * list ascii) :=
  match cs with
  | "-"%char :: r =>
      match take_digits r with
      | ([], _) => None
      | (ds, r') => Some (VNum (num_of_Z (- digits_value ds)), r')
      end
  | _ =>
      match take_digits cs with
      | ([], _) => None
      | (ds, r') => Some (VNum (num_of_Z (digits_value ds)), r')
      end
  end.

Fixpoint parse_value (fuel : nat) (cs : list ascii)
  : option (jsval * list ascii) :=
  match fuel with
  | O => None
  | S f =>
      match cs with
      | "n"%char :: "u"%char :: "l"%char :: "l"%char :: r => Some (VNull, r)
      | "t"%char :: "r"%char :: "u"%char :: "e"%char :: r =>
          Some (VBool true, r)
      | "f"%char :: "a"%char :: "l"%char :: "s"%char :: "e"%char :: r =>
          Some (VBool false, r)
      | "["%char :: "]"%char :: r => Some (VArr [], r)
      | "["%char :: r =>
          match parse_elements f r with
          | Some (l, r') => Some (VArr l, r')
          | None => None
          end
      | "{"%char :: "}"%char :: r => Some (VObj [], r)
      | "{"%char :: r =>
          match parse_members f r with
          | Some (l, r') => Some (VObj l, r')
          | None => None
          end
      | c :: r =>
          if Ascii.eqb c quote then
            match take_string r with
            | Some (s, r') => Some (VStr s, r')
            | None => None
            end
          else take_number cs
      | [] => None
      end
  end
with parse_elements (fuel : nat) (cs : list ascii)
  : option (list jsval * list ascii) :=
  match fuel with
  | O => None
  | S f =>
      match parse_value f cs with
      | Some (v, ","%char :: r) =>
          match parse_elements f r with
          | Some (l, r') => Some (v :: l, r')
          | None => None
          end
      | Some (v, "]"%char :: r) => Some ([v], r)
      | _ => None
      end
  end
with parse_members (fuel : nat) (cs : list ascii)
  : option (list (string * jsval) * list ascii) :=
  match fuel with
  | O => None
  | S f =>
      match cs with
      | c :: r =>
          if Ascii.eqb c quote then
            match take_string r with
            | Some (k, ":"%char :: r1) =>
                match parse_value f r1 with
                | Some (v, ","%char :: r2) =>
                    match parse_members f r2 with
                    | Some (l, r3) => Some ((k, v) :: l, r3)
                    | None => None
                    end
                | Some (v, "}"%char :: r2) => Some ([(k, v)], r2)
                | _ => None
                end
            | _ => None
            end
          else None
      | [] => None
      end
  end.

(** [JSON.parse]: the whole text must be one value. *)
Definition JSON_parse (s : string) : option jsval :=
  let cs := list_ascii_of_string s in
  match parse_value (S (List.length cs)) cs with
  | Some (v, []) => Some v
  | _ => None
  end.

End Ref.

(* ================================================================== *)
(** * The disk cache ([CacheWorker], src/workers/cacheWorker.js) *)
(* ================================================================== *)

Module Cache.

Inductive Priority : Type := low | normal | high.

Definition priority_name (p : Priority) : string :=
  match p with low => "low" | normal => "normal" | high => "high" end.

Definition priority_eqb (a b : Priority) : bool :=
  match a, b with
  | low, low | normal, normal | high, high => true
  | _, _ => false
  end.

(** [options] of a [cache-set] message; an absent field is [None]. *)
Record Options : Type := mkOptions {
  opt_ttl : option Z;
  opt_compress : option bool;
  opt_priority : option Priority
}.

(** Metadata kept in the index for one entry (the values of
    [this.cacheIndex]). *)
Record CacheInfo : Type := mkInfo {
  key : jsval;
  timestamp : Z;
  ttl : Z;
  size : Z;
  compressed : bool;
  priority : Priority;
  filePath : string
}.

(** The worker and the part of the disk it owns.  [dataFiles] maps the
    path of each file of [{cacheDir}/data] to its bytes; [indexFile] is
    what [cache-index.json] holds ([None]: no such file). *)
Record CacheWorker : Type := mkWorker {
  cacheDir : string;
  maxCacheSize : Z;
  currentCacheSize : Z;
  cacheIndex : JsMap.t CacheInfo;
  dataFiles : JsMap.t string;
  indexFile : option (JsMap.t CacheInfo)
}.

(** What an exception carries as far as the handlers look: [error.code]
    for file-system and zlib errors, the class otherwise. *)
Inductive error : Type :=
| ENOENT
| Z_DATA_ERROR
| SyntaxError
| TypeError.

Record Metadata : Type := mkMeta {
  m_key : jsval;
  m_timestamp : jsval;
  m_size : Z;
  m_compressed : bool
}.

(** The message a handler ends with: [sendResult] with one of the result
    shapes, or [sendError].  Progress messages, the [isProcessing] flag
    and the [age] field ([Date.now()] minus the stored timestamp) are
    left out. *)
Inductive reply : Type :=
| SetOk (cacheKey : string) (sz : Z) (compress : bool)
| GetHit (data : jsval) (meta : Metadata)
| GetMiss (reason : string)
| DeleteOk
| Failure (e : error).

Definition set_currentCacheSize (n : Z) (w : CacheWorker) : CacheWorker :=
  mkWorker (cacheDir w) (maxCacheSize w) n (cacheIndex w) (dataFiles w)
           (indexFile w).

Definition set_cacheIndex (i : JsMap.t CacheInfo) (w : CacheWorker)
  : CacheWorker :=
  mkWorker (cacheDir w) (maxCacheSize w) (currentCacheSize w) i (dataFiles w)
           (indexFile w).

Definition set_dataFiles (f : JsMap.t string) (w : CacheWorker)
  : CacheWorker :=
  mkWorker (cacheDir w) (maxCacheSize w) (currentCacheSize w) (cacheIndex w)
           f (indexFile w).

Definition set_indexFile (i : option (JsMap.t CacheInfo)) (w : CacheWorker)
  : CacheWorker :=
  mkWorker (cacheDir w) (maxCacheSize w) (currentCacheSize w) (cacheIndex w)
           (dataFiles w) i.

(** [stats.size] of a file. *)
Definition byte_length (s : string) : Z := Z.of_nat (String.length s).

(** [path.join(cacheDir, 'data', `${cacheKey}.cache`)]. *)
Definition cacheFilePath (dir cacheKey : string) : string :=
  dir ++ "/data/" ++ cacheKey ++ ".cache".

(** [cacheEntry.value] and the like: reading a property of [null] or
    [undefined] throws a TypeError. *)
Definition get_prop (o : jsval) (k : string) : error + jsval :=
  match o with
  | VUndefined | VNull => inl TypeError
  | VObj l => inr (prop l k)
  | _ => inr VUndefined
  end.

Section Runtime.

Variable md5hex : string -> string.
Variable NumberToString : number -> string.
Variable gzip : string -> string.
(** [gunzip] throws (here [None]) on bytes that are not a gzip stream. *)
Variable gunzip : string -> option string.
Variable JSON_stringify : jsval -> string.
(** [JSON.parse] throws a SyntaxError (here [None]) on malformed text. *)
Variable JSON_parse : string -> option jsval.

(** [generateCacheKey]: MD5 of the string form of the key. *)
Definition generateCacheKey (k : jsval) : string :=
  md5hex (ToString NumberToString k).

(** [saveCacheIndex]: writes the index file; a failure is only logged. *)
Definition saveCacheIndex (w : CacheWorker) : CacheWorker :=
  set_indexFile (Some (cacheIndex w)) w.


(** [calculateCacheSize]: the sizes of all files of the data directory. *)
Definition calculateCacheSize (w : CacheWorker) : CacheWorker :=
  set_currentCacheSize
    (fold_right (fun f acc => byte_length (snd f) + acc) 0 (dataFiles w)) w.


(** [deleteCacheEntry]: unlink the file and give its recorded size back
    (a failing unlink, here a missing file, is swallowed and gives nothing
    back), then drop the index entry and save the index. *)
Definition deleteCacheEntry (cacheKey : string) (w : CacheWorker)
  : CacheWorker :=
  match JsMap.get cacheKey (cacheIndex w) with
  | Some cacheInfo =>
      let w1 :=
        match JsMap.get (filePath cacheInfo) (dataFiles w) with
        | Some _ =>
            set_currentCacheSize (currentCacheSize w - size cacheInfo)
              (set_dataFiles (JsMap.delete (filePath cacheInfo) (dataFiles w)) w)
        | None => w
        end in
      saveCacheIndex (set_cacheIndex (JsMap.delete cacheKey (cacheIndex w1)) w1)
  | None => w
  end.

(** The comparator of [evictOldCache]: lower priority first, then older
    timestamp first. *)
Definition priorityOrder (p : Priority) : Z :=
  match p with low => 0 | normal => 1 | high => 2 end.

Definition evict_compare (a b : string * CacheInfo) : number :=
  if negb (priority_eqb (priority (snd a)) (priority (snd b)))
  then num_of_Z (priorityOrder (priority (snd a))
                 - priorityOrder (priority (snd b)))
  else num_of_Z (timestamp (snd a) - timestamp (snd b)).

(** [currentCacheSize <= maxCacheSize * 0.7], in exact arithmetic. *)
Definition at_target (w : CacheWorker) : bool :=
  10 * currentCacheSize w <=? 7 * maxCacheSize w.

Record EvictResult : Type := mkEvict {
  deletedCount : Z;
  deletedSize : Z
}.

(** The [for] loop of [evictOldCache] over the sorted snapshot. *)
Fixpoint evict_loop (entries : list (string * CacheInfo)) (w : CacheWorker)
  (r : EvictResult) : CacheWorker * EvictResult :=
  match entries with
  | [] => (w, r)
  | (cacheKey, cacheInfo) :: rest =>
      if at_target w then (w, r)
      else evict_loop rest (deleteCacheEntry cacheKey w)
             (mkEvict (deletedCount r + 1) (deletedSize r + size cacheInfo))
  end.

Definition evictOldCache (w : CacheWorker) : CacheWorker * EvictResult :=
  evict_loop (array_sort evict_compare (cacheIndex w)) w (mkEvict 0 0).

(** The object that [setCacheData] serialises ([size] is still 0 when it
    is serialised). *)
Definition cacheEntry (k v : jsval) (now ttl' : Z) (compress : bool)
  (p : Priority) : jsval :=
  VObj [("key", k); ("value", v);
        ("timestamp", VNum (num_of_Z now));
        ("ttl", VNum (num_of_Z ttl'));
        ("compressed", VBool compress);
        ("priority", VStr (priority_name p));
        ("size", VNum (num_of_Z 0))].

Definition default_ttl : Z := 24 * 60 * 60 * 1000.

Definition ttl_of (o : Options) : Z :=
  match opt_ttl o with Some t => t | None => default_ttl end.
Definition compress_of (o : Options) : bool :=
  match opt_compress o with Some c => c | None => true end.
Definition priority_of (o : Options) : Priority :=
  match opt_priority o with Some p => p | None => normal end.

(** The bytes [setCacheData] writes. *)
Definition stored_bytes (k v : jsval) (now : Z) (o : Options) : string :=
  let serializedData :=
    JSON_stringify (cacheEntry k v now (ttl_of o) (compress_of o)
                               (priority_of o)) in
  if compress_of o then gzip serializedData else serializedData.

(** [setCacheData]; [now] is the value of [Date.now()]. *)
Definition setCacheData (now : Z) (k v : jsval) (o : Options)
  (w : CacheWorker) : CacheWorker * reply :=
  let cacheKey := generateCacheKey k in
  let path := cacheFilePath (cacheDir w) cacheKey in
  let bytes := stored_bytes k v now o in
  let w1 := set_dataFiles (JsMap.set path bytes (dataFiles w)) w in
  let sz := byte_length bytes in
  let w2 := set_cacheIndex
              (JsMap.set cacheKey
                 (mkInfo k now (ttl_of o) sz (compress_of o) (priority_of o)
                         path)
                 (cacheIndex w1)) w1 in
  let w3 := set_currentCacheSize (currentCacheSize w2 + sz) w2 in
  let w4 := saveCacheIndex w3 in
  let w5 := if maxCacheSize w4 <? currentCacheSize w4
            then fst (evictOldCache w4) else w4 in
  (w5, SetOk cacheKey sz (compress_of o)).

(** Decompress (when the index says so) and parse the bytes of a file. *)
Definition decode_entry (isCompressed : bool) (cacheData : string)
  : error + jsval :=
  match (if isCompressed then gunzip cacheData else Some cacheData) with
  | None => inl Z_DATA_ERROR
  | Some text =>
      match JSON_parse text with
      | None => inl SyntaxError
      | Some entry => inr entry
      end
  end.

(** The [try] block of [getCacheData] after the index lookup and the TTL
    check: read, decompress, parse, build the result. *)
Definition read_entry (cacheInfo : CacheInfo) (w : CacheWorker)
  : error + reply :=
  match JsMap.get (filePath cacheInfo) (dataFiles w) with
  | None => inl ENOENT
  | Some cacheData =>
      match decode_entry (compressed cacheInfo) cacheData with
      | inl e => inl e
      | inr entry =>
          match get_prop entry "value", get_prop entry "key",
                get_prop entry "timestamp" with
          | inr v, inr k, inr ts =>
              inr (GetHit v (mkMeta k ts (size cacheInfo)
                                    (compressed cacheInfo)))
          | _, _, _ => inl TypeError
          end
      end
  end.

(** The [catch] block of [getCacheData]: only a missing file is turned
    into a miss (and the index entry dropped); every other error is sent
    to the caller with [sendError]. *)
Definition get_catch (e : error) (k : jsval) (w : CacheWorker)
  : CacheWorker * reply :=
  match e with
  | ENOENT =>
      (saveCacheIndex
         (set_cacheIndex (JsMap.delete (generateCacheKey k) (cacheIndex w)) w),
       GetMiss "Cache file not found")
  | _ => (w, Failure e)
  end.

(** [getCacheData]; [now] is the value of [Date.now()]. *)
Definition getCacheData (now : Z) (k : jsval) (w : CacheWorker)
  : CacheWorker * reply :=
  let cacheKey := generateCacheKey k in
  match JsMap.get cacheKey (cacheIndex w) with
  | None => (w, GetMiss "Cache miss")
  | Some cacheInfo =>
      if ttl cacheInfo <? now - timestamp cacheInfo
      then (deleteCacheEntry cacheKey w, GetMiss "Cache expired")
      else match read_entry cacheInfo w with
           | inr r => (w, r)
           | inl e => get_catch e k w
           end
  end.

(** [deleteCacheData]. *)
Definition deleteCacheData (k : jsval) (w : CacheWorker)
  : CacheWorker * reply :=
  (deleteCacheEntry (generateCacheKey k) w, DeleteOk).

(** ** Reading back what was just written *)

Lemma setCacheData_no_eviction (now : Z) (k v : jsval) (o : Options)
  (w : CacheWorker) :
  currentCacheSize w + byte_length (stored_bytes k v now o) <= maxCacheSize w ->
  fst (setCacheData now k v o w) =
  mkWorker (cacheDir w) (maxCacheSize w)
    (currentCacheSize w + byte_length (stored_bytes k v now o))
    (JsMap.set (generateCacheKey k)
       (mkInfo k now (ttl_of o) (byte_length (stored_bytes k v now o))
               (compress_of o) (priority_of o)
               (cacheFilePath (cacheDir w) (generateCacheKey k)))
       (cacheIndex w))
    (JsMap.set (cacheFilePath (cacheDir w) (generateCacheKey k))
       (stored_bytes k v now o) (dataFiles w))
    (Some (JsMap.set (generateCacheKey k)
       (mkInfo k now (ttl_of o) (byte_length (stored_bytes k v now o))
               (compress_of o) (priority_of o)
               (cacheFilePath (cacheDir w) (generateCacheKey k)))
       (cacheIndex w))).
Proof.
  intros Hroom. unfold setCacheData. cbn.
  destruct (Z.ltb_spec (maxCacheSize w)
              (currentCacheSize w + byte_length (stored_bytes k v now o)));
    [lia | reflexivity].
Qed.



(** ** Keys with the same string form *)




(** C4 (amended).  For an indexed, unexpired entry: when its bytes fail
    to decompress or to parse, [get] sends the error to the caller and
    leaves the index as it is; only a missing file is recovered locally,
    by dropping the index entry and answering a miss. *)
Theorem get_corrupt_entry_is_error (now : Z) (k : jsval) (w : CacheWorker)
  (info : CacheInfo) :
  JsMap.get (generateCacheKey k) (cacheIndex w) = Some info ->
  now - timestamp info <= ttl info ->
  (forall bytes e,
     JsMap.get (filePath info) (dataFiles w) = Some bytes ->
     decode_entry (compressed info) bytes = inl e ->
     (e = Z_DATA_ERROR \/ e = SyntaxError) /\
     getCacheData now k w = (w, Failure e)) /\
  (JsMap.get (filePath info) (dataFiles w) = None ->
   getCacheData now k w =
   (saveCacheIndex
      (set_cacheIndex (JsMap.delete (generateCacheKey k) (cacheIndex w)) w),
    GetMiss "Cache file not found")).
Proof.
  intros Hidx Httl. unfold getCacheData. rewrite Hidx.
  destruct (Z.ltb_spec (ttl info) (now - timestamp info)); [lia|].
  split.
  - intros bytes e Hfile Hdec. unfold read_entry. rewrite Hfile, Hdec.
    assert (He : e = Z_DATA_ERROR \/ e = SyntaxError).
    { unfold decode_entry in Hdec.
      destruct (if compressed info then gunzip bytes else Some bytes);
        [destruct (JSON_parse s)|]; inversion Hdec; auto. }
    split; [exact He|]. destruct He as [-> | ->]; reflexivity.
  - intros Hfile. unfold read_entry. rewrite Hfile. reflexivity.
Qed.


End Runtime.

(** ** Eviction *)

Definition sum_sizes (l : list (string * CacheInfo)) : Z :=
  fold_right (fun e acc => size (snd e) + acc) 0 l.

Definition mem_key (k : string) (l : list string) : bool :=
  existsb (String.eqb k) l.

Fixpoint nodupb (l : list string) : bool :=
  match l with
  | [] => true
  | x :: l' => negb (mem_key x l') && nodupb l'
  end.

Definition path_of (e : string * CacheInfo) : string := filePath (snd e).

(** The bookkeeping of a worker is exact: the index is a map (no key
    twice), every entry has its own file and the file is there, the
    running total is the sum of the recorded sizes, and the ceiling is not
    negative. *)
Definition accounted (w : CacheWorker) : bool :=
  nodupb (JsMap.keys (cacheIndex w)) &&
  nodupb (map path_of (cacheIndex w)) &&
  forallb (fun e => JsMap.has (path_of e) (dataFiles w)) (cacheIndex w) &&
  (currentCacheSize w =? sum_sizes (cacheIndex w)) &&
  (0 <=? maxCacheSize w).


Lemma mem_key_In (k : string) (l : list string) :
  mem_key k l = true <-> In k l.
Proof.
  unfold mem_key. rewrite existsb_exists. split.
  - intros [x [Hx E]]. apply String.eqb_eq in E. now subst.
  - intros H. exists k. split; [assumption | apply String.eqb_refl].
Qed.

Lemma nodupb_NoDup (l : list string) : nodupb l = true -> NoDup l.
Proof.
  induction l as [|x l IH]; simpl; intros H; constructor.
  - apply andb_prop in H. destruct H as [H _].
    intros Hin. apply mem_key_In in Hin. rewrite Hin in H. discriminate.
  - apply IH. apply andb_prop in H. tauto.
Qed.

Lemma get_of_In {V : Type} (k : string) (v : V) (m : JsMap.t V) :
  NoDup (JsMap.keys m) -> In (k, v) m -> JsMap.get k m = Some v.
Proof.
  unfold JsMap.keys. induction m as [|[k' v'] m IH]; simpl; intros Hnd Hin.
  - contradiction.
  - inversion Hnd as [|? ? Hnotin Hnd']; subst.
    destruct Hin as [E | Hin].
    + inversion E; subst. now rewrite String.eqb_refl.
    + destruct (String.eqb k k') eqn:E.
      * apply String.eqb_eq in E. subst k'. exfalso. apply Hnotin.
        change k with (fst (k, v)). now apply in_map.
      * now apply IH.
Qed.

Lemma sum_sizes_perm (l l' : list (string * CacheInfo)) :
  Permutation l l' -> sum_sizes l = sum_sizes l'.
Proof.
  induction 1; simpl; try lia.
Qed.





(** An entry of the snapshot that is still indexed with its file. *)
Definition entry_live (w : CacheWorker) (e : string * CacheInfo) : Prop :=
  JsMap.get (fst e) (cacheIndex w) = Some (snd e) /\
  JsMap.has (path_of e) (dataFiles w) = true.

Lemma deleteCacheEntry_live (w : CacheWorker) (k : string) (info : CacheInfo) :
  entry_live w (k, info) ->
  deleteCacheEntry k w =
  mkWorker (cacheDir w) (maxCacheSize w) (currentCacheSize w - size info)
    (JsMap.delete k (cacheIndex w))
    (JsMap.delete (filePath info) (dataFiles w))
    (Some (JsMap.delete k (cacheIndex w))).
Proof.
  intros [Hget Hfile]. unfold deleteCacheEntry. cbn in Hget, Hfile.
  rewrite Hget. unfold JsMap.has, path_of in Hfile. cbn in Hfile.
  destruct (JsMap.get (filePath info) (dataFiles w)); [reflexivity|discriminate].
Qed.

Lemma has_delete_other {V : Type} (k k0 : string) (m : JsMap.t V) :
  k0 <> k -> JsMap.has k0 (JsMap.delete k m) = JsMap.has k0 m.
Proof. intros H. unfold JsMap.has. now rewrite JsMap.get_delete_other. Qed.

(** What the loop of [evictOldCache] does on a snapshot whose entries are
    all live: it deletes a prefix, the shortest one that brings the total
    down to the target, or the whole snapshot. *)
Lemma evict_loop_spec (entries : list (string * CacheInfo)) :
  forall (w : CacheWorker) (r : EvictResult),
  NoDup (map fst entries) ->
  NoDup (map path_of entries) ->
  Forall (entry_live w) entries ->
  exists n : nat,
    (n <= List.length entries)%nat /\
    currentCacheSize (fst (evict_loop entries w r)) =
      currentCacheSize w - sum_sizes (firstn n entries) /\
    maxCacheSize (fst (evict_loop entries w r)) = maxCacheSize w /\
    (forall k, JsMap.get k (cacheIndex (fst (evict_loop entries w r))) =
               if mem_key k (map fst (firstn n entries)) then None
               else JsMap.get k (cacheIndex w)) /\
    (forall m, (m < n)%nat ->
       7 * maxCacheSize w
       < 10 * (currentCacheSize w - sum_sizes (firstn m entries))) /\
    (n = List.length entries \/
     10 * currentCacheSize (fst (evict_loop entries w r))
       <= 7 * maxCacheSize w) /\
    snd (evict_loop entries w r) =
      mkEvict (deletedCount r + Z.of_nat n)
              (deletedSize r + sum_sizes (firstn n entries)).
Proof.
  induction entries as [|[k info] rest IH]; intros w r Hk Hp Hlive.
  - exists 0%nat. cbn. repeat split; try lia; auto.
    destruct r; cbn; f_equal; lia.
  - cbn [evict_loop]. unfold at_target.
    destruct (Z.leb_spec (10 * currentCacheSize w) (7 * maxCacheSize w)) as [Hat | Hnot].
    + exists 0%nat. cbn. repeat split; try lia; auto.
      destruct r; cbn; f_equal; lia.
    + inversion Hk as [|? ? Hk1 Hk2]; subst.
      inversion Hp as [|? ? Hp1 Hp2]; subst.
      inversion Hlive as [|? ? Hl1 Hl2]; subst.
      rewrite (deleteCacheEntry_live w k info Hl1).
      set (w1 := mkWorker _ _ _ _ _ _).
      assert (Hlive1 : Forall (entry_live w1) rest).
      { rewrite Forall_forall in *. intros e He. destruct (Hl2 e He) as [Hg Hf].
        split; subst w1; cbn.
        - rewrite JsMap.get_delete_other; [assumption|].
          intros E. apply Hk1. rewrite <- E. now apply in_map.
        - rewrite has_delete_other; [assumption|].
          intros E. apply Hp1. change (path_of (k, info)) with (filePath info).
          rewrite <- E. now apply in_map. }
      destruct (IH w1 (mkEvict (deletedCount r + 1) (deletedSize r + size info))
                  Hk2 Hp2 Hlive1)
        as [n [Hn [Hcur [Hmax [Hidx [Hprev [Hstop Hres]]]]]]].
      exists (S n). cbn [firstn map sum_sizes fold_right List.length fst snd].
      fold (sum_sizes (firstn n rest)).
      split; [lia|].
      split; [rewrite Hcur; subst w1; cbn [currentCacheSize]; lia|].
      split; [rewrite Hmax; reflexivity|]. split; [|split; [|split]].
      * intros k0. rewrite Hidx. subst w1. cbn [cacheIndex mem_key existsb].
        fold (mem_key k0 (map fst (firstn n rest))).
        destruct (String.eqb k0 k) eqn:E; cbn.
        -- apply String.eqb_eq in E. subst k0.
           rewrite JsMap.get_delete_same. now destruct (mem_key _ _).
        -- rewrite JsMap.get_delete_other; [reflexivity|].
           intros ->. rewrite String.eqb_refl in E. discriminate.
      * intros [|m] Hm; cbn [firstn sum_sizes fold_right snd]; [lia|].
        fold (sum_sizes (firstn m rest)).
        assert (Hm' : (m < n)%nat) by lia.
        specialize (Hprev m Hm'). subst w1.
        cbn [currentCacheSize maxCacheSize] in Hprev. lia.
      * destruct Hstop as [-> | Hstop]; [now left | right].
        exact Hstop.
      * rewrite Hres. cbn. f_equal; lia.
Qed.



(** ** Examples with the stand-in runtime *)

Definition setR := setCacheData Ref.md5hex Ref.NumberToString Ref.gzip
                     Ref.JSON_stringify.
Definition getR := getCacheData Ref.md5hex Ref.NumberToString Ref.gunzip
                     Ref.JSON_parse.

(** An empty cache with a ceiling of 200 bytes. *)
Definition small_cache : CacheWorker := mkWorker "/cache" 200 0 [] [] None.

Definition report_rows : jsval := VArr [VNum (num_of_Z 1); VNum (num_of_Z 2)].

(** The cache after a high-priority entry of 109 bytes was stored. *)
Definition with_report : CacheWorker :=
  fst (setR 1000 (VStr "report") report_rows (mkOptions None None (Some high))
         small_cache).



(** The stored file of "report" overwritten with bytes that are not a
    gzip stream. *)
Definition with_corrupt_report : CacheWorker :=
  set_dataFiles
    (JsMap.set "/cache/data/7265706f7274.cache" "garbage"
       (dataFiles with_report)) with_report.

(** C4 as stated fails: the [get] of an entry whose bytes do not
    decompress answers with an error, and the entry stays indexed. *)
Lemma get_corrupt_entry_surfaces :
  Ref.gunzip "garbage" = None /\
  getR 3000 (VStr "report") with_corrupt_report =
    (with_corrupt_report, Failure Z_DATA_ERROR) /\
  JsMap.has (generateCacheKey Ref.md5hex Ref.NumberToString (VStr "report"))
            (cacheIndex with_corrupt_report) = true.
Proof. vm_compute. repeat split. Qed.

Definition report_info : CacheInfo :=
  mkInfo (VStr "report") 1000 86400000 109 true high
         "/cache/data/7265706f7274.cache".

Lemma get_corrupt_entry_is_error_witness :
  JsMap.get (generateCacheKey Ref.md5hex Ref.NumberToString (VStr "report"))
            (cacheIndex with_corrupt_report) = Some report_info /\
  3000 - timestamp report_info <= ttl report_info /\
  JsMap.get (filePath report_info) (dataFiles with_corrupt_report)
    = Some "garbage" /\
  decode_entry Ref.gunzip Ref.JSON_parse (compressed report_info) "garbage"
    = inl Z_DATA_ERROR /\
  getR 3000 (VStr "report") with_corrupt_report =
    (with_corrupt_report, Failure Z_DATA_ERROR).
Proof.
  assert (Hidx : JsMap.get
            (generateCacheKey Ref.md5hex Ref.NumberToString (VStr "report"))
            (cacheIndex with_corrupt_report) = Some report_info)
    by (vm_compute; reflexivity).
  assert (Httl : 3000 - timestamp report_info <= ttl report_info)
    by (vm_compute; discriminate).
  assert (Hfile : JsMap.get (filePath report_info)
            (dataFiles with_corrupt_report) = Some "garbage")
    by (vm_compute; reflexivity).
  assert (Hdec : decode_entry Ref.gunzip Ref.JSON_parse
            (compressed report_info) "garbage" = inl Z_DATA_ERROR)
    by (vm_compute; reflexivity).
  repeat (split; [assumption|]).
  exact (proj2 (proj1 (@get_corrupt_entry_is_error Ref.md5hex
           Ref.NumberToString Ref.gunzip Ref.JSON_parse 3000 (VStr "report")
           with_corrupt_report report_info Hidx Httl) "garbage" Z_DATA_ERROR
           Hfile Hdec)).
Defined.




(** A cache directory that holds a data file of 20 bytes and no index
    file, under a ceiling of 10 bytes. *)
Definition orphaned_disk : CacheWorker :=
  mkWorker "/cache" 10 0 []
    [("/cache/data/0cc175b9c0f1b6a8.cache", "twenty bytes of data")] None.


(** ** Maintenance operations *)

Record ClearResult : Type := mkClear {
  c_deletedCount : Z;
  c_deletedSize : Z;
  c_remainingSize : Z
}.

(** One element of [entries] in the answer of [getCacheInfo]. *)
Record EntryInfo : Type := mkEntryInfo {
  i_key : jsval;
  i_size : Z;
  i_age : Z;
  i_ttl : Z;
  i_compressed : bool;
  i_priority : Priority;
  i_expired : bool
}.

(** The answer of [getCacheInfo] ([usagePercent], a rounded floating
    point ratio, and [directory] are left out). *)
Record CacheStats : Type := mkStats {
  totalEntries : Z;
  totalSize : Z;
  maxSize : Z;
  entries : list EntryInfo
}.

Definition is_expired (now : Z) (i : CacheInfo) : bool :=
  ttl i <? now - timestamp i.

(** [getCacheInfo]: the entries are listed largest first. *)
Definition getCacheInfo (now : Z) (w : CacheWorker) : CacheStats :=
  mkStats (JsMap.size (cacheIndex w)) (currentCacheSize w) (maxCacheSize w)
    (array_sort (fun a b => num_of_Z (i_size b - i_size a))
       (map (fun e =>
               mkEntryInfo (key (snd e)) (size (snd e))
                           (now - timestamp (snd e)) (ttl (snd e))
                           (compressed (snd e)) (priority (snd e))
                           (is_expired now (snd e)))
            (cacheIndex w))).

(** The loop shared by [cleanupExpiredCacheInternal] and the pattern
    branch of [clearCache]: each key still indexed is deleted and
    counted. *)
Fixpoint delete_keys (ks : list string) (w : CacheWorker) (r : EvictResult)
  : CacheWorker * EvictResult :=
  match ks with
  | [] => (w, r)
  | cacheKey :: rest =>
      match JsMap.get cacheKey (cacheIndex w) with
      | Some cacheInfo =>
          delete_keys rest (deleteCacheEntry cacheKey w)
            (mkEvict (deletedCount r + 1) (deletedSize r + size cacheInfo))
      | None => delete_keys rest w r
      end
  end.

(** [cleanupExpiredCacheInternal]; [now] is the value of [Date.now()]. *)
Definition cleanupExpiredCacheInternal (now : Z) (w : CacheWorker)
  : CacheWorker * EvictResult :=
  let expiredKeys :=
    map fst (filter (fun e => is_expired now (snd e)) (cacheIndex w)) in
  delete_keys expiredKeys w (mkEvict 0 0).

Section Maintenance.

Variable md5hex : string -> string.
Variable NumberToString : number -> string.
Variable gzip : string -> string.
Variable gunzip : string -> option string.
Variable JSON_stringify : jsval -> string.
Variable JSON_parse : string -> option jsval.
(** [new RegExp(pattern)]: [None] when the constructor throws, else the
    function [s => regex.test(s)]. *)
Variable RegExp : string -> option (string -> bool).

(** [clearCache].  [pattern] is [None] for an absent or [null] pattern;
    the empty string is falsy and clears everything too.  Without a
    pattern every file of the data directory is unlinked, indexed or
    not. *)
Definition clearCache (pattern : option string) (w : CacheWorker)
  : CacheWorker * (error + ClearResult) :=
  match pattern with
  | Some (String c p') =>
      match RegExp (String c p') with
      | None => (w, inl SyntaxError)
      | Some test =>
          let keysToDelete :=
            map fst (filter (fun e =>
                               test (ToString NumberToString (key (snd e))))
                            (cacheIndex w)) in
          let (w', r) := delete_keys keysToDelete w (mkEvict 0 0) in
          (w', inr (mkClear (deletedCount r) (deletedSize r)
                            (currentCacheSize w')))
      end
  | _ =>
      let n := JsMap.size (dataFiles w) in
      let bytes := fold_right (fun f acc => byte_length (snd f) + acc) 0
                              (dataFiles w) in
      let w' := saveCacheIndex
                  (set_currentCacheSize 0
                     (set_cacheIndex [] (set_dataFiles [] w))) in
      (w', inr (mkClear n bytes 0))
  end.

Definition set_compressed (sz : Z) (i : CacheInfo) : CacheInfo :=
  mkInfo (key i) (timestamp i) (ttl i) sz true (priority i) (filePath i).

(** The body of the loops of [compressUncompressedCache] and
    [compressCache] for one entry: an uncompressed entry whose file is
    there is rewritten compressed if that makes the file smaller.  The
    result is the worker and the space saved, if any. *)
Definition compress_entry (cacheKey : string) (w : CacheWorker)
  : CacheWorker * option Z :=
  match JsMap.get cacheKey (cacheIndex w) with
  | Some cacheInfo =>
      if compressed cacheInfo then (w, None)
      else
        match JsMap.get (filePath cacheInfo) (dataFiles w) with
        | None => (w, None)
        | Some originalData =>
            let compressedData := gzip originalData in
            if byte_length compressedData <? byte_length originalData then
              let spaceSaved :=
                byte_length originalData - byte_length compressedData in
              let w1 := set_dataFiles
                          (JsMap.set (filePath cacheInfo) compressedData
                                     (dataFiles w)) w in
              let w2 := set_currentCacheSize
                          (currentCacheSize w1 - spaceSaved) w1 in
              (set_cacheIndex
                 (JsMap.set cacheKey
                    (set_compressed (byte_length compressedData) cacheInfo)
                    (cacheIndex w2)) w2,
               Some spaceSaved)
            else (w, None)
        end
  | None => (w, None)
  end.

Record CompressResult : Type := mkCompress {
  compressedCount : Z;
  savedSpace : Z
}.

Fixpoint compress_keys (ks : list string) (w : CacheWorker)
  (r : CompressResult) : CacheWorker * CompressResult :=
  match ks with
  | [] => (w, r)
  | cacheKey :: rest =>
      match compress_entry cacheKey w with
      | (w', Some saved) =>
          compress_keys rest w'
            (mkCompress (compressedCount r + 1) (savedSpace r + saved))
      | (w', None) => compress_keys rest w' r
      end
  end.

(** [compressUncompressedCache]: every entry of the index; the index is
    saved if space was saved. *)
Definition compressUncompressedCache (w : CacheWorker)
  : CacheWorker * CompressResult :=
  let (w', r) := compress_keys (JsMap.keys (cacheIndex w)) w (mkCompress 0 0) in
  ((if 0 <? savedSpace r then saveCacheIndex w' else w'), r).

(** [compressCache]: the entries of the given logical keys, or every
    entry when no key is given. *)
Definition compressCache (keys : list jsval) (w : CacheWorker)
  : CacheWorker * CompressResult :=
  let keysToProcess :=
    match keys with
    | [] => JsMap.keys (cacheIndex w)
    | _ => map (generateCacheKey md5hex NumberToString) keys
    end in
  let (w', r) := compress_keys keysToProcess w (mkCompress 0 0) in
  ((if 0 <? compressedCount r then saveCacheIndex w' else w'), r).

Record OptimizeResult : Type := mkOptimize {
  optimizedEntries : Z;
  o_savedSpace : Z;
  currentSize : Z
}.

(** [optimizeCache]: purge the expired entries, compress, and evict if
    the total is still above 80% of the ceiling (exact arithmetic). *)
Definition optimizeCache (now : Z) (w : CacheWorker)
  : CacheWorker * OptimizeResult :=
  let (w1, expiredResult) := cleanupExpiredCacheInternal now w in
  let (w2, compressResult) := compressUncompressedCache w1 in
  let (w3, evictResult) :=
    if 8 * maxCacheSize w2 <? 10 * currentCacheSize w2
    then evictOldCache w2 else (w2, mkEvict 0 0) in
  (w3, mkOptimize (deletedCount expiredResult + deletedCount evictResult)
                  (deletedSize expiredResult + savedSpace compressResult
                   + deletedSize evictResult)
                  (currentCacheSize w3)).

Local Abbreviation cacheKeyOf := (generateCacheKey md5hex NumberToString).
Local Abbreviation get' :=
  (getCacheData md5hex NumberToString gunzip JSON_parse).
Local Abbreviation set' :=
  (setCacheData md5hex NumberToString gzip JSON_stringify).

Lemma deleteCacheEntry_index (k k' : string) (w : CacheWorker) :
  JsMap.get k' (cacheIndex (deleteCacheEntry k w))
  = if String.eqb k' k then None else JsMap.get k' (cacheIndex w).
Proof.
  unfold deleteCacheEntry.
  destruct (JsMap.get k (cacheIndex w)) as [info|] eqn:E.
  - assert (H : forall w1, cacheIndex w1 = cacheIndex w ->
              JsMap.get k' (cacheIndex (saveCacheIndex
                (set_cacheIndex (JsMap.delete k (cacheIndex w1)) w1)))
              = if String.eqb k' k then None else JsMap.get k' (cacheIndex w)).
    { intros w1 E1. cbn. rewrite E1.
      destruct (String.eqb k' k) eqn:Ek.
      - apply String.eqb_eq in Ek. subst. apply JsMap.get_delete_same.
      - apply JsMap.get_delete_other. intros ->.
        rewrite String.eqb_refl in Ek. discriminate. }
    destruct (JsMap.get (filePath info) (dataFiles w)); now apply H.
  - destruct (String.eqb k' k) eqn:Ek; [|reflexivity].
    apply String.eqb_eq in Ek. now subst.
Qed.

(** X1.  After [delete(key)] a [get(key)] misses and changes nothing,
    whatever the cache held; entries under other cache keys stay
    indexed as they were. *)
Theorem delete_then_get_misses (now : Z) (k : jsval) (w : CacheWorker) :
  get' now k (fst (deleteCacheData md5hex NumberToString k w))
  = (fst (deleteCacheData md5hex NumberToString k w), GetMiss "Cache miss") /\
  (forall k', cacheKeyOf k' <> cacheKeyOf k ->
     JsMap.get (cacheKeyOf k')
       (cacheIndex (fst (deleteCacheData md5hex NumberToString k w)))
     = JsMap.get (cacheKeyOf k') (cacheIndex w)).
Proof.
  unfold deleteCacheData. cbn [fst]. split.
  - unfold getCacheData. rewrite deleteCacheEntry_index, String.eqb_refl.
    reflexivity.
  - intros k' Hne. rewrite deleteCacheEntry_index.
    destruct (String.eqb (cacheKeyOf k') (cacheKeyOf k)) eqn:E; [|reflexivity].
    apply String.eqb_eq in E. contradiction.
Qed.

(** X2.  A [get] that comes after the TTL of a freshly written entry has
    elapsed answers "Cache expired" and undoes the write: the entry
    leaves the index, its file is unlinked and the running total is back
    to what it was before the [set]; the next [get] is a plain miss. *)
Theorem expired_entry_is_dropped (now now' : Z) (k v : jsval) (o : Options)
  (w : CacheWorker) :
  currentCacheSize w + byte_length (stored_bytes gzip JSON_stringify k v now o)
    <= maxCacheSize w ->
  ttl_of o < now' - now ->
  let w1 := fst (set' now k v o w) in
  let w2 := fst (get' now' k w1) in
  snd (get' now' k w1) = GetMiss "Cache expired" /\
  JsMap.get (cacheKeyOf k) (cacheIndex w2) = None /\
  JsMap.get (cacheFilePath (cacheDir w) (cacheKeyOf k)) (dataFiles w2) = None /\
  currentCacheSize w2 = currentCacheSize w /\
  get' now' k w2 = (w2, GetMiss "Cache miss").
Proof.
  intros Hroom Hlate. cbv zeta.
  rewrite (setCacheData_no_eviction md5hex NumberToString gzip JSON_stringify
             now k v o w Hroom).
  set (ck := cacheKeyOf k).
  set (path := cacheFilePath (cacheDir w) ck).
  set (bytes := stored_bytes gzip JSON_stringify k v now o) in *.
  set (info := mkInfo k now (ttl_of o) (byte_length bytes) (compress_of o)
                      (priority_of o) path).
  set (w1 := mkWorker _ _ _ _ _ _).
  assert (Hlive : entry_live w1 (ck, info)).
  { split; cbn; [apply JsMap.get_set_same|].
    unfold JsMap.has, path_of. cbn. now rewrite JsMap.get_set_same. }
  assert (Hget : get' now' k w1
                 = (deleteCacheEntry ck w1, GetMiss "Cache expired")).
  { pose proof (proj1 Hlive) as Hidx. cbn [fst snd] in Hidx.
    unfold getCacheData. fold ck. rewrite Hidx. cbn [ttl timestamp info].
    destruct (Z.ltb_spec (ttl_of o) (now' - now)); [reflexivity | lia]. }
  rewrite Hget. cbn [fst snd].
  rewrite (deleteCacheEntry_live w1 ck info Hlive).
  split; [reflexivity|]. cbn [cacheIndex dataFiles currentCacheSize].
  split; [apply JsMap.get_delete_same|].
  split; [apply JsMap.get_delete_same|].
  split; [subst w1 info; cbn [currentCacheSize size]; lia|].
  unfold getCacheData. fold ck. cbn [cacheIndex].
  now rewrite JsMap.get_delete_same.
Qed.

Lemma delete_keys_index (ks : list string) :
  forall (w : CacheWorker) (r : EvictResult) (k : string),
  JsMap.get k (cacheIndex (fst (delete_keys ks w r)))
  = if mem_key k ks then None else JsMap.get k (cacheIndex w).
Proof.
  induction ks as [|k0 ks IH]; intros w r k; cbn [delete_keys mem_key existsb];
    [reflexivity|].
  fold (mem_key k ks).
  destruct (JsMap.get k0 (cacheIndex w)) as [info|] eqn:E.
  - rewrite IH, deleteCacheEntry_index.
    destruct (String.eqb k k0); cbn; [now destruct (mem_key k ks) | reflexivity].
  - rewrite IH. destruct (String.eqb k k0) eqn:Ek; cbn; [|reflexivity].
    apply String.eqb_eq in Ek. subst. rewrite E. now destruct (mem_key k0 ks).
Qed.

Lemma mem_key_filter (P : CacheInfo -> bool) (m : JsMap.t CacheInfo)
  (k : string) (info : CacheInfo) :
  NoDup (JsMap.keys m) -> JsMap.get k m = Some info ->
  mem_key k (map fst (filter (fun e => P (snd e)) m)) = P info.
Proof.
  intros Hnd Hget. destruct (P info) eqn:EP.
  - apply mem_key_In. change k with (fst (k, info)). apply in_map.
    apply filter_In. split; [now apply JsMap.get_In | exact EP].
  - destruct (mem_key k _) eqn:Em; [|reflexivity].
    apply mem_key_In, in_map_iff in Em.
    destruct Em as [[k1 i1] [E1 Hin]]. cbn in E1. subst k1.
    apply filter_In in Hin. destruct Hin as [Hin HP]. cbn in HP.
    rewrite (get_of_In k i1 m Hnd Hin) in Hget. congruence.
Qed.

Lemma mem_key_filter_absent (P : CacheInfo -> bool) (m : JsMap.t CacheInfo)
  (k : string) :
  JsMap.get k m = None ->
  JsMap.get k m = None /\
  (mem_key k (map fst (filter (fun e => P (snd e)) m)) = true -> False).
Proof.
  intros Hget. split; [exact Hget|]. intros Em.
  apply mem_key_In, in_map_iff in Em.
  destruct Em as [[k1 i1] [E1 Hin]]. cbn in E1. subst k1.
  apply filter_In in Hin. destruct Hin as [Hin _].
  clear - Hget Hin. induction m as [|[k' v'] m IH]; [contradiction|].
  cbn in Hget. destruct (String.eqb k k') eqn:E; [discriminate|].
  destruct Hin as [Hin | Hin]; [|now apply IH].
  inversion Hin; subst. rewrite String.eqb_refl in E. discriminate.
Qed.

(** X3.  [cleanupExpiredCacheInternal] removes exactly the expired
    entries: afterwards a cache key is indexed if and only if it was
    indexed with an entry whose TTL has not elapsed, and that entry is
    unchanged; no entry left in the index is expired. *)
Theorem cleanup_removes_exactly_expired (now : Z) (w : CacheWorker) :
  nodupb (JsMap.keys (cacheIndex w)) = true ->
  (forall k,
     JsMap.get k (cacheIndex (fst (cleanupExpiredCacheInternal now w)))
     = match JsMap.get k (cacheIndex w) with
       | Some info => if is_expired now info then None else Some info
       | None => None
       end) /\
  (forall k info,
     JsMap.get k (cacheIndex (fst (cleanupExpiredCacheInternal now w)))
       = Some info ->
     now - timestamp info <= ttl info).
Proof.
  intros Hnd. apply nodupb_NoDup in Hnd.
  assert (H : forall k,
     JsMap.get k (cacheIndex (fst (cleanupExpiredCacheInternal now w)))
     = match JsMap.get k (cacheIndex w) with
       | Some info => if is_expired now info then None else Some info
       | None => None
       end).
  { intros k. unfold cleanupExpiredCacheInternal. rewrite delete_keys_index.
    destruct (JsMap.get k (cacheIndex w)) as [info|] eqn:E.
    - rewrite (mem_key_filter (is_expired now) _ k info Hnd E).
      now destruct (is_expired now info).
    - now destruct (mem_key k _). }
  split; [exact H|].
  intros k info Hget. rewrite H in Hget.
  destruct (JsMap.get k (cacheIndex w)) as [i|]; [|discriminate].
  destruct (is_expired now i) eqn:Ex; [discriminate|].
  inversion Hget; subst. unfold is_expired in Ex.
  now apply Z.ltb_ge in Ex.
Qed.

(** X4.  [clear()] without a pattern (or with the empty pattern) leaves
    an empty cache: [info()] then reports zero entries and zero size,
    every [get] misses, and the count and size it reports are those of
    the files the data directory held. *)
Theorem clear_all_empties (pattern : option string) (w : CacheWorker) :
  pattern = None \/ pattern = Some EmptyString ->
  let w' := fst (clearCache pattern w) in
  (forall now, totalEntries (getCacheInfo now w') = 0 /\
               totalSize (getCacheInfo now w') = 0 /\
               entries (getCacheInfo now w') = []) /\
  (forall now k, get' now k w' = (w', GetMiss "Cache miss")) /\
  dataFiles w' = [] /\
  snd (clearCache pattern w)
  = inr (mkClear (JsMap.size (dataFiles w))
           (currentCacheSize (calculateCacheSize w)) 0).
Proof.
  intros [-> | ->]; cbv zeta; cbn; repeat split.
Qed.

(** X5.  [clear(pattern)] with a pattern that compiles deletes exactly
    the entries whose logical key, as a string, matches: every other
    entry stays indexed unchanged. *)
Theorem clear_pattern_removes_matches (c : ascii) (p : string)
  (test : string -> bool) (w : CacheWorker) :
  nodupb (JsMap.keys (cacheIndex w)) = true ->
  RegExp (String c p) = Some test ->
  forall k,
    JsMap.get k (cacheIndex (fst (clearCache (Some (String c p)) w)))
    = match JsMap.get k (cacheIndex w) with
      | Some info =>
          if test (ToString NumberToString (key info)) then None
          else Some info
      | None => None
      end.
Proof.
  intros Hnd Hre k. apply nodupb_NoDup in Hnd.
  unfold clearCache. rewrite Hre.
  destruct (delete_keys _ w (mkEvict 0 0)) as [w' r] eqn:Ed. cbn [fst].
  replace w' with (fst (delete_keys
    (map fst (filter (fun e => test (ToString NumberToString (key (snd e))))
                     (cacheIndex w))) w (mkEvict 0 0))) by now rewrite Ed.
  rewrite delete_keys_index.
  destruct (JsMap.get k (cacheIndex w)) as [info|] eqn:E.
  - rewrite (mem_key_filter
               (fun i => test (ToString NumberToString (key i))) _ k info Hnd E).
    now destruct (test _).
  - now destruct (mem_key k _).
Qed.

End Maintenance.

(** ** The bookkeeping invariant *)

Definition Accounted (w : CacheWorker) : Prop :=
  NoDup (JsMap.keys (cacheIndex w)) /\
  NoDup (map path_of (cacheIndex w)) /\
  (forall e, In e (cacheIndex w) ->
             JsMap.has (path_of e) (dataFiles w) = true) /\
  currentCacheSize w = sum_sizes (cacheIndex w) /\
  0 <= maxCacheSize w.

Lemma NoDup_nodupb (l : list string) : NoDup l -> nodupb l = true.
Proof.
  induction 1 as [|x l Hx _ IH]; cbn; [reflexivity|].
  rewrite IH, andb_true_r. destruct (mem_key x l) eqn:E; [|reflexivity].
  apply mem_key_In in E. contradiction.
Qed.

Lemma accounted_spec (w : CacheWorker) : accounted w = true <-> Accounted w.
Proof.
  unfold accounted, Accounted. rewrite !andb_true_iff, forallb_forall.
  rewrite Z.eqb_eq, Z.leb_le. split.
  - intros [[[[H1 H2] H3] H4] H5]. repeat split; auto using nodupb_NoDup.
  - intros [H1 [H2 [H3 [H4 H5]]]]. repeat split; auto using NoDup_nodupb.
Qed.

Lemma sum_sizes_delete (k : string) (info : CacheInfo)
  (m : JsMap.t CacheInfo) :
  NoDup (JsMap.keys m) -> JsMap.get k m = Some info ->
  sum_sizes (JsMap.delete k m) = sum_sizes m - size info.
Proof.
  unfold JsMap.keys, JsMap.delete, sum_sizes.
  induction m as [|[k' v'] m IH]; cbn; intros Hnd Hget; [discriminate|].
  inversion Hnd as [|? ? Hnotin Hnd']; subst.
  destruct (String.eqb k k') eqn:E; cbn.
  - inversion Hget; subst. apply String.eqb_eq in E. subst k'.
    assert (Hf : filter (fun kv => negb (String.eqb k (fst kv))) m = m).
    { clear - Hnotin. induction m as [|[k1 v1] m IH]; cbn; [reflexivity|].
      destruct (String.eqb k k1) eqn:E1; cbn.
      - apply String.eqb_eq in E1. subst. exfalso. apply Hnotin. now left.
      - f_equal. apply IH. intros H. apply Hnotin. now right. }
    rewrite Hf. lia.
  - rewrite IH by assumption. lia.
Qed.

Lemma NoDup_map_filter (A B : Type) (f : A -> B) (g : A -> bool)
  (l : list A) :
  NoDup (map f l) -> NoDup (map f (filter g l)).
Proof.
  induction l as [|a l IH]; cbn; intros H; [constructor|].
  inversion H as [|? ? Hnotin Hnd]; subst.
  destruct (g a); cbn; [constructor|]; auto.
  intros Hin. apply Hnotin. apply in_map_iff in Hin.
  destruct Hin as [x [E Hx]]. apply filter_In in Hx.
  apply in_map_iff. exists x. tauto.
Qed.

Lemma NoDup_map_inj (A B : Type) (f : A -> B) (l : list A) (a b : A) :
  NoDup (map f l) -> In a l -> In b l -> f a = f b -> a = b.
Proof.
  induction l as [|x l IH]; cbn; intros Hnd Ha Hb E; [contradiction|].
  inversion Hnd as [|? ? Hnotin Hnd']; subst.
  destruct Ha as [-> | Ha], Hb as [-> | Hb]; auto.
  - exfalso. apply Hnotin. rewrite E. now apply in_map.
  - exfalso. apply Hnotin. rewrite <- E. now apply in_map.
Qed.

Lemma get_Some_In_keys {V : Type} (k : string) (m : JsMap.t V) :
  JsMap.get k m = None -> ~ In k (JsMap.keys m).
Proof.
  unfold JsMap.keys. induction m as [|[k' v'] m IH]; cbn; [tauto|].
  destruct (String.eqb k k') eqn:E; [discriminate|].
  intros H [E' | Hin]; [|now apply IH].
  subst. rewrite String.eqb_refl in E. discriminate.
Qed.

Lemma deleteCacheEntry_accounted (k : string) (w : CacheWorker) :
  Accounted w -> Accounted (deleteCacheEntry k w).
Proof.
  intros Hacc. destruct (JsMap.get k (cacheIndex w)) as [info|] eqn:E.
  - destruct Hacc as [Hk [Hp [Hf [Hs Hm]]]].
    assert (Hin : In (k, info) (cacheIndex w)) by now apply JsMap.get_In.
    assert (Hlive : entry_live w (k, info)) by (split; [exact E | now apply Hf]).
    rewrite (deleteCacheEntry_live w k info Hlive).
    unfold Accounted. cbn [cacheIndex dataFiles currentCacheSize maxCacheSize].
    split; [|split; [|split; [|split]]].
    + unfold JsMap.keys, JsMap.delete. now apply NoDup_map_filter.
    + unfold JsMap.delete. now apply NoDup_map_filter.
    + intros e He. unfold JsMap.delete in He. apply filter_In in He.
      destruct He as [He Hne]. rewrite has_delete_other; [now apply Hf|].
      intros Epath.
      assert (e = (k, info)) by now apply (NoDup_map_inj _ _ path_of (cacheIndex w)).
      subst e. cbn in Hne. rewrite String.eqb_refl in Hne. discriminate.
    + rewrite (sum_sizes_delete k info) by assumption. lia.
    + exact Hm.
  - unfold deleteCacheEntry. now rewrite E.
Qed.

Lemma delete_keys_accounted (ks : list string) :
  forall w r, Accounted w -> Accounted (fst (delete_keys ks w r)).
Proof.
  induction ks as [|k ks IH]; intros w r H; cbn [delete_keys]; [exact H|].
  destruct (JsMap.get k (cacheIndex w)); [|now apply IH].
  now apply IH, deleteCacheEntry_accounted.
Qed.

Lemma evict_loop_accounted (es : list (string * CacheInfo)) :
  forall w r, Accounted w -> Accounted (fst (evict_loop es w r)).
Proof.
  induction es as [|[k info] es IH]; intros w r H; cbn [evict_loop]; [exact H|].
  destruct (at_target w); [exact H|].
  now apply IH, deleteCacheEntry_accounted.
Qed.

Lemma evictOldCache_target (w : CacheWorker) :
  Accounted w ->
  10 * currentCacheSize (fst (evictOldCache w)) <= 7 * maxCacheSize w /\
  maxCacheSize (fst (evictOldCache w)) = maxCacheSize w.
Proof.
  intros [Hk [Hp [Hf [Hs Hm]]]]. unfold evictOldCache.
  set (sorted := array_sort evict_compare (cacheIndex w)).
  assert (Hperm : Permutation (cacheIndex w) sorted) by apply array_sort_perm.
  assert (Hks : NoDup (map fst sorted)).
  { eapply Permutation_NoDup; [apply Permutation_map, Hperm | exact Hk]. }
  assert (Hps : NoDup (map path_of sorted)).
  { eapply Permutation_NoDup; [apply Permutation_map, Hperm | exact Hp]. }
  assert (Hlive : Forall (entry_live w) sorted).
  { eapply Permutation_Forall; [exact Hperm|].
    rewrite Forall_forall. intros [k info] Hin. split.
    - now apply get_of_In.
    - now apply Hf. }
  destruct (evict_loop_spec sorted w (mkEvict 0 0) Hks Hps Hlive)
    as [n [Hn [Hcur [Hmax [_ [_ [Hstop _]]]]]]].
  split; [|exact Hmax].
  destruct Hstop as [-> | Hstop]; [|exact Hstop].
  rewrite Hcur, firstn_all, <- (sum_sizes_perm _ _ Hperm). lia.
Qed.

(** X6.  Deleting keeps the bookkeeping exact: after [delete(key)],
    after the purge of expired entries and after an eviction, the index
    is still a map with one present file per entry and the running total
    is still the sum of the recorded sizes. *)
Theorem deletions_keep_accounts (w : CacheWorker) :
  accounted w = true ->
  (forall md5hex NumberToString k,
     accounted (fst (deleteCacheData md5hex NumberToString k w)) = true) /\
  (forall now, accounted (fst (cleanupExpiredCacheInternal now w)) = true) /\
  accounted (fst (evictOldCache w)) = true.
Proof.
  intros H. apply accounted_spec in H. repeat split; intros;
    apply accounted_spec.
  - now apply deleteCacheEntry_accounted.
  - now apply delete_keys_accounted.
  - now apply evict_loop_accounted.
Qed.

Lemma set_absent {V : Type} (k : string) (v : V) (m : JsMap.t V) :
  JsMap.get k m = None -> JsMap.set k v m = m ++ [(k, v)].
Proof.
  induction m as [|[k' v'] m IH]; cbn; [reflexivity|].
  destruct (String.eqb k k'); [discriminate|]. intros H. now rewrite IH.
Qed.

Lemma sum_sizes_app (l1 l2 : list (string * CacheInfo)) :
  sum_sizes (l1 ++ l2) = sum_sizes l1 + sum_sizes l2.
Proof.
  unfold sum_sizes. induction l1 as [|e l1 IH]; cbn; [reflexivity|].
  rewrite IH. lia.
Qed.

Lemma has_set_mono {V : Type} (k k0 : string) (v : V) (m : JsMap.t V) :
  JsMap.has k0 m = true -> JsMap.has k0 (JsMap.set k v m) = true.
Proof.
  unfold JsMap.has. destruct (String.eqb k0 k) eqn:E.
  - apply String.eqb_eq in E. subst. now rewrite JsMap.get_set_same.
  - rewrite JsMap.get_set_other; [auto|].
    intros ->. rewrite String.eqb_refl in E. discriminate.
Qed.

Section Accounts.

Variable md5hex : string -> string.
Variable NumberToString : number -> string.
Variable gzip : string -> string.
Variable JSON_stringify : jsval -> string.

Local Abbreviation cacheKeyOf := (generateCacheKey md5hex NumberToString).
Local Abbreviation set' :=
  (setCacheData md5hex NumberToString gzip JSON_stringify).

(** X7.  Writing a key that has no entry and no file yet keeps the
    bookkeeping exact, eviction included, and leaves the running total at
    or below the ceiling: the total of the recorded sizes never exceeds
    the ceiling after such a [set]. *)
Theorem set_new_key_keeps_accounts (now : Z) (k v : jsval) (o : Options)
  (w : CacheWorker) :
  accounted w = true ->
  JsMap.get (cacheKeyOf k) (cacheIndex w) = None ->
  JsMap.get (cacheFilePath (cacheDir w) (cacheKeyOf k)) (dataFiles w) = None ->
  accounted (fst (set' now k v o w)) = true /\
  currentCacheSize (fst (set' now k v o w)) <= maxCacheSize w /\
  sum_sizes (cacheIndex (fst (set' now k v o w))) <= maxCacheSize w.
Proof.
  intros Hacc Hidx Hfile. apply accounted_spec in Hacc.
  destruct Hacc as [Hk [Hp [Hf [Hs Hm]]]].
  unfold setCacheData. cbn [fst].
  set (ck := cacheKeyOf k) in *.
  set (path := cacheFilePath (cacheDir w) ck) in *.
  set (bytes := stored_bytes gzip JSON_stringify k v now o).
  set (info := mkInfo k now (ttl_of o) (byte_length bytes) (compress_of o)
                      (priority_of o) path).
  set (w4 := saveCacheIndex _).
  assert (Hacc4 : Accounted w4).
  { subst w4. unfold Accounted. cbn.
    rewrite (set_absent ck info (cacheIndex w) Hidx).
    split; [|split; [|split; [|split]]].
    - unfold JsMap.keys. rewrite map_app. cbn.
      apply NoDup_app; [exact Hk | repeat constructor; intros [] |].
      intros x Hx [<- | []]. now apply (get_Some_In_keys ck (cacheIndex w)).
    - rewrite map_app. cbn.
      apply NoDup_app; [exact Hp | repeat constructor; intros [] |].
      intros x Hx [<- | []]. apply in_map_iff in Hx.
      destruct Hx as [e [E He]]. specialize (Hf e He).
      unfold JsMap.has in Hf. rewrite E in Hf. unfold path_of in Hf. cbn in Hf.
      fold path in Hf. now rewrite Hfile in Hf.
    - intros e He. apply in_app_or in He. destruct He as [He | [<- | []]].
      + apply has_set_mono. now apply Hf.
      + unfold JsMap.has, path_of. cbn. now rewrite JsMap.get_set_same.
    - rewrite sum_sizes_app. cbn. lia.
    - exact Hm. }
  assert (Hmax4 : maxCacheSize w4 = maxCacheSize w) by reflexivity.
  destruct (Z.ltb_spec (maxCacheSize w4) (currentCacheSize w4)) as [Hover | Hok].
  - destruct (evictOldCache_target w4 Hacc4) as [Ht Hm'].
    pose proof (evict_loop_accounted
                  (array_sort evict_compare (cacheIndex w4)) w4 (mkEvict 0 0)
                  Hacc4) as Hacc5.
    fold (evictOldCache w4) in Hacc5.
    split; [now apply accounted_spec|].
    destruct Hacc5 as [_ [_ [_ [Hs5 _]]]]. rewrite <- Hs5. lia.
  - split; [now apply accounted_spec|].
    destruct Hacc4 as [_ [_ [_ [Hs4 _]]]]. rewrite <- Hs4. lia.
Qed.

Lemma sum_sizes_set (k : string) (old new : CacheInfo)
  (m : JsMap.t CacheInfo) :
  JsMap.get k m = Some old ->
  sum_sizes (JsMap.set k new m) = sum_sizes m - size old + size new.
Proof.
  unfold sum_sizes. induction m as [|[k' v'] m IH]; cbn; [discriminate|].
  destruct (String.eqb k k'); cbn.
  - intros [= ->]. lia.
  - intros H. rewrite IH by assumption. lia.
Qed.

(** X8.  Overwriting drifts the running total: when a key that already
    has an entry is written again (and the write triggers no eviction),
    the old entry's size is not given back, so the running total ends
    above the sum of the recorded sizes by exactly the size of the entry
    that was replaced. *)
Theorem overwrite_inflates_total (now : Z) (k v : jsval) (o : Options)
  (w : CacheWorker) (old : CacheInfo) :
  currentCacheSize w = sum_sizes (cacheIndex w) ->
  JsMap.get (cacheKeyOf k) (cacheIndex w) = Some old ->
  currentCacheSize w + byte_length (stored_bytes gzip JSON_stringify k v now o)
    <= maxCacheSize w ->
  currentCacheSize (fst (set' now k v o w))
  = sum_sizes (cacheIndex (fst (set' now k v o w))) + size old.
Proof.
  intros Hs Hidx Hroom.
  rewrite (setCacheData_no_eviction md5hex NumberToString gzip JSON_stringify
             now k v o w Hroom).
  cbn [currentCacheSize cacheIndex].
  rewrite (sum_sizes_set _ old _ _ Hidx). cbn [size]. lia.
Qed.

End Accounts.

(** ** Compression and optimisation *)

(** Every recorded size is the length of the entry's file. *)
Definition Sized (w : CacheWorker) : Prop :=
  forall e b, In e (cacheIndex w) ->
    JsMap.get (path_of e) (dataFiles w) = Some b ->
    byte_length b = size (snd e).

Definition sizedb (w : CacheWorker) : bool :=
  forallb (fun e => match JsMap.get (path_of e) (dataFiles w) with
                    | Some b => byte_length b =? size (snd e)
                    | None => true
                    end) (cacheIndex w).

Lemma sizedb_spec (w : CacheWorker) : sizedb w = true -> Sized w.
Proof.
  unfold sizedb, Sized. rewrite forallb_forall. intros H e b He Hb.
  specialize (H e He). rewrite Hb in H. now apply Z.eqb_eq.
Qed.

Lemma keys_set_present {V : Type} (k : string) (v old : V) (m : JsMap.t V) :
  JsMap.get k m = Some old -> JsMap.keys (JsMap.set k v m) = JsMap.keys m.
Proof.
  unfold JsMap.keys. induction m as [|[k' v'] m IH]; cbn; [discriminate|].
  destruct (String.eqb k k') eqn:E; cbn.
  - apply String.eqb_eq in E. now subst.
  - intros H. now rewrite IH.
Qed.

Lemma map_set_same (B : Type) (f : string * CacheInfo -> B) (k : string)
  (v old : CacheInfo) (m : JsMap.t CacheInfo) :
  JsMap.get k m = Some old -> f (k, v) = f (k, old) ->
  map f (JsMap.set k v m) = map f m.
Proof.
  intros Hget Hf. induction m as [|[k' v'] m IH]; cbn in *; [discriminate|].
  destruct (String.eqb k k') eqn:E; cbn.
  - apply String.eqb_eq in E. subst k'. inversion Hget; subst. now rewrite Hf.
  - now rewrite IH.
Qed.

Lemma In_set_inv {V : Type} (k : string) (v : V) (m : JsMap.t V)
  (e : string * V) :
  NoDup (JsMap.keys m) -> In e (JsMap.set k v m) ->
  e = (k, v) \/ (In e m /\ fst e <> k).
Proof.
  unfold JsMap.keys. induction m as [|[k' v'] m IH]; cbn; intros Hnd Hin.
  - destruct Hin as [<- | []]. now left.
  - inversion Hnd as [|? ? Hnotin Hnd']; subst.
    destruct (String.eqb k k') eqn:E.
    + apply String.eqb_eq in E. subst k'. destruct Hin as [<- | Hin]; [now left|].
      right. split; [now right|]. intros <-. apply Hnotin. now apply in_map.
    + destruct Hin as [<- | Hin].
      * right. split; [now left|]. cbn. intros ->.
        rewrite String.eqb_refl in E. discriminate.
      * destruct (IH Hnd' Hin) as [-> | [H1 H2]]; [now left | right; auto].
Qed.

Section Compression.

Variable md5hex : string -> string.
Variable NumberToString : number -> string.
Variable gzip : string -> string.
Variable gunzip : string -> option string.
Variable JSON_parse : string -> option jsval.

Local Abbreviation cacheKeyOf := (generateCacheKey md5hex NumberToString).
Local Abbreviation get' :=
  (getCacheData md5hex NumberToString gunzip JSON_parse).

(** What the compression of one entry changes, when it changes
    anything. *)
Lemma compress_entry_cases (ck : string) (w : CacheWorker) :
  (fst (compress_entry gzip ck w) = w /\ snd (compress_entry gzip ck w) = None)
  \/
  exists info b,
    JsMap.get ck (cacheIndex w) = Some info /\
    compressed info = false /\
    JsMap.get (filePath info) (dataFiles w) = Some b /\
    byte_length (gzip b) < byte_length b /\
    snd (compress_entry gzip ck w)
      = Some (byte_length b - byte_length (gzip b)) /\
    fst (compress_entry gzip ck w)
    = mkWorker (cacheDir w) (maxCacheSize w)
        (currentCacheSize w - (byte_length b - byte_length (gzip b)))
        (JsMap.set ck (set_compressed (byte_length (gzip b)) info)
                   (cacheIndex w))
        (JsMap.set (filePath info) (gzip b) (dataFiles w))
        (indexFile w).
Proof.
  unfold compress_entry.
  destruct (JsMap.get ck (cacheIndex w)) as [info|] eqn:Ei; [|now left].
  destruct (compressed info) eqn:Ec; [now left|].
  destruct (JsMap.get (filePath info) (dataFiles w)) as [b|] eqn:Ef; [|now left].
  destruct (Z.ltb_spec (byte_length (gzip b)) (byte_length b)); [|now left].
  right. exists info, b. repeat split; auto.
Qed.

Lemma compress_entry_accounted (ck : string) (w : CacheWorker) :
  Accounted w -> Sized w ->
  Accounted (fst (compress_entry gzip ck w)) /\
  Sized (fst (compress_entry gzip ck w)).
Proof.
  intros Hacc Hsz.
  destruct (compress_entry_cases ck w)
    as [[-> _] | [info [b [Hi [Hc [Hf [Hlt [_ ->]]]]]]]]; [now split|].
  destruct Hacc as [Hk [Hp [Hfiles [Hs Hm]]]].
  assert (Hin : In (ck, info) (cacheIndex w)) by now apply JsMap.get_In.
  assert (Hother : forall e, In e (cacheIndex w) -> fst e <> ck ->
                             path_of e <> filePath info).
  { intros e He Hne Epath. apply Hne.
    assert (e = (ck, info))
      by now apply (NoDup_map_inj _ _ path_of (cacheIndex w)).
    now subst e. }
  split.
  - unfold Accounted. cbn [cacheIndex dataFiles currentCacheSize maxCacheSize].
    split; [|split; [|split; [|split]]].
    + now rewrite (keys_set_present ck _ info).
    + now rewrite (map_set_same _ path_of ck _ info).
    + intros e He. destruct (In_set_inv _ _ _ _ Hk He) as [-> | [He' _]].
      * unfold JsMap.has, path_of. cbn. now rewrite JsMap.get_set_same.
      * apply has_set_mono. now apply Hfiles.
    + rewrite (sum_sizes_set ck info _ _ Hi). cbn [size set_compressed].
      pose proof (Hsz (ck, info) b Hin Hf) as Hb. cbn in Hb. lia.
    + exact Hm.
  - intros e b' He Hb'. cbn [cacheIndex dataFiles] in He, Hb'.
    destruct (In_set_inv _ _ _ _ Hk He) as [-> | [He' Hne]].
    + unfold path_of in Hb'. cbn in Hb'. rewrite JsMap.get_set_same in Hb'.
      inversion Hb'; subst. reflexivity.
    + rewrite JsMap.get_set_other in Hb' by now apply Hother.
      now apply (Hsz e b').
Qed.

Lemma compress_keys_accounted (ks : list string) :
  forall w r, Accounted w -> Sized w ->
  Accounted (fst (compress_keys gzip ks w r)) /\
  Sized (fst (compress_keys gzip ks w r)).
Proof.
  induction ks as [|k ks IH]; intros w r Ha Hs; cbn [compress_keys];
    [now split|].
  destruct (compress_entry_accounted k w Ha Hs) as [Ha' Hs'].
  destruct (compress_entry gzip k w) as [w' [saved|]]; cbn [fst] in *;
    now apply IH.
Qed.

Lemma compress_keys_total (ks : list string) :
  forall w r, 0 <= savedSpace r ->
  currentCacheSize (fst (compress_keys gzip ks w r)) <= currentCacheSize w /\
  0 <= savedSpace (snd (compress_keys gzip ks w r)) /\
  maxCacheSize (fst (compress_keys gzip ks w r)) = maxCacheSize w.
Proof.
  induction ks as [|k ks IH]; intros w r Hr; cbn [compress_keys];
    [cbn [fst snd]; split; [lia | split; [exact Hr | reflexivity]]|].
  destruct (compress_entry_cases k w)
    as [[E1 E2] | [info [b [_ [_ [_ [Hlt [E2 E1]]]]]]]];
    destruct (compress_entry gzip k w) as [w' o]; cbn [fst snd] in *; subst.
  - now apply IH.
  - destruct (IH (mkWorker (cacheDir w) (maxCacheSize w)
                    (currentCacheSize w - (byte_length b - byte_length (gzip b)))
                    (JsMap.set k (set_compressed (byte_length (gzip b)) info)
                               (cacheIndex w))
                    (JsMap.set (filePath info) (gzip b) (dataFiles w))
                    (indexFile w))
                 (mkCompress (compressedCount r + 1)
                    (savedSpace r + (byte_length b - byte_length (gzip b)))))
      as [H1 [H2 H3]]; [cbn; lia|].
    cbn [currentCacheSize maxCacheSize] in *.
    split; [lia | split; [exact H2 | exact H3]].
Qed.

Lemma deleteCacheEntry_sized (k : string) (w : CacheWorker) :
  Accounted w -> Sized w -> Sized (deleteCacheEntry k w).
Proof.
  intros Hacc Hsz. destruct (JsMap.get k (cacheIndex w)) as [info|] eqn:E.
  - destruct Hacc as [Hk [Hp [Hf [Hs Hm]]]].
    assert (Hin : In (k, info) (cacheIndex w)) by now apply JsMap.get_In.
    assert (Hlive : entry_live w (k, info)) by (split; [exact E | now apply Hf]).
    rewrite (deleteCacheEntry_live w k info Hlive).
    intros e b He Hb. cbn [cacheIndex dataFiles] in He, Hb.
    unfold JsMap.delete in He. apply filter_In in He. destruct He as [He Hne].
    rewrite JsMap.get_delete_other in Hb; [now apply (Hsz e b)|].
    intros Epath.
    assert (e = (k, info))
      by now apply (NoDup_map_inj _ _ path_of (cacheIndex w)).
    subst e. cbn in Hne. rewrite String.eqb_refl in Hne. discriminate.
  - unfold deleteCacheEntry. now rewrite E.
Qed.

Lemma delete_keys_sized (ks : list string) :
  forall w r, Accounted w -> Sized w ->
  Accounted (fst (delete_keys ks w r)) /\ Sized (fst (delete_keys ks w r)).
Proof.
  induction ks as [|k ks IH]; intros w r Ha Hs; cbn [delete_keys];
    [now split|].
  destruct (JsMap.get k (cacheIndex w)); [|now apply IH].
  apply IH; [now apply deleteCacheEntry_accounted
            | now apply deleteCacheEntry_sized].
Qed.

(** X9.  On a cache whose bookkeeping is exact and whose recorded sizes
    are the file sizes, [optimizeCache] ends with the running total at
    or below 80% of the ceiling, never above what it was, and with the
    bookkeeping still exact. *)
Theorem optimizeCache_bounds (now : Z) (w : CacheWorker) :
  accounted w = true -> sizedb w = true ->
  let w' := fst (optimizeCache gzip now w) in
  10 * currentCacheSize w' <= 8 * maxCacheSize w /\
  currentCacheSize w' <= currentCacheSize w /\
  accounted w' = true /\
  currentSize (snd (optimizeCache gzip now w)) = currentCacheSize w'.
Proof.
  intros Hacc Hsz. apply accounted_spec in Hacc. apply sizedb_spec in Hsz.
  assert (Hmax : 0 <= maxCacheSize w) by apply Hacc.
  cbv zeta. unfold optimizeCache.
  destruct (cleanupExpiredCacheInternal now w) as [w1 r1] eqn:E1.
  assert (H1 : Accounted w1 /\ Sized w1 /\ currentCacheSize w1 <= currentCacheSize w
               /\ maxCacheSize w1 = maxCacheSize w).
  { unfold cleanupExpiredCacheInternal in E1.
    set (ks := map fst _) in E1.
    destruct (delete_keys_sized ks w (mkEvict 0 0) Hacc Hsz) as [Ha Hs].
    rewrite E1 in Ha, Hs. cbn [fst] in Ha, Hs. split; [exact Ha|].
    split; [exact Hs|].
    assert (G : forall ks w r, Accounted w ->
              (forall e, In e (cacheIndex w) -> 0 <= size (snd e)) ->
              currentCacheSize (fst (delete_keys ks w r)) <= currentCacheSize w
              /\ maxCacheSize (fst (delete_keys ks w r)) = maxCacheSize w).
    { clear. induction ks as [|k ks IH]; intros w r Ha Hpos; cbn [delete_keys];
        [cbn [fst]; split; [lia | reflexivity]|].
      destruct (JsMap.get k (cacheIndex w)) as [info|] eqn:E; [|now apply IH].
      assert (Hin : In (k, info) (cacheIndex w)) by now apply JsMap.get_In.
      assert (Hlive : entry_live w (k, info)).
      { split; [exact E|]. destruct Ha as [_ [_ [Hf _]]]. now apply Hf. }
      destruct (IH (deleteCacheEntry k w)
                  (mkEvict (deletedCount r + 1) (deletedSize r + size info)))
        as [G1 G2].
      - now apply deleteCacheEntry_accounted.
      - intros e He. apply Hpos.
        rewrite (deleteCacheEntry_live w k info Hlive) in He. cbn in He.
        now apply filter_In in He.
      - rewrite G2, (deleteCacheEntry_live w k info Hlive).
        rewrite (deleteCacheEntry_live w k info Hlive) in G1.
        cbn [currentCacheSize maxCacheSize] in *.
        pose proof (Hpos _ Hin) as Hp. cbn in Hp. split; [lia | reflexivity]. }
    assert (Hpos : forall e, In e (cacheIndex w) -> 0 <= size (snd e)).
    { intros e He. destruct Hacc as [_ [_ [Hf _]]]. specialize (Hf e He).
      unfold JsMap.has in Hf.
      destruct (JsMap.get (path_of e) (dataFiles w)) as [b|] eqn:Eb;
        [|discriminate].
      rewrite <- (Hsz e b He Eb). unfold byte_length. lia. }
    destruct (G ks w (mkEvict 0 0) Hacc Hpos) as [G1 G2].
    rewrite E1 in G1, G2. now split. }
  destruct H1 as [Ha1 [Hs1 [Hc1 Hm1]]].
  unfold compressUncompressedCache.
  destruct (compress_keys gzip (JsMap.keys (cacheIndex w1)) w1 (mkCompress 0 0))
    as [w2 r2] eqn:E2.
  destruct (compress_keys_accounted (JsMap.keys (cacheIndex w1)) w1
              (mkCompress 0 0) Ha1 Hs1) as [Ha2 _].
  destruct (compress_keys_total (JsMap.keys (cacheIndex w1)) w1
              (mkCompress 0 0)) as [Hc2 [_ Hm2]]; [cbn; lia|].
  rewrite E2 in Ha2, Hc2, Hm2. cbn [fst] in Ha2, Hc2, Hm2.
  set (w2' := if 0 <? savedSpace r2 then saveCacheIndex w2 else w2).
  assert (Ha2' : Accounted w2') by (subst w2'; destruct (0 <? savedSpace r2); exact Ha2).
  assert (Hc2' : currentCacheSize w2' = currentCacheSize w2)
    by (subst w2'; now destruct (0 <? savedSpace r2)).
  assert (Hm2' : maxCacheSize w2' = maxCacheSize w2)
    by (subst w2'; now destruct (0 <? savedSpace r2)).
  destruct (Z.ltb_spec (8 * maxCacheSize w2') (10 * currentCacheSize w2'))
    as [Hover | Hok].
  - destruct (evictOldCache w2') as [w3 r3] eqn:E3. cbn [fst snd].
    destruct (evictOldCache_target w2' Ha2') as [Ht Hm3].
    pose proof (evict_loop_accounted
                  (array_sort evict_compare (cacheIndex w2')) w2' (mkEvict 0 0)
                  Ha2') as Ha3.
    fold (evictOldCache w2') in Ha3. rewrite E3 in Ht, Hm3, Ha3.
    cbn [fst] in Ht, Hm3, Ha3.
    split; [lia|]. split; [lia|]. split; [now apply accounted_spec | reflexivity].
  - cbn [fst snd]. split; [lia|]. split; [lia|].
    split; [now apply accounted_spec | reflexivity].
Qed.

(** What a [get] answers, from the index entry of the key and the
    bytes of its file. *)
Definition answer (now : Z) (entry : option CacheInfo) (file : option string)
  : reply :=
  match entry with
  | None => GetMiss "Cache miss"
  | Some info =>
      if ttl info <? now - timestamp info then GetMiss "Cache expired"
      else match file with
           | None => GetMiss "Cache file not found"
           | Some bytes =>
               match decode_entry gunzip JSON_parse (compressed info) bytes with
               | inl e => Failure e
               | inr entry' =>
                   match get_prop entry' "value", get_prop entry' "key",
                         get_prop entry' "timestamp" with
                   | inr v, inr k', inr ts =>
                       GetHit v (mkMeta k' ts (size info) (compressed info))
                   | _, _, _ => Failure TypeError
                   end
               end
           end
  end.

Lemma getCacheData_answer (now : Z) (k : jsval) (w : CacheWorker) :
  snd (get' now k w)
  = answer now (JsMap.get (cacheKeyOf k) (cacheIndex w))
      (match JsMap.get (cacheKeyOf k) (cacheIndex w) with
       | Some info => JsMap.get (filePath info) (dataFiles w)
       | None => None
       end).
Proof.
  unfold getCacheData, answer.
  destruct (JsMap.get (cacheKeyOf k) (cacheIndex w)) as [info|]; [|reflexivity].
  destruct (ttl info <? now - timestamp info); [reflexivity|].
  unfold read_entry.
  destruct (JsMap.get (filePath info) (dataFiles w)) as [bytes|]; [|reflexivity].
  unfold decode_entry.
  destruct (if compressed info then gunzip bytes else Some bytes) as [text|];
    [|reflexivity].
  destruct (JSON_parse text) as [entry'|]; [|reflexivity].
  destruct (get_prop entry' "value"), (get_prop entry' "key"),
    (get_prop entry' "timestamp"); reflexivity.
Qed.

(** Two answers that agree on everything but the recorded size and the
    compression flag. *)
Definition same_answer (r r' : reply) : Prop :=
  match r, r' with
  | GetHit v m, GetHit v' m' =>
      v = v' /\ m_key m = m_key m' /\ m_timestamp m = m_timestamp m'
  | _, _ => r = r'
  end.

Lemma same_answer_refl (r : reply) : same_answer r r.
Proof. destruct r; cbn; auto. Qed.

Lemma same_answer_trans (r1 r2 r3 : reply) :
  same_answer r1 r2 -> same_answer r2 r3 -> same_answer r1 r3.
Proof.
  destruct r1, r2, r3; cbn; intros H1 H2; try congruence; try discriminate;
    intuition congruence.
Qed.

Hypothesis gunzip_gzip : forall b, gunzip (gzip b) = Some b.

Lemma compress_entry_answer (now : Z) (k : jsval) (ck : string)
  (w : CacheWorker) :
  NoDup (JsMap.keys (cacheIndex w)) ->
  NoDup (map path_of (cacheIndex w)) ->
  same_answer (snd (get' now k w))
              (snd (get' now k (fst (compress_entry gzip ck w)))).
Proof.
  intros Hk Hp.
  destruct (compress_entry_cases ck w)
    as [[-> _] | [info [b [Hi [Hc [Hf [Hlt [_ ->]]]]]]]];
    [apply same_answer_refl|].
  rewrite !getCacheData_answer. cbn [cacheIndex dataFiles].
  destruct (String.eqb (cacheKeyOf k) ck) eqn:E.
  - apply String.eqb_eq in E. rewrite E, Hi, JsMap.get_set_same.
    unfold set_compressed. cbn [filePath].
    rewrite Hf, JsMap.get_set_same. unfold answer.
    cbn [ttl timestamp compressed size].
    destruct (ttl info <? now - timestamp info); [apply same_answer_refl|].
    unfold decode_entry. rewrite Hc, gunzip_gzip.
    destruct (JSON_parse b) as [entry'|]; [|apply same_answer_refl].
    destruct (get_prop entry' "value"), (get_prop entry' "key"),
      (get_prop entry' "timestamp"); cbn; auto.
  - assert (Hne : cacheKeyOf k <> ck).
    { intros H. rewrite H, String.eqb_refl in E. discriminate. }
    rewrite JsMap.get_set_other by exact Hne.
    destruct (JsMap.get (cacheKeyOf k) (cacheIndex w)) as [i0|] eqn:E0;
      [|apply same_answer_refl].
    rewrite JsMap.get_set_other; [apply same_answer_refl|].
    intros Epath.
    assert ((cacheKeyOf k, i0) = (ck, info)).
    { apply (NoDup_map_inj _ _ path_of (cacheIndex w)); auto using JsMap.get_In. }
    congruence.
Qed.

Lemma compress_keys_answer (now : Z) (k : jsval) (ks : list string) :
  forall w r,
  NoDup (JsMap.keys (cacheIndex w)) ->
  NoDup (map path_of (cacheIndex w)) ->
  same_answer (snd (get' now k w))
              (snd (get' now k (fst (compress_keys gzip ks w r)))).
Proof.
  induction ks as [|k0 ks IH]; intros w r Hk Hp; cbn [compress_keys];
    [apply same_answer_refl|].
  pose proof (compress_entry_answer now k k0 w Hk Hp) as H0.
  assert (Hk' : NoDup (JsMap.keys (cacheIndex (fst (compress_entry gzip k0 w))))
                /\ NoDup (map path_of (cacheIndex (fst (compress_entry gzip k0 w))))).
  { destruct (compress_entry_cases k0 w)
      as [[-> _] | [info [b [Hi [_ [_ [_ [_ ->]]]]]]]]; [now split|].
    cbn [cacheIndex]. split.
    - now rewrite (keys_set_present k0 _ info).
    - now rewrite (map_set_same _ path_of k0 _ info). }
  destruct (compress_entry gzip k0 w) as [w' [saved|]]; cbn [fst] in *;
    (eapply same_answer_trans; [exact H0 | apply IH; tauto]).
Qed.

(** X10.  Compressing entries after the fact does not change what the
    cache answers: for every key, the [get] after [compressCache] (with
    any list of keys, or none for all entries) gives the same value, key
    and timestamp as the [get] before, or the same miss or error; and the
    running total does not grow. *)
Theorem compressCache_keeps_answers (now : Z) (k : jsval) (keys : list jsval)
  (w : CacheWorker) :
  nodupb (JsMap.keys (cacheIndex w)) = true ->
  nodupb (map path_of (cacheIndex w)) = true ->
  same_answer
    (snd (get' now k w))
    (snd (get' now k (fst (compressCache md5hex NumberToString gzip keys w))))
  /\
  currentCacheSize (fst (compressCache md5hex NumberToString gzip keys w))
    <= currentCacheSize w.
Proof.
  intros Hk Hp. apply nodupb_NoDup in Hk, Hp. unfold compressCache.
  set (ks := match keys with [] => _ | _ => _ end).
  pose proof (compress_keys_answer now k ks w (mkCompress 0 0) Hk Hp) as Ha.
  destruct (compress_keys_total ks w (mkCompress 0 0)) as [Hc _]; [cbn; lia|].
  destruct (compress_keys gzip ks w (mkCompress 0 0)) as [w' r]. cbn [fst] in *.
  destruct (0 <? compressedCount r); split; auto.
  rewrite !getCacheData_answer in Ha |- *. exact Ha.
Qed.

End Compression.

(** ** The report of [getCacheInfo] *)

(** The element of [entries] built for one index entry. *)
Definition entry_info (now : Z) (e : string * CacheInfo) : EntryInfo :=
  mkEntryInfo (key (snd e)) (size (snd e)) (now - timestamp (snd e))
              (ttl (snd e)) (compressed (snd e)) (priority (snd e))
              (is_expired now (snd e)).

Definition size_compare (a b : EntryInfo) : number :=
  num_of_Z (i_size b - i_size a).

Lemma size_compare_sign (a b : EntryInfo) :
  SortCompare size_compare a b = Z.sgn (i_size b - i_size a).
Proof. unfold SortCompare, size_compare. apply num_sign_of_Z. Qed.

Lemma size_compare_consistent (l : list EntryInfo) :
  consistent_on size_compare l.
Proof.
  split.
  - intros x y _ _. rewrite !size_compare_sign, <- Z.sgn_opp. f_equal. lia.
  - intros x y z _ _ _. rewrite !size_compare_sign, !Z.sgn_nonpos. lia.
Qed.

(** X30.  [getCacheInfo] lists every index entry exactly once, the
    largest first, and reports the number of entries and the running
    total. *)
Theorem getCacheInfo_lists_entries (now : Z) (w : CacheWorker) :
  let stats := getCacheInfo now w in
  Permutation (map (entry_info now) (cacheIndex w)) (entries stats) /\
  StronglySorted (fun a b => i_size b <= i_size a) (entries stats) /\
  totalEntries stats = Z.of_nat (List.length (entries stats)) /\
  totalSize stats = currentCacheSize w.
Proof.
  cbv zeta. unfold getCacheInfo. cbn [entries totalEntries totalSize].
  change (fun a b : EntryInfo => num_of_Z (i_size b - i_size a))
    with size_compare.
  change (fun e : string * CacheInfo =>
            mkEntryInfo (key (snd e)) (size (snd e)) (now - timestamp (snd e))
              (ttl (snd e)) (compressed (snd e)) (priority (snd e))
              (is_expired now (snd e)))
    with (entry_info now).
  set (l := map (entry_info now) (cacheIndex w)).
  split; [apply array_sort_perm|]. split; [|split].
  - pose proof (array_sort_sorted _ size_compare l
                  (size_compare_consistent l)) as H.
    induction H as [|a l' Hs IH Hall]; constructor; [exact IH|].
    rewrite Forall_forall in *. intros x Hx. specialize (Hall x Hx).
    unfold not_greater in Hall. rewrite size_compare_sign in Hall.
    apply Z.sgn_nonpos in Hall. lia.
  - rewrite (array_sort_length _ size_compare l). subst l.
    rewrite length_map. reflexivity.
  - reflexivity.
Qed.

(** ** Examples of maintenance with the stand-in runtime *)

(** A compression stand-in that shortens what starts like a JSON object
    by one byte and lengthens everything else by one. *)
Definition pack (s : string) : string :=
  match s with
  | String "{"%char (String "034"%char t) => String "1"%char t
  | _ => String "0"%char s
  end.

Definition unpack (s : string) : option string :=
  match s with
  | String "1"%char t => Some (String "{"%char (String "034"%char t))
  | String "0"%char t => Some t
  | _ => None
  end.

Lemma unpack_pack (b : string) : unpack (pack b) = Some b.
Proof.
  destruct b as [|c [|c' t]]; [reflexivity | |].
  - unfold pack.
    destruct c as [[] [] [] [] [] [] [] []]; reflexivity.
  - unfold pack.
    destruct c as [[] [] [] [] [] [] [] []]; try reflexivity.
    destruct c' as [[] [] [] [] [] [] [] []]; reflexivity.
Qed.

(** [new RegExp(p)] for patterns without metacharacters. *)
Definition literal_RegExp (p : string) : option (string -> bool) :=
  Some (fun s => str_includes s p).

(** A cache of 1000 bytes with a compressed entry that lives 500 ms and
    a younger entry stored as plain text. *)
Definition mixed_cache : CacheWorker :=
  fst (setCacheData Ref.md5hex Ref.NumberToString pack Ref.JSON_stringify
         2000 (VStr "draft") (VStr "hello")
         (mkOptions None (Some false) (Some low))
         (fst (setCacheData Ref.md5hex Ref.NumberToString pack
                 Ref.JSON_stringify 1000 (VStr "report") report_rows
                 (mkOptions (Some 500) None (Some high))
                 (mkWorker "/cache" 1000 0 [] [] None)))).

(** The same entries under a ceiling of 250 bytes. *)
Definition tight_cache : CacheWorker :=
  mkWorker "/cache" 250 (currentCacheSize mixed_cache)
    (cacheIndex mixed_cache) (dataFiles mixed_cache) (indexFile mixed_cache).

Lemma expired_entry_is_dropped_witness :
  currentCacheSize small_cache
    + byte_length (stored_bytes Ref.gzip Ref.JSON_stringify (VStr "report")
                     report_rows 1000 (mkOptions (Some 500) None None))
    <= maxCacheSize small_cache /\
  ttl_of (mkOptions (Some 500) None None) < 2000 - 1000 /\
  snd (getR 2000 (VStr "report")
         (fst (setR 1000 (VStr "report") report_rows
                 (mkOptions (Some 500) None None) small_cache)))
  = GetMiss "Cache expired".
Proof.
  split; [vm_compute; discriminate|]. split; [vm_compute; reflexivity|].
  apply (expired_entry_is_dropped Ref.md5hex Ref.NumberToString Ref.gzip
           Ref.gunzip Ref.JSON_stringify Ref.JSON_parse 1000 2000
           (VStr "report") report_rows (mkOptions (Some 500) None None)
           small_cache).
  - vm_compute; discriminate.
  - vm_compute; reflexivity.
Defined.

Lemma cleanup_removes_exactly_expired_witness :
  nodupb (JsMap.keys (cacheIndex mixed_cache)) = true /\
  forall k,
    JsMap.get k (cacheIndex (fst (cleanupExpiredCacheInternal 3000 mixed_cache)))
    = match JsMap.get k (cacheIndex mixed_cache) with
      | Some info => if is_expired 3000 info then None else Some info
      | None => None
      end.
Proof.
  split; [vm_compute; reflexivity|].
  apply (cleanup_removes_exactly_expired 3000 mixed_cache).
  vm_compute; reflexivity.
Defined.

Lemma clear_all_empties_witness :
  (@None string = None \/ @None string = Some EmptyString) /\
  dataFiles (fst (clearCache Ref.NumberToString literal_RegExp None
                    orphaned_disk)) = [].
Proof.
  split; [left; reflexivity|].
  apply (clear_all_empties Ref.md5hex Ref.NumberToString Ref.gunzip
           Ref.JSON_parse literal_RegExp None orphaned_disk).
  left; reflexivity.
Defined.

Lemma clear_pattern_removes_matches_witness :
  nodupb (JsMap.keys (cacheIndex mixed_cache)) = true /\
  literal_RegExp "rep" = Some (fun s => str_includes s "rep") /\
  forall k,
    JsMap.get k (cacheIndex (fst (clearCache Ref.NumberToString literal_RegExp
                                    (Some "rep") mixed_cache)))
    = match JsMap.get k (cacheIndex mixed_cache) with
      | Some info =>
          if str_includes (ToString Ref.NumberToString (key info)) "rep"
          then None else Some info
      | None => None
      end.
Proof.
  split; [vm_compute; reflexivity|]. split; [reflexivity|].
  apply (clear_pattern_removes_matches Ref.NumberToString literal_RegExp
           "r"%char "ep" (fun s => str_includes s "rep") mixed_cache).
  - vm_compute; reflexivity.
  - reflexivity.
Defined.

Lemma deletions_keep_accounts_witness :
  accounted tight_cache = true /\
  accounted (fst (evictOldCache tight_cache)) = true.
Proof.
  split; [vm_compute; reflexivity|].
  apply (deletions_keep_accounts tight_cache).
  vm_compute; reflexivity.
Defined.

Lemma set_new_key_keeps_accounts_witness :
  accounted mixed_cache = true /\
  JsMap.get (generateCacheKey Ref.md5hex Ref.NumberToString (VStr "notes"))
    (cacheIndex mixed_cache) = None /\
  JsMap.get (cacheFilePath (cacheDir mixed_cache)
               (generateCacheKey Ref.md5hex Ref.NumberToString (VStr "notes")))
    (dataFiles mixed_cache) = None /\
  accounted (fst (setR 3000 (VStr "notes") (VStr "to do")
                    (mkOptions None None None) mixed_cache)) = true.
Proof.
  split; [vm_compute; reflexivity|]. split; [vm_compute; reflexivity|].
  split; [vm_compute; reflexivity|].
  apply (set_new_key_keeps_accounts Ref.md5hex Ref.NumberToString Ref.gzip
           Ref.JSON_stringify 3000 (VStr "notes") (VStr "to do")
           (mkOptions None None None) mixed_cache).
  - vm_compute; reflexivity.
  - vm_compute; reflexivity.
  - vm_compute; reflexivity.
Defined.

(** The index entry of the draft in [mixed_cache]. *)
Definition draft_info : CacheInfo :=
  match JsMap.get (generateCacheKey Ref.md5hex Ref.NumberToString (VStr "draft"))
                  (cacheIndex mixed_cache) with
  | Some i => i
  | None => mkInfo VNull 0 0 0 false normal EmptyString
  end.

Lemma overwrite_inflates_total_witness :
  currentCacheSize mixed_cache = sum_sizes (cacheIndex mixed_cache) /\
  JsMap.get (generateCacheKey Ref.md5hex Ref.NumberToString (VStr "draft"))
    (cacheIndex mixed_cache) = Some draft_info /\
  currentCacheSize mixed_cache
    + byte_length (stored_bytes Ref.gzip Ref.JSON_stringify (VStr "draft")
                     (VStr "bye") 3000 (mkOptions None None None))
    <= maxCacheSize mixed_cache /\
  currentCacheSize (fst (setR 3000 (VStr "draft") (VStr "bye")
                           (mkOptions None None None) mixed_cache))
  = sum_sizes (cacheIndex (fst (setR 3000 (VStr "draft") (VStr "bye")
                                  (mkOptions None None None) mixed_cache)))
    + size draft_info.
Proof.
  split; [vm_compute; reflexivity|]. split; [vm_compute; reflexivity|].
  split; [vm_compute; discriminate|].
  apply (overwrite_inflates_total Ref.md5hex Ref.NumberToString Ref.gzip
           Ref.JSON_stringify 3000 (VStr "draft") (VStr "bye")
           (mkOptions None None None) mixed_cache draft_info).
  - vm_compute; reflexivity.
  - vm_compute; reflexivity.
  - vm_compute; discriminate.
Defined.

Lemma optimizeCache_bounds_witness :
  accounted tight_cache = true /\ sizedb tight_cache = true /\
  10 * currentCacheSize (fst (optimizeCache pack 1200 tight_cache))
    <= 8 * maxCacheSize tight_cache.
Proof.
  split; [vm_compute; reflexivity|]. split; [vm_compute; reflexivity|].
  apply (optimizeCache_bounds pack 1200 tight_cache).
  - vm_compute; reflexivity.
  - vm_compute; reflexivity.
Defined.

Lemma compressCache_keeps_answers_witness :
  (forall b, unpack (pack b) = Some b) /\
  nodupb (JsMap.keys (cacheIndex mixed_cache)) = true /\
  nodupb (map path_of (cacheIndex mixed_cache)) = true /\
  same_answer
    (snd (getCacheData Ref.md5hex Ref.NumberToString unpack Ref.JSON_parse
            2200 (VStr "draft") mixed_cache))
    (snd (getCacheData Ref.md5hex Ref.NumberToString unpack Ref.JSON_parse
            2200 (VStr "draft")
            (fst (compressCache Ref.md5hex Ref.NumberToString pack []
                    mixed_cache)))).
Proof.
  split; [exact unpack_pack|].
  split; [vm_compute; reflexivity|]. split; [vm_compute; reflexivity|].
  apply (compressCache_keeps_answers Ref.md5hex Ref.NumberToString pack unpack
           Ref.JSON_parse unpack_pack 2200 (VStr "draft") [] mixed_cache).
  - vm_compute; reflexivity.
  - vm_compute; reflexivity.
Defined.

End Cache.

(* ================================================================== *)
(** * The worker pool ([WorkerPool], src/main/workerPool.js) *)
(* ================================================================== *)

Module Pool.

Inductive Priority : Type := high | normal | low.

(** [priorityOrder] of [executeTask]. *)
Definition priorityOrder (p : Priority) : Z :=
  match p with high => 3 | normal => 2 | low => 1 end.

(** A queued task.  The promise callbacks [resolve] and [reject] are
    represented by the log [settled] of the pool; [onProgress] is left
    out. *)
Record Task : Type := mkTask {
  task_id : string;
  task_type : string;
  taskType : string;
  task_data : jsval;
  createdAt : Z;
  priority : Priority
}.

(** A [workerInfo] object.  [threadId] stands for [worker.threadId],
    which the runtime keeps positive while the thread lives; [idleTimer]
    tells whether an idle timer is armed. *)
Record WorkerInfo : Type := mkWorkerInfo {
  w_id : string;
  w_type : string;
  threadId : Z;
  busy : bool;
  w_createdAt : Z;
  lastUsed : Z;
  taskCount : Z;
  currentTask : option Task;
  idleTimer : bool
}.

Inductive settlement : Type :=
| Resolved (result : jsval)
| Rejected (message : string).

(** The pool.  The three maps [workers], [availableWorkers] and
    [busyWorkers] of the source hold references to shared [workerInfo]
    objects: [heap] is the store of these objects by id, and each map is
    the list of its keys in insertion order.  [posted] logs the messages
    sent to workers (worker id, task id), [settled] the promises settled
    (task id, outcome), [terminated] the workers on which [terminate()]
    was called; all three oldest first. *)
Record WorkerPool : Type := mkPool {
  maxWorkers : Z;
  minWorkers : Z;
  heap : JsMap.t WorkerInfo;
  workers : list string;
  availableWorkers : list string;
  busyWorkers : list string;
  taskQueue : list Task;
  nextWorkerId : Z;
  isShuttingDown : bool;
  posted : list (string * string);
  settled : list (string * settlement);
  terminated : list string
}.

Inductive pool_error : Type :=
| PoolClosing
| UnsupportedWorkerType (t : string).

(** A fresh pool ([constructor]). *)
Definition new_pool (maxW minW : Z) : WorkerPool :=
  mkPool maxW minW [] [] [] [] [] 1 false [] [] [].

(** Keys of [this.workerTypes]. *)
Definition known_type (t : string) : bool :=
  String.eqb t "parser" || String.eqb t "processor" || String.eqb t "cache".

(** [Map.prototype.set] and [delete] on the keys of a map. *)
Definition ids_mem (id : string) (l : list string) : bool :=
  existsb (String.eqb id) l.
Definition ids_add (id : string) (l : list string) : list string :=
  if ids_mem id l then l else l ++ [id].
Definition ids_del (id : string) (l : list string) : list string :=
  filter (fun x => negb (String.eqb id x)) l.

Definition size (l : list string) : Z := Z.of_nat (List.length l).

Definition with_heap (h : JsMap.t WorkerInfo) (p : WorkerPool) : WorkerPool :=
  mkPool (maxWorkers p) (minWorkers p) h (workers p) (availableWorkers p)
         (busyWorkers p) (taskQueue p) (nextWorkerId p) (isShuttingDown p)
         (posted p) (settled p) (terminated p).

Definition with_maps (ws av bs : list string) (p : WorkerPool) : WorkerPool :=
  mkPool (maxWorkers p) (minWorkers p) (heap p) ws av bs (taskQueue p)
         (nextWorkerId p) (isShuttingDown p) (posted p) (settled p)
         (terminated p).

Definition with_queue (q : list Task) (p : WorkerPool) : WorkerPool :=
  mkPool (maxWorkers p) (minWorkers p) (heap p) (workers p)
         (availableWorkers p) (busyWorkers p) q (nextWorkerId p)
         (isShuttingDown p) (posted p) (settled p) (terminated p).

Definition with_nextWorkerId (n : Z) (p : WorkerPool) : WorkerPool :=
  mkPool (maxWorkers p) (minWorkers p) (heap p) (workers p)
         (availableWorkers p) (busyWorkers p) (taskQueue p) n
         (isShuttingDown p) (posted p) (settled p) (terminated p).

Definition with_isShuttingDown (b : bool) (p : WorkerPool) : WorkerPool :=
  mkPool (maxWorkers p) (minWorkers p) (heap p) (workers p)
         (availableWorkers p) (busyWorkers p) (taskQueue p) (nextWorkerId p)
         b (posted p) (settled p) (terminated p).

Definition with_posted (l : list (string * string)) (p : WorkerPool)
  : WorkerPool :=
  mkPool (maxWorkers p) (minWorkers p) (heap p) (workers p)
         (availableWorkers p) (busyWorkers p) (taskQueue p) (nextWorkerId p)
         (isShuttingDown p) l (settled p) (terminated p).

Definition with_settled (l : list (string * settlement)) (p : WorkerPool)
  : WorkerPool :=
  mkPool (maxWorkers p) (minWorkers p) (heap p) (workers p)
         (availableWorkers p) (busyWorkers p) (taskQueue p) (nextWorkerId p)
         (isShuttingDown p) (posted p) l (terminated p).

Definition with_terminated (l : list string) (p : WorkerPool) : WorkerPool :=
  mkPool (maxWorkers p) (minWorkers p) (heap p) (workers p)
         (availableWorkers p) (busyWorkers p) (taskQueue p) (nextWorkerId p)
         (isShuttingDown p) (posted p) (settled p) l.

(** Update of a [workerInfo] object in place. *)
Definition update_worker (id : string) (f : WorkerInfo -> WorkerInfo)
  (p : WorkerPool) : WorkerPool :=
  match JsMap.get id (heap p) with
  | Some wi => with_heap (JsMap.set id (f wi) (heap p)) p
  | None => p
  end.

Definition set_idleTimer (b : bool) (wi : WorkerInfo) : WorkerInfo :=
  mkWorkerInfo (w_id wi) (w_type wi) (threadId wi) (busy wi) (w_createdAt wi)
               (lastUsed wi) (taskCount wi) (currentTask wi) b.

(** [setIdleTimeout]: any armed timer is cleared; a new one is armed only
    while the pool holds more than [minWorkers] workers. *)
Definition setIdleTimeout (id : string) (p : WorkerPool) : WorkerPool :=
  update_worker id (set_idleTimer (minWorkers p <? size (workers p))) p.

(** [createWorker]: the id is [`${type}-${this.nextWorkerId++}`].  The
    thread id the runtime gives the new worker is taken to be the same
    counter, which starts at 1: all that [removeWorker] looks at is that
    it is not zero. *)
Definition worker_name (type : string) (n : Z) : string :=
  type ++ "-" ++ NilZero.string_of_int (Z.to_int n).

Definition createWorker (now : Z) (type : string) (p : WorkerPool)
  : pool_error + (string * WorkerPool) :=
  if isShuttingDown p then inl PoolClosing
  else if negb (known_type type) then inl (UnsupportedWorkerType type)
  else
    let workerId := worker_name type (nextWorkerId p) in
    let workerInfo :=
      mkWorkerInfo workerId type (nextWorkerId p) false now now 0 None false in
    let p1 := with_nextWorkerId (nextWorkerId p + 1) p in
    let p2 := with_heap (JsMap.set workerId workerInfo (heap p1)) p1 in
    let p3 := with_maps (ids_add workerId (workers p2))
                        (ids_add workerId (availableWorkers p2))
                        (busyWorkers p2) p2 in
    inr (workerId, setIdleTimeout workerId p3).

(** [findAvailableWorker]: the first idle worker of the wanted type, and
    failing that the first idle worker of any type. *)
Definition has_type (p : WorkerPool) (type id : string) : bool :=
  match JsMap.get id (heap p) with
  | Some wi => String.eqb (w_type wi) type
  | None => false
  end.

Definition findAvailableWorker (type : string) (p : WorkerPool)
  : option string :=
  match find (has_type p type) (availableWorkers p) with
  | Some id => Some id
  | None => hd_error (availableWorkers p)
  end.

(** [assignTaskToWorker]. *)
Definition take_task (task : Task) (now : Z) (wi : WorkerInfo) : WorkerInfo :=
  mkWorkerInfo (w_id wi) (w_type wi) (threadId wi) true (w_createdAt wi) now
               (taskCount wi + 1) (Some task) false.

Definition assignTaskToWorker (now : Z) (id : string) (task : Task)
  (p : WorkerPool) : WorkerPool :=
  let p1 := update_worker id (take_task task now) p in
  let p2 := with_maps (workers p1) (ids_del id (availableWorkers p1))
                      (ids_add id (busyWorkers p1)) p1 in
  with_posted (posted p2 ++ [(id, task_id task)]) p2.

(** [assignTask], taken as one step (the source awaits [createWorker],
    which has no suspension point of its own). *)
Definition assignTask (now : Z) (p : WorkerPool) : WorkerPool :=
  match taskQueue p with
  | [] => p
  | task :: rest =>
      match findAvailableWorker (task_type task) p with
      | Some id => assignTaskToWorker now id task (with_queue rest p)
      | None =>
          if size (workers p) <? maxWorkers p then
            match createWorker now (task_type task) p with
            | inl _ => p
            | inr (id, p1) =>
                assignTaskToWorker now id task
                  (with_queue (tl (taskQueue p1)) p1)
            end
          else p
      end
  end.

(** The comparator of [executeTask]: higher priority first. *)
Definition queue_compare (a b : Task) : number :=
  num_of_Z (priorityOrder (priority b) - priorityOrder (priority a)).

(** [executeTask]: push, sort by priority, try to assign.  [task] is the
    task object the source builds (fresh id, [Date.now()], priority
    defaulting to [normal]). *)
Definition enqueue (task : Task) (q : list Task) : list Task :=
  array_sort queue_compare (q ++ [task]).

Definition executeTask (now : Z) (task : Task) (p : WorkerPool) : WorkerPool :=
  assignTask now (with_queue (enqueue task (taskQueue p)) p).

(** [releaseWorker]. *)
Definition release (now : Z) (wi : WorkerInfo) : WorkerInfo :=
  mkWorkerInfo (w_id wi) (w_type wi) (threadId wi) false (w_createdAt wi) now
               (taskCount wi) None (idleTimer wi).

Definition releaseWorker (now : Z) (id : string) (p : WorkerPool)
  : WorkerPool :=
  let p1 := update_worker id (release now) p in
  let p2 := with_maps (workers p1) (ids_add id (availableWorkers p1))
                      (ids_del id (busyWorkers p1)) p1 in
  setIdleTimeout id p2.

(** [completeTask] and [failTask]. *)
Definition completeTask (now : Z) (id : string) (task : Task) (result : jsval)
  (p : WorkerPool) : WorkerPool :=
  let p1 := releaseWorker now id p in
  let p2 := with_settled (settled p1 ++ [(task_id task, Resolved result)]) p1 in
  assignTask now p2.

Definition failTask (now : Z) (id : string) (task : Task) (message : string)
  (p : WorkerPool) : WorkerPool :=
  let p1 := releaseWorker now id p in
  let p2 := with_settled (settled p1 ++ [(task_id task, Rejected message)]) p1 in
  assignTask now p2.

Definition current_task (id : string) (p : WorkerPool) : option Task :=
  match JsMap.get id (heap p) with
  | Some wi => currentTask wi
  | None => None
  end.

(** [handleTaskResult] and [handleTaskError]: a message is honoured only
    when its id is that of the worker's current task. *)
Definition handleTaskResult (now : Z) (id messageId : string) (data : jsval)
  (p : WorkerPool) : WorkerPool :=
  match current_task id p with
  | Some task =>
      if String.eqb (task_id task) messageId
      then completeTask now id task data p else p
  | None => p
  end.

Definition handleTaskError (now : Z) (id messageId message : string)
  (p : WorkerPool) : WorkerPool :=
  match current_task id p with
  | Some task =>
      if String.eqb (task_id task) messageId
      then failTask now id task message p else p
  | None => p
  end.

(** [removeWorker]: [terminate()] is called only if [threadId] is falsy. *)
Definition removeWorker (id : string) (p : WorkerPool) : WorkerPool :=
  if ids_mem id (workers p) then
    let p1 := update_worker id (set_idleTimer false) p in
    let p2 := with_maps (ids_del id (workers p1))
                        (ids_del id (availableWorkers p1))
                        (ids_del id (busyWorkers p1)) p1 in
    match JsMap.get id (heap p2) with
    | Some wi => if threadId wi =? 0
                 then with_terminated (terminated p2 ++ [id]) p2 else p2
    | None => p2
    end
  else p.

(** [recreateWorker]: a failure of [createWorker] is only logged. *)
Definition recreateWorker (now : Z) (type : string) (p : WorkerPool)
  : WorkerPool :=
  match createWorker now type p with
  | inr (_, p1) => p1
  | inl _ => p
  end.

Definition type_of (id : string) (p : WorkerPool) : string :=
  match JsMap.get id (heap p) with
  | Some wi => w_type wi
  | None => EmptyString
  end.

(** [handleWorkerError] (the worker's ['error'] event). *)
Definition handleWorkerError (now : Z) (id message : string) (p : WorkerPool)
  : WorkerPool :=
  let p1 := match current_task id p with
            | Some task => failTask now id task message p
            | None => p
            end in
  recreateWorker now (type_of id p) p1.

(** [handleWorkerExit] (the worker's ['exit'] event). *)
Definition handleWorkerExit (now : Z) (id : string) (code : Z) (p : WorkerPool)
  : WorkerPool :=
  let p1 := removeWorker id p in
  if negb (code =? 0) && negb (isShuttingDown p1)
  then recreateWorker now (type_of id p) p1 else p1.

(** The callback of the idle timer; it can only run if the timer is
    armed. *)
Definition onIdleTimeout (id : string) (p : WorkerPool) : WorkerPool :=
  match JsMap.get id (heap p) with
  | Some wi =>
      if idleTimer wi && negb (busy wi) && (minWorkers p <? size (workers p))
      then removeWorker id p else p
  | None => p
  end.

(** ** Shutdown *)

(** What the event loop can deliver to the pool while [shutdown] waits.
    [PollTick] is the 100 ms timer of the wait loop firing. *)
Inductive event : Type :=
| Submit (task : Task)
| TaskResult (id messageId : string) (data : jsval)
| TaskError (id messageId message : string)
| WorkerError (id message : string)
| WorkerExit (id : string) (code : Z)
| IdleTimeout (id : string)
| PollTick.

Definition handle (now : Z) (e : event) (p : WorkerPool) : WorkerPool :=
  match e with
  | Submit task => executeTask now task p
  | TaskResult id m d => handleTaskResult now id m d p
  | TaskError id m msg => handleTaskError now id m msg p
  | WorkerError id msg => handleWorkerError now id msg p
  | WorkerExit id code => handleWorkerExit now id code p
  | IdleTimeout id => onIdleTimeout id p
  | PollTick => p
  end.




(** Pools reachable from a fresh pool by events. *)
Inductive reachable : WorkerPool -> Prop :=
| reach_new (maxW minW : Z) : reachable (new_pool maxW minW)
| reach_create (now : Z) (type id : string) (p p' : WorkerPool) :
    reachable p -> createWorker now type p = inr (id, p') -> reachable p'
| reach_handle (now : Z) (e : event) (p : WorkerPool) :
    reachable p -> reachable (handle now e p)
| reach_shutdown_begin (p : WorkerPool) :
    reachable p -> reachable (with_isShuttingDown true p).

(** ** The queue *)

Definition po (t : Task) : Z := priorityOrder (priority t).

(** The queue is sorted: no task is behind one of lower priority. *)
Definition by_priority (q : list Task) : Prop :=
  StronglySorted (fun a b => po b <= po a) q.

Fixpoint by_priorityb (q : list Task) : bool :=
  match q with
  | [] => true
  | t :: q' => forallb (fun u => po u <=? po t) q' && by_priorityb q'
  end.

Lemma by_priorityb_spec (q : list Task) :
  by_priorityb q = true <-> by_priority q.
Proof.
  unfold by_priority. induction q as [|t q IH]; simpl.
  - split; [constructor | reflexivity].
  - rewrite andb_true_iff, forallb_forall, IH. split.
    + intros [Hall Hs]. constructor; [exact Hs|].
      rewrite Forall_forall. intros u Hu. apply Z.leb_le. now apply Hall.
    + intros Hs. inversion Hs as [|? ? Hs' Hall]; subst. split; [|exact Hs'].
      rewrite Forall_forall in Hall. intros u Hu. apply Z.leb_le.
      now apply Hall.
Qed.

Lemma queue_compare_sign (a b : Task) :
  SortCompare queue_compare a b = Z.sgn (po b - po a).
Proof. unfold SortCompare, queue_compare. apply num_sign_of_Z. Qed.

Lemma queue_compare_le (a b : Task) :
  SortCompare queue_compare a b <= 0 <-> po b <= po a.
Proof. rewrite queue_compare_sign, Z.sgn_nonpos. lia. Qed.

Lemma queue_compare_consistent (l : list Task) :
  consistent_on queue_compare l.
Proof.
  split.
  - intros x y _ _. rewrite !queue_compare_sign, <- Z.sgn_opp. f_equal. lia.
  - intros x y z _ _ _. rewrite !queue_compare_le. lia.
Qed.

Lemma enqueue_sorted (t : Task) (q : list Task) : by_priority (enqueue t q).
Proof.
  unfold by_priority, enqueue.
  pose proof (array_sort_sorted _ queue_compare (q ++ [t])
                (queue_compare_consistent _)) as H.
  induction H as [|a l Hs IH Hall]; constructor; [exact IH|].
  rewrite Forall_forall in *. intros x Hx.
  now apply queue_compare_le, Hall.
Qed.



(** ** Assignment *)

(** Every idle worker has its [workerInfo] object, and the queue is
    sorted by priority. *)
Definition well_formed (p : WorkerPool) : bool :=
  forallb (fun id => JsMap.has id (heap p)) (availableWorkers p) &&
  by_priorityb (taskQueue p).


Lemma In_ids_add (id : string) (l : list string) : In id (ids_add id l).
Proof.
  unfold ids_add. destruct (ids_mem id l) eqn:E.
  - unfold ids_mem in E. apply existsb_exists in E.
    destruct E as [x [Hx E]]. apply String.eqb_eq in E. now subst.
  - apply in_or_app. right. now left.
Qed.







(** ** The hypothesis of [assignTask_spec] holds in every reachable pool *)

Definition covered (p : WorkerPool) : Prop :=
  forall id, In id (availableWorkers p) -> JsMap.has id (heap p) = true.

Definition invariant (p : WorkerPool) : Prop :=
  covered p /\ by_priority (taskQueue p).

Lemma has_set {V : Type} (k k0 : string) (v : V) (m : JsMap.t V) :
  JsMap.has k0 (JsMap.set k v m) = String.eqb k0 k || JsMap.has k0 m.
Proof.
  unfold JsMap.has. destruct (String.eqb k0 k) eqn:E.
  - apply String.eqb_eq in E. subst. now rewrite JsMap.get_set_same.
  - rewrite JsMap.get_set_other; [reflexivity|].
    intros ->. rewrite String.eqb_refl in E. discriminate.
Qed.

Lemma update_worker_has (id id0 : string) (f : WorkerInfo -> WorkerInfo)
  (p : WorkerPool) :
  JsMap.has id0 (heap (update_worker id f p)) = JsMap.has id0 (heap p).
Proof.
  unfold update_worker. destruct (JsMap.get id (heap p)) eqn:E; [|reflexivity].
  cbn. rewrite has_set. destruct (String.eqb id0 id) eqn:E0; [|reflexivity].
  apply String.eqb_eq in E0. subst. unfold JsMap.has. now rewrite E.
Qed.

Lemma update_worker_rest (id : string) (f : WorkerInfo -> WorkerInfo)
  (p : WorkerPool) :
  availableWorkers (update_worker id f p) = availableWorkers p /\
  busyWorkers (update_worker id f p) = busyWorkers p /\
  workers (update_worker id f p) = workers p /\
  taskQueue (update_worker id f p) = taskQueue p /\
  isShuttingDown (update_worker id f p) = isShuttingDown p /\
  settled (update_worker id f p) = settled p /\
  terminated (update_worker id f p) = terminated p.
Proof.
  unfold update_worker. destruct (JsMap.get id (heap p)); repeat split.
Qed.

Lemma In_ids_del (id x : string) (l : list string) :
  In x (ids_del id l) -> In x l.
Proof. unfold ids_del. intros H. now apply filter_In in H. Qed.

Lemma In_ids_add_inv (id x : string) (l : list string) :
  In x (ids_add id l) -> x = id \/ In x l.
Proof.
  unfold ids_add. destruct (ids_mem id l); [now right|].
  intros H. apply in_app_or in H. destruct H as [H | [H | []]]; auto.
Qed.

Lemma covered_setIdleTimeout (id : string) (p : WorkerPool) :
  covered p -> covered (setIdleTimeout id p).
Proof.
  unfold covered, setIdleTimeout. intros H x.
  rewrite update_worker_has.
  destruct (update_worker_rest id (set_idleTimer (minWorkers p <? size (workers p))) p)
    as [-> _]. apply H.
Qed.

Lemma createWorker_invariant (now : Z) (type id : string) (p p' : WorkerPool) :
  createWorker now type p = inr (id, p') ->
  covered p ->
  covered p' /\ taskQueue p' = taskQueue p /\
  isShuttingDown p' = isShuttingDown p /\ settled p' = settled p /\
  JsMap.has id (heap p') = true.
Proof.
  unfold createWorker. destruct (isShuttingDown p) eqn:Es; [discriminate|].
  destruct (known_type type); [|discriminate]. cbn [negb].
  intros [= <- <-] Hc.
  set (q := with_maps _ _ _ _).
  assert (Hq : covered q).
  { intros x Hx. subst q. cbn in Hx |- *. rewrite has_set.
    apply In_ids_add_inv in Hx. destruct Hx as [-> | Hx].
    - now rewrite String.eqb_refl.
    - rewrite (Hc x Hx). apply orb_true_r. }
  split; [now apply covered_setIdleTimeout|].
  unfold setIdleTimeout.
  destruct (update_worker_rest (worker_name type (nextWorkerId p))
              (set_idleTimer (minWorkers q <? size (workers q))) q)
    as [_ [_ [_ [-> [-> [-> _]]]]]].
  rewrite update_worker_has. subst q. cbn. rewrite has_set, String.eqb_refl.
  repeat split; auto.
Qed.

Lemma assignTaskToWorker_invariant (now : Z) (id : string) (task : Task)
  (p : WorkerPool) :
  covered p ->
  covered (assignTaskToWorker now id task p) /\
  taskQueue (assignTaskToWorker now id task p) = taskQueue p /\
  isShuttingDown (assignTaskToWorker now id task p) = isShuttingDown p /\
  settled (assignTaskToWorker now id task p) = settled p.
Proof.
  intros Hc. unfold assignTaskToWorker. cbn.
  destruct (update_worker_rest id (take_task task now) p)
    as [Ea [_ [_ [Eq [Es [Est _]]]]]].
  repeat split; auto.
  intros x Hx. cbn in Hx |- *. rewrite update_worker_has. apply Hc.
  rewrite Ea in Hx. now apply In_ids_del in Hx.
Qed.

Lemma covered_with_queue (q : list Task) (p : WorkerPool) :
  covered p -> covered (with_queue q p).
Proof. intros H; exact H. Qed.

Lemma assignTask_invariant (now : Z) (p : WorkerPool) :
  covered p ->
  covered (assignTask now p) /\
  (taskQueue (assignTask now p) = taskQueue p \/
   taskQueue (assignTask now p) = tl (taskQueue p)) /\
  isShuttingDown (assignTask now p) = isShuttingDown p /\
  settled (assignTask now p) = settled p.
Proof.
  intros Hc. unfold assignTask.
  destruct (taskQueue p) as [|task rest] eqn:Eq;
    [rewrite Eq; repeat split; auto|].
  destruct (findAvailableWorker (task_type task) p) as [id|].
  - destruct (assignTaskToWorker_invariant now id task (with_queue rest p)
                (covered_with_queue rest p Hc)) as [H1 [H2 [H3 H4]]].
    rewrite H2, H3, H4. cbn. repeat split; auto.
  - destruct (size (workers p) <? maxWorkers p);
      [|rewrite Eq; repeat split; auto].
    destruct (createWorker now (task_type task) p) as [e|[id p1]] eqn:Ec;
      [rewrite Eq; repeat split; auto|].
    destruct (createWorker_invariant _ _ _ _ _ Ec Hc) as [H1 [H2 [H3 [H4 _]]]].
    destruct (assignTaskToWorker_invariant now id task
                (with_queue (tl (taskQueue p1)) p1)
                (covered_with_queue _ p1 H1)) as [G1 [G2 [G3 G4]]].
    rewrite G2, G3, G4. cbn. rewrite H2, H3, H4, Eq. cbn.
    repeat split; auto.
    rewrite H2, Eq in G1. exact G1.
Qed.

Lemma by_priority_tl (q : list Task) : by_priority q -> by_priority (tl q).
Proof.
  unfold by_priority. destruct q; simpl; [auto|]. intros H. now inversion H.
Qed.

Lemma invariant_assignTask (now : Z) (p : WorkerPool) :
  invariant p -> invariant (assignTask now p).
Proof.
  intros [Hc Hs]. destruct (assignTask_invariant now p Hc) as [H1 [H2 _]].
  split; [exact H1|]. destruct H2 as [-> | ->]; [exact Hs | now apply by_priority_tl].
Qed.

Lemma releaseWorker_invariant (now : Z) (id : string) (p : WorkerPool) :
  JsMap.has id (heap p) = true -> invariant p ->
  invariant (releaseWorker now id p) /\
  isShuttingDown (releaseWorker now id p) = isShuttingDown p /\
  settled (releaseWorker now id p) = settled p.
Proof.
  intros Hh [Hc Hs]. unfold releaseWorker.
  set (q := with_maps _ _ _ _).
  destruct (update_worker_rest id (release now) p)
    as [Ea [_ [_ [Eq [Es [Est _]]]]]].
  assert (Hq : covered q).
  { intros x Hx. subst q. cbn in Hx |- *. rewrite update_worker_has.
    apply In_ids_add_inv in Hx. destruct Hx as [-> | Hx]; [exact Hh|].
    apply Hc. now rewrite <- Ea. }
  unfold invariant, setIdleTimeout.
  destruct (update_worker_rest id
              (set_idleTimer (minWorkers q <? size (workers q))) q)
    as [_ [_ [_ [-> [-> [-> _]]]]]].
  split; [split|].
  - now apply covered_setIdleTimeout.
  - subst q. cbn. now rewrite Eq.
  - subst q. cbn. auto.
Qed.

Lemma current_task_has (id : string) (task : Task) (p : WorkerPool) :
  current_task id p = Some task -> JsMap.has id (heap p) = true.
Proof.
  unfold current_task, JsMap.has.
  destruct (JsMap.get id (heap p)); [reflexivity | discriminate].
Qed.

Lemma settle_invariant (now : Z) (id : string) (task : Task)
  (o : settlement) (p : WorkerPool) :
  JsMap.has id (heap p) = true -> invariant p ->
  let p' := assignTask now
              (with_settled (settled (releaseWorker now id p)
                             ++ [(task_id task, o)])
                            (releaseWorker now id p)) in
  invariant p' /\ isShuttingDown p' = isShuttingDown p.
Proof.
  intros Hh Hi p'.
  destruct (releaseWorker_invariant now id p Hh Hi) as [[Hc Hs] [Hsd _]].
  set (q := with_settled _ _) in p'.
  assert (Hq : invariant q) by (split; [exact Hc | exact Hs]).
  split; [now apply invariant_assignTask|].
  subst p'. destruct (assignTask_invariant now q (proj1 Hq)) as [_ [_ [-> _]]].
  subst q. cbn. exact Hsd.
Qed.

Lemma removeWorker_invariant (id : string) (p : WorkerPool) :
  invariant p ->
  invariant (removeWorker id p) /\
  isShuttingDown (removeWorker id p) = isShuttingDown p.
Proof.
  intros [Hc Hs]. unfold removeWorker.
  destruct (ids_mem id (workers p)); [|split; [split|]; auto].
  set (q := with_maps _ _ _ _).
  destruct (update_worker_rest id (set_idleTimer false) p)
    as [Ea [_ [_ [Eq [Es _]]]]].
  assert (Hq : invariant q /\ isShuttingDown q = isShuttingDown p).
  { subst q. split; [split|]; cbn; auto.
    - intros x Hx. cbn in Hx |- *. rewrite update_worker_has. apply Hc.
      rewrite <- Ea. now apply In_ids_del in Hx.
    - now rewrite Eq. }
  destruct (JsMap.get id (heap q)) as [wi|]; [|exact Hq].
  destruct (threadId wi =? 0); exact Hq.
Qed.

Lemma recreateWorker_invariant (now : Z) (type : string) (p : WorkerPool) :
  invariant p ->
  invariant (recreateWorker now type p) /\
  isShuttingDown (recreateWorker now type p) = isShuttingDown p.
Proof.
  intros [Hc Hs]. unfold recreateWorker.
  destruct (createWorker now type p) as [e|[id p1]] eqn:E;
    [split; [split|]; auto|].
  destruct (createWorker_invariant _ _ _ _ _ E Hc) as [H1 [H2 [H3 _]]].
  split; [split|]; auto. now rewrite H2.
Qed.

Lemma handle_invariant (now : Z) (e : event) (p : WorkerPool) :
  invariant p ->
  invariant (handle now e p) /\
  isShuttingDown (handle now e p) = isShuttingDown p.
Proof.
  intros Hi. destruct e as [task|id m d|id m msg|id msg|id code|id|]; cbn [handle].
  - unfold executeTask.
    assert (Hq : invariant (with_queue (enqueue task (taskQueue p)) p)).
    { split; [exact (proj1 Hi) | apply enqueue_sorted]. }
    split; [now apply invariant_assignTask|].
    now destruct (assignTask_invariant now _ (proj1 Hq)) as [_ [_ [-> _]]].
  - unfold handleTaskResult.
    destruct (current_task id p) as [task|] eqn:E; [|auto].
    destruct (String.eqb (task_id task) m); [|auto].
    apply (settle_invariant now id task (Resolved d) p); auto.
    now apply current_task_has with task.
  - unfold handleTaskError.
    destruct (current_task id p) as [task|] eqn:E; [|auto].
    destruct (String.eqb (task_id task) m); [|auto].
    apply (settle_invariant now id task (Rejected msg) p); auto.
    now apply current_task_has with task.
  - unfold handleWorkerError, failTask.
    destruct (current_task id p) as [task|] eqn:E.
    + destruct (settle_invariant now id task (Rejected msg) p
                  (current_task_has _ _ _ E) Hi) as [H1 H2].
      destruct (recreateWorker_invariant now (type_of id p) _ H1) as [G1 G2].
      split; [exact G1|]. rewrite G2. exact H2.
    + now apply recreateWorker_invariant.
  - unfold handleWorkerExit.
    destruct (removeWorker_invariant id p Hi) as [H1 H2].
    destruct (negb (code =? 0) && negb (isShuttingDown (removeWorker id p)));
      [|auto].
    destruct (recreateWorker_invariant now (type_of id p) _ H1) as [G1 G2].
    split; [exact G1|]. now rewrite G2.
  - unfold onIdleTimeout. destruct (JsMap.get id (heap p)) as [wi|]; [|auto].
    destruct (idleTimer wi && negb (busy wi) && (minWorkers p <? size (workers p)));
      [|auto].
    now apply removeWorker_invariant.
  - auto.
Qed.

Lemma reachable_invariant (p : WorkerPool) : reachable p -> invariant p.
Proof.
  induction 1 as [maxW minW | now type id p p' _ IH Hc | now e p _ IH | p _ IH].
  - split; [intros id [] | constructor].
  - destruct IH as [Hcov Hs].
    destruct (createWorker_invariant _ _ _ _ _ Hc Hcov) as [H1 [H2 _]].
    split; [exact H1 | now rewrite H2].
  - now apply handle_invariant.
  - exact IH.
Qed.

(** X16.  In every pool reached from a fresh one by creating workers,
    handling events and starting a shutdown, every idle worker has its
    record and the queue is in priority order: no task waits behind a
    task of lower priority. *)
Lemma reachable_well_formed (p : WorkerPool) :
  reachable p -> well_formed p = true.
Proof.
  intros H. destruct (reachable_invariant p H) as [Hc Hs].
  unfold well_formed. apply andb_true_intro. split.
  - apply forallb_forall. exact Hc.
  - now apply by_priorityb_spec.
Qed.

(** ** Shutdown *)

Fixpoint run (evs : list (Z * event)) (p : WorkerPool) : WorkerPool :=
  match evs with
  | [] => p
  | (now, e) :: evs' => run evs' (handle now e p)
  end.

Lemma update_worker_flag (id : string) (f : WorkerInfo -> WorkerInfo)
  (p : WorkerPool) :
  isShuttingDown (update_worker id f p) = isShuttingDown p.
Proof. apply update_worker_rest. Qed.

Lemma createWorker_flag (now : Z) (type id : string) (p p' : WorkerPool) :
  createWorker now type p = inr (id, p') ->
  isShuttingDown p' = isShuttingDown p.
Proof.
  unfold createWorker. destruct (isShuttingDown p) eqn:E; [discriminate|].
  destruct (known_type type); [|discriminate]. cbn [negb].
  intros [= <- <-]. unfold setIdleTimeout. rewrite update_worker_flag.
  exact E.
Qed.

Lemma assignTaskToWorker_flag (now : Z) (id : string) (task : Task)
  (p : WorkerPool) :
  isShuttingDown (assignTaskToWorker now id task p) = isShuttingDown p.
Proof. unfold assignTaskToWorker. cbn. apply update_worker_flag. Qed.

Lemma assignTask_flag (now : Z) (p : WorkerPool) :
  isShuttingDown (assignTask now p) = isShuttingDown p.
Proof.
  unfold assignTask. destruct (taskQueue p) as [|task rest]; [reflexivity|].
  destruct (findAvailableWorker (task_type task) p);
    [now rewrite assignTaskToWorker_flag|].
  destruct (size (workers p) <? maxWorkers p); [|reflexivity].
  destruct (createWorker now (task_type task) p) as [e|[id p1]] eqn:E;
    [reflexivity|].
  rewrite assignTaskToWorker_flag. cbn. exact (createWorker_flag _ _ _ _ _ E).
Qed.

Lemma releaseWorker_flag (now : Z) (id : string) (p : WorkerPool) :
  isShuttingDown (releaseWorker now id p) = isShuttingDown p.
Proof.
  unfold releaseWorker, setIdleTimeout. rewrite update_worker_flag. cbn.
  apply update_worker_flag.
Qed.

Lemma removeWorker_flag (id : string) (p : WorkerPool) :
  isShuttingDown (removeWorker id p) = isShuttingDown p.
Proof.
  unfold removeWorker. destruct (ids_mem id (workers p)); [|reflexivity].
  match goal with |- context [JsMap.get id (heap ?q)] =>
    destruct (JsMap.get id (heap q)) as [wi|] end;
    [destruct (threadId wi =? 0)|]; cbn; apply update_worker_flag.
Qed.

Lemma recreateWorker_flag (now : Z) (type : string) (p : WorkerPool) :
  isShuttingDown (recreateWorker now type p) = isShuttingDown p.
Proof.
  unfold recreateWorker.
  destruct (createWorker now type p) as [e|[id p1]] eqn:E; [reflexivity|].
  exact (createWorker_flag _ _ _ _ _ E).
Qed.

Lemma handle_flag (now : Z) (e : event) (p : WorkerPool) :
  isShuttingDown (handle now e p) = isShuttingDown p.
Proof.
  destruct e as [task|id m d|id m msg|id msg|id code|id|]; cbn [handle].
  - unfold executeTask. now rewrite assignTask_flag.
  - unfold handleTaskResult, completeTask.
    destruct (current_task id p) as [task|]; [|reflexivity].
    destruct (String.eqb (task_id task) m); [|reflexivity].
    rewrite assignTask_flag. cbn. apply releaseWorker_flag.
  - unfold handleTaskError, failTask.
    destruct (current_task id p) as [task|]; [|reflexivity].
    destruct (String.eqb (task_id task) m); [|reflexivity].
    rewrite assignTask_flag. cbn. apply releaseWorker_flag.
  - unfold handleWorkerError, failTask. rewrite recreateWorker_flag.
    destruct (current_task id p) as [task|]; [|reflexivity].
    rewrite assignTask_flag. cbn. apply releaseWorker_flag.
  - unfold handleWorkerExit.
    destruct (negb (code =? 0) && negb (isShuttingDown (removeWorker id p)));
      [rewrite recreateWorker_flag|]; apply removeWorker_flag.
  - unfold onIdleTimeout. destruct (JsMap.get id (heap p)) as [wi|]; [|reflexivity].
    destruct (idleTimer wi && negb (busy wi) && (minWorkers p <? size (workers p)));
      [apply removeWorker_flag | reflexivity].
  - reflexivity.
Qed.




(** ** Examples *)

(** A pool of at most four workers holding one idle worker of kind
    "processor", as [initialize] leaves it. *)
Definition idle_pool : WorkerPool :=
  match createWorker 0 "processor" (new_pool 4 1) with
  | inr (_, p) => p
  | inl _ => new_pool 4 1
  end.

Definition processor_task : Task :=
  mkTask "task-1" "processor" "filter-data" VNull 10 normal.




(** A pool of at most one worker: [task-1] runs on it, [task-3] waits. *)
Definition waiting_task : Task :=
  mkTask "task-3" "processor" "sort-data" VNull 20 normal.

Definition loaded_pool : WorkerPool :=
  executeTask 20 waiting_task (executeTask 10 processor_task (new_pool 1 1)).



(** ** What the handlers leave alone *)

Lemma update_worker_frame (id : string) (f : WorkerInfo -> WorkerInfo)
  (p : WorkerPool) :
  nextWorkerId (update_worker id f p) = nextWorkerId p /\
  posted (update_worker id f p) = posted p /\
  maxWorkers (update_worker id f p) = maxWorkers p /\
  minWorkers (update_worker id f p) = minWorkers p.
Proof.
  unfold update_worker. destruct (JsMap.get id (heap p)); repeat split.
Qed.

Lemma setIdleTimeout_frame (id : string) (p : WorkerPool) :
  workers (setIdleTimeout id p) = workers p /\
  availableWorkers (setIdleTimeout id p) = availableWorkers p /\
  taskQueue (setIdleTimeout id p) = taskQueue p /\
  settled (setIdleTimeout id p) = settled p /\
  posted (setIdleTimeout id p) = posted p /\
  nextWorkerId (setIdleTimeout id p) = nextWorkerId p /\
  minWorkers (setIdleTimeout id p) = minWorkers p.
Proof.
  unfold setIdleTimeout, update_worker.
  destruct (JsMap.get id (heap p)); repeat split.
Qed.

Lemma createWorker_frame (now : Z) (type id : string) (p p' : WorkerPool) :
  createWorker now type p = inr (id, p') ->
  isShuttingDown p = false /\
  id = worker_name type (nextWorkerId p) /\
  workers p' = ids_add id (workers p) /\
  nextWorkerId p' = nextWorkerId p + 1 /\
  taskQueue p' = taskQueue p /\
  settled p' = settled p /\
  posted p' = posted p.
Proof.
  unfold createWorker. destruct (isShuttingDown p); [discriminate|].
  destruct (known_type type); [|discriminate]. cbn [negb].
  intros [= <- <-].
  match goal with |- context [setIdleTimeout ?i ?q] =>
    destruct (setIdleTimeout_frame i q) as [-> [_ [-> [-> [-> [-> _]]]]]] end.
  repeat split.
Qed.

Lemma assignTaskToWorker_frame (now : Z) (id : string) (task : Task)
  (p : WorkerPool) :
  workers (assignTaskToWorker now id task p) = workers p /\
  nextWorkerId (assignTaskToWorker now id task p) = nextWorkerId p /\
  settled (assignTaskToWorker now id task p) = settled p /\
  minWorkers (assignTaskToWorker now id task p) = minWorkers p.
Proof.
  unfold assignTaskToWorker, update_worker.
  destruct (JsMap.get id (heap p)); repeat split.
Qed.

Lemma assignTask_settled (now : Z) (p : WorkerPool) :
  settled (assignTask now p) = settled p.
Proof.
  unfold assignTask. destruct (taskQueue p) as [|task rest]; [reflexivity|].
  destruct (findAvailableWorker (task_type task) p).
  - now destruct (assignTaskToWorker_frame now s task (with_queue rest p))
      as [_ [_ [-> _]]].
  - destruct (size (workers p) <? maxWorkers p); [|reflexivity].
    destruct (createWorker now (task_type task) p) as [e|[id p1]] eqn:E;
      [reflexivity|].
    destruct (createWorker_frame _ _ _ _ _ E) as [_ [_ [_ [_ [_ [Hs _]]]]]].
    now destruct (assignTaskToWorker_frame now id task
                    (with_queue (tl (taskQueue p1)) p1)) as [_ [_ [-> _]]].
Qed.

(** [assignTask] creates a worker only when no worker is idle and the
    pool is open. *)
Lemma assignTask_no_creation (now : Z) (p : WorkerPool) :
  isShuttingDown p = true \/ availableWorkers p <> [] ->
  workers (assignTask now p) = workers p /\
  nextWorkerId (assignTask now p) = nextWorkerId p.
Proof.
  intros H. unfold assignTask.
  destruct (taskQueue p) as [|task rest]; [now split|].
  destruct (findAvailableWorker (task_type task) p) as [id|] eqn:Ef.
  - destruct (assignTaskToWorker_frame now id task (with_queue rest p))
      as [-> [-> _]]. now split.
  - destruct (size (workers p) <? maxWorkers p); [|now split].
    destruct H as [H | H].
    + unfold createWorker. rewrite H. now split.
    + exfalso. unfold findAvailableWorker in Ef.
      destruct (find (has_type p (task_type task)) (availableWorkers p));
        [discriminate|].
      destruct (availableWorkers p); [now apply H | discriminate].
Qed.

Lemma releaseWorker_frame (now : Z) (id : string) (p : WorkerPool) :
  workers (releaseWorker now id p) = workers p /\
  nextWorkerId (releaseWorker now id p) = nextWorkerId p /\
  settled (releaseWorker now id p) = settled p /\
  availableWorkers (releaseWorker now id p) <> [] /\
  minWorkers (releaseWorker now id p) = minWorkers p.
Proof.
  unfold releaseWorker.
  match goal with |- context [setIdleTimeout ?i ?q] =>
    destruct (setIdleTimeout_frame i q) as [-> [-> [_ [-> [_ [-> ->]]]]]] end.
  cbn [workers availableWorkers nextWorkerId settled minWorkers with_maps].
  destruct (update_worker_rest id (release now) p)
    as [Ea [_ [-> [_ [_ [-> _]]]]]].
  destruct (update_worker_frame id (release now) p) as [-> [_ [_ ->]]].
  repeat split. intros E.
  pose proof (In_ids_add id (availableWorkers (update_worker id (release now) p)))
    as Hin.
  rewrite E in Hin. destruct Hin.
Qed.

(** Settling a task (the common part of [completeTask] and [failTask])
    adds one settlement and creates no worker. *)
Lemma settle_frame (now : Z) (id : string) (tid : string) (o : settlement)
  (p : WorkerPool) :
  let p' := assignTask now
              (with_settled (settled (releaseWorker now id p) ++ [(tid, o)])
                            (releaseWorker now id p)) in
  settled p' = settled p ++ [(tid, o)] /\
  workers p' = workers p /\
  nextWorkerId p' = nextWorkerId p.
Proof.
  cbv zeta.
  destruct (releaseWorker_frame now id p) as [Hw [Hn [Hs [Ha _]]]].
  rewrite assignTask_settled. cbn [settled with_settled]. rewrite Hs.
  split; [reflexivity|].
  match goal with |- context [assignTask now ?q] =>
    destruct (assignTask_no_creation now q) as [-> ->];
      [right; exact Ha|] end.
  cbn [workers nextWorkerId with_settled]. now split.
Qed.

Lemma ids_del_absent (id : string) (l : list string) :
  ids_mem id l = false -> ids_del id l = l.
Proof.
  unfold ids_mem, ids_del. induction l as [|x l IH]; cbn; [reflexivity|].
  destruct (String.eqb id x); cbn; [discriminate|]. intros H. now rewrite IH.
Qed.

Lemma removeWorker_frame (id : string) (p : WorkerPool) :
  workers (removeWorker id p) = ids_del id (workers p) /\
  nextWorkerId (removeWorker id p) = nextWorkerId p /\
  taskQueue (removeWorker id p) = taskQueue p /\
  settled (removeWorker id p) = settled p /\
  posted (removeWorker id p) = posted p /\
  minWorkers (removeWorker id p) = minWorkers p.
Proof.
  unfold removeWorker. destruct (ids_mem id (workers p)) eqn:Em.
  - destruct (update_worker_rest id (set_idleTimer false) p)
      as [_ [_ [Ew [Eq [_ [Es _]]]]]].
    destruct (update_worker_frame id (set_idleTimer false) p)
      as [En [Ep [_ Emin]]].
    match goal with |- context [JsMap.get id (heap ?q)] =>
      destruct (JsMap.get id (heap q)) as [wi|] end;
      [destruct (threadId wi =? 0)|]; cbn; rewrite Ew, En, Eq, Es, Ep, Emin;
      repeat split.
  - rewrite (ids_del_absent _ _ Em). repeat split.
Qed.

Lemma recreateWorker_frame (now : Z) (type : string) (p : WorkerPool) :
  taskQueue (recreateWorker now type p) = taskQueue p /\
  settled (recreateWorker now type p) = settled p /\
  posted (recreateWorker now type p) = posted p /\
  (isShuttingDown p = true -> recreateWorker now type p = p).
Proof.
  unfold recreateWorker.
  destruct (createWorker now type p) as [e|[id p1]] eqn:E; [repeat split|].
  destruct (createWorker_frame _ _ _ _ _ E) as [Hf [_ [_ [_ [-> [-> ->]]]]]].
  repeat split. intros H. congruence.
Qed.

(** X11.  Once the pool is shutting down it never grows: whatever
    events follow, no worker is created (the id counter stands still),
    every worker of the pool was already there, and the flag stays
    set. *)
Theorem closing_pool_never_grows (evs : list (Z * event)) (p : WorkerPool) :
  isShuttingDown p = true ->
  nextWorkerId (run evs p) = nextWorkerId p /\
  incl (workers (run evs p)) (workers p) /\
  isShuttingDown (run evs p) = true.
Proof.
  revert p. induction evs as [|[now e] evs IH]; intros p Hflag; cbn [run].
  - split; [reflexivity|]. split; [apply incl_refl | exact Hflag].
  - assert (Hstep : nextWorkerId (handle now e p) = nextWorkerId p /\
                    incl (workers (handle now e p)) (workers p)).
    { destruct e as [task|id m d|id m msg|id msg|id code|id|]; cbn [handle].
      - unfold executeTask.
        destruct (assignTask_no_creation now
                    (with_queue (enqueue task (taskQueue p)) p))
          as [-> ->]; [left; exact Hflag|].
        split; [reflexivity | apply incl_refl].
      - unfold handleTaskResult, completeTask.
        destruct (current_task id p) as [task|];
          [|split; [reflexivity | apply incl_refl]].
        destruct (String.eqb (task_id task) m);
          [|split; [reflexivity | apply incl_refl]].
        destruct (settle_frame now id (task_id task) (Resolved d) p)
          as [_ [-> ->]]. split; [reflexivity | apply incl_refl].
      - unfold handleTaskError, failTask.
        destruct (current_task id p) as [task|];
          [|split; [reflexivity | apply incl_refl]].
        destruct (String.eqb (task_id task) m);
          [|split; [reflexivity | apply incl_refl]].
        destruct (settle_frame now id (task_id task) (Rejected msg) p)
          as [_ [-> ->]]. split; [reflexivity | apply incl_refl].
      - unfold handleWorkerError.
        set (p1 := match current_task id p with
                   | Some task => failTask now id task msg p
                   | None => p
                   end).
        assert (H1 : isShuttingDown p1 = true /\
                     workers p1 = workers p /\
                     nextWorkerId p1 = nextWorkerId p).
        { subst p1. destruct (current_task id p) as [task|]; [|now split].
          unfold failTask.
          destruct (settle_frame now id (task_id task) (Rejected msg) p)
            as [_ [-> ->]].
          rewrite assignTask_flag. cbn [isShuttingDown with_settled].
          now rewrite releaseWorker_flag. }
        destruct H1 as [Hf1 [Hw1 Hn1]].
        destruct (recreateWorker_frame now (type_of id p) p1) as [_ [_ [_ ->]]];
          [|exact Hf1].
        rewrite Hw1, Hn1. split; [reflexivity | apply incl_refl].
      - unfold handleWorkerExit. rewrite removeWorker_flag, Hflag.
        rewrite andb_false_r.
        destruct (removeWorker_frame id p) as [-> [-> _]].
        split; [reflexivity|]. intros x. apply In_ids_del.
      - unfold onIdleTimeout.
        destruct (JsMap.get id (heap p)) as [wi|];
          [|split; [reflexivity | apply incl_refl]].
        destruct (idleTimer wi && negb (busy wi)
                  && (minWorkers p <? size (workers p)));
          [|split; [reflexivity | apply incl_refl]].
        destruct (removeWorker_frame id p) as [-> [-> _]].
        split; [reflexivity|]. intros x. apply In_ids_del.
      - split; [reflexivity | apply incl_refl]. }
    destruct Hstep as [Hn Hw].
    destruct (IH (handle now e p)) as [IH1 [IH2 IH3]];
      [now rewrite handle_flag|].
    split; [now rewrite IH1|]. split; [|exact IH3].
    intros x Hx. apply Hw, IH2, Hx.
Qed.

(** X12.  A result message for the task a worker is running resolves
    that task's promise, and only it, with the data of the message, and
    creates no worker; a result or error message with any other id is
    ignored. *)
Theorem result_settles_once (now : Z) (id : string) (task : Task)
  (d : jsval) (p : WorkerPool) :
  current_task id p = Some task ->
  settled (handleTaskResult now id (task_id task) d p)
    = settled p ++ [(task_id task, Resolved d)] /\
  workers (handleTaskResult now id (task_id task) d p) = workers p /\
  (forall m msg, m <> task_id task ->
     handleTaskResult now id m d p = p /\
     handleTaskError now id m msg p = p).
Proof.
  intros Hcur. unfold handleTaskResult, handleTaskError. rewrite Hcur.
  rewrite String.eqb_refl. unfold completeTask.
  destruct (settle_frame now id (task_id task) (Resolved d) p)
    as [-> [-> _]].
  split; [reflexivity|]. split; [reflexivity|].
  intros m msg Hne.
  destruct (String.eqb (task_id task) m) eqn:E; [|now split].
  apply String.eqb_eq in E. now subst.
Qed.

(** X13.  The exit of a worker settles nothing: whatever the worker was
    running, no promise is resolved or rejected, nothing is put back on
    the queue and nothing is posted. *)
Theorem worker_exit_settles_nothing (now : Z) (id : string) (code : Z)
  (p : WorkerPool) :
  settled (handleWorkerExit now id code p) = settled p /\
  taskQueue (handleWorkerExit now id code p) = taskQueue p /\
  posted (handleWorkerExit now id code p) = posted p.
Proof.
  unfold handleWorkerExit.
  destruct (removeWorker_frame id p) as [_ [_ [Hq [Hs [Hp _]]]]].
  destruct (negb (code =? 0) && negb (isShuttingDown (removeWorker id p)));
    [|now repeat split].
  destruct (recreateWorker_frame now (type_of id p) (removeWorker id p))
    as [-> [-> [-> _]]].
  now repeat split.
Qed.

Lemma ids_del_size (id : string) (l : list string) :
  NoDup l -> size l - 1 <= size (ids_del id l).
Proof.
  induction 1 as [|x l Hx Hnd IH]; unfold size, ids_del in *;
    cbn [filter List.length].
  - lia.
  - destruct (String.eqb id x) eqn:E; cbn [negb List.length].
    + apply String.eqb_eq in E. subst x.
      fold (ids_del id l). rewrite (ids_del_absent id l).
      * lia.
      * unfold ids_mem. destruct (existsb (String.eqb id) l) eqn:Ee;
          [|reflexivity].
        apply existsb_exists in Ee. destruct Ee as [y [Hy Ey]].
        apply String.eqb_eq in Ey. now subst.
    + lia.
Qed.

(** X14.  The idle timer never removes a busy worker, and never takes
    the pool below [minWorkers]. *)
Theorem idle_timeout_respects_minimum (id : string) (p : WorkerPool) :
  Cache.nodupb (workers p) = true ->
  minWorkers p <= size (workers p) ->
  minWorkers p <= size (workers (onIdleTimeout id p)) /\
  (forall wi, JsMap.get id (heap p) = Some wi -> busy wi = true ->
              onIdleTimeout id p = p).
Proof.
  intros Hnd Hmin. apply Cache.nodupb_NoDup in Hnd. unfold onIdleTimeout.
  split.
  - destruct (JsMap.get id (heap p)) as [wi|]; [|exact Hmin].
    destruct (idleTimer wi && negb (busy wi)) ; cbn [andb]; [|exact Hmin].
    destruct (Z.ltb_spec (minWorkers p) (size (workers p))); [|exact Hmin].
    destruct (removeWorker_frame id p) as [-> _].
    pose proof (ids_del_size id (workers p) Hnd). lia.
  - intros wi -> Hb. rewrite Hb, andb_false_r. reflexivity.
Qed.

(** X15.  The error of a worker adds a worker to an open pool without
    looking at [maxWorkers], and leaves the failed worker in the pool:
    the workers afterwards are those before and a new one of the same
    kind. *)
Theorem worker_error_grows_pool (now : Z) (id msg : string) (p : WorkerPool) :
  isShuttingDown p = false ->
  known_type (type_of id p) = true ->
  ids_mem (worker_name (type_of id p) (nextWorkerId p)) (workers p) = false ->
  workers (handleWorkerError now id msg p)
  = workers p ++ [worker_name (type_of id p) (nextWorkerId p)].
Proof.
  intros Hflag Hknown Hfresh. unfold handleWorkerError.
  set (p1 := match current_task id p with
             | Some task => failTask now id task msg p
             | None => p
             end).
  assert (H1 : isShuttingDown p1 = false /\ workers p1 = workers p /\
               nextWorkerId p1 = nextWorkerId p).
  { subst p1. destruct (current_task id p) as [task|]; [|now split].
    unfold failTask.
    destruct (settle_frame now id (task_id task) (Rejected msg) p)
      as [_ [-> ->]].
    rewrite assignTask_flag. cbn [isShuttingDown with_settled].
    now rewrite releaseWorker_flag. }
  destruct H1 as [Hf1 [Hw1 Hn1]].
  unfold recreateWorker.
  destruct (createWorker now (type_of id p) p1) as [e|[id' p2]] eqn:E.
  - exfalso. unfold createWorker in E. rewrite Hf1, Hknown in E. discriminate.
  - destruct (createWorker_frame _ _ _ _ _ E) as [_ [-> [-> _]]].
    rewrite Hw1, Hn1. unfold ids_add. now rewrite Hfresh.
Qed.

(** ** Examples for the handlers *)

Lemma reachable_well_formed_witness :
  reachable (handle 20 (Submit waiting_task)
               (handle 10 (Submit processor_task) (new_pool 1 1))) /\
  well_formed (handle 20 (Submit waiting_task)
                 (handle 10 (Submit processor_task) (new_pool 1 1))) = true.
Proof.
  assert (H : reachable (handle 20 (Submit waiting_task)
                           (handle 10 (Submit processor_task) (new_pool 1 1)))).
  { apply reach_handle, reach_handle, reach_new. }
  split; [exact H | exact (reachable_well_formed _ H)].
Defined.

Lemma closing_pool_never_grows_witness :
  isShuttingDown (with_isShuttingDown true loaded_pool) = true /\
  nextWorkerId (run [(30, WorkerError "processor-1" "boom");
                     (40, WorkerExit "processor-1" 1)]
                    (with_isShuttingDown true loaded_pool))
  = nextWorkerId (with_isShuttingDown true loaded_pool).
Proof.
  split; [reflexivity|].
  apply (closing_pool_never_grows
           [(30, WorkerError "processor-1" "boom");
            (40, WorkerExit "processor-1" 1)]
           (with_isShuttingDown true loaded_pool)).
  reflexivity.
Defined.

Lemma result_settles_once_witness :
  current_task "processor-1" loaded_pool = Some processor_task /\
  settled (handleTaskResult 30 "processor-1" (task_id processor_task)
             (VStr "done") loaded_pool)
  = settled loaded_pool ++ [(task_id processor_task, Resolved (VStr "done"))].
Proof.
  split; [vm_compute; reflexivity|].
  apply (result_settles_once 30 "processor-1" processor_task (VStr "done")
           loaded_pool).
  vm_compute; reflexivity.
Defined.

Lemma idle_timeout_respects_minimum_witness :
  Cache.nodupb (workers idle_pool) = true /\
  minWorkers idle_pool <= size (workers idle_pool) /\
  minWorkers idle_pool <= size (workers (onIdleTimeout "processor-1" idle_pool)).
Proof.
  split; [vm_compute; reflexivity|]. split; [vm_compute; discriminate|].
  apply (idle_timeout_respects_minimum "processor-1" idle_pool).
  - vm_compute; reflexivity.
  - vm_compute; discriminate.
Defined.

Lemma worker_error_grows_pool_witness :
  isShuttingDown loaded_pool = false /\
  known_type (type_of "processor-1" loaded_pool) = true /\
  ids_mem (worker_name (type_of "processor-1" loaded_pool)
             (nextWorkerId loaded_pool)) (workers loaded_pool) = false /\
  maxWorkers loaded_pool = 1 /\
  workers (handleWorkerError 30 "processor-1" "boom" loaded_pool)
  = ["processor-1"; "processor-2"].
Proof.
  split; [reflexivity|]. split; [vm_compute; reflexivity|].
  split; [vm_compute; reflexivity|]. split; [reflexivity|].
  apply (worker_error_grows_pool 30 "processor-1" "boom" loaded_pool).
  - reflexivity.
  - vm_compute; reflexivity.
  - vm_compute; reflexivity.
Defined.

End Pool.

(* ================================================================== *)
(** * Data operations ([DataProcessorWorker], src/workers/cacheWorker.js) *)
(* ================================================================== *)

Module Processor.

(** A row is an object from column names to cell values. *)
Definition Row : Type := JsMap.t jsval.

(** One filter condition [{column, operator, value}]. *)
Record Condition : Type := mkCondition {
  column : string;
  operator : string;
  value : jsval
}.

(** One sort key [{column, direction}]; an absent direction is ['asc']. *)
Record SortColumn : Type := mkSortColumn {
  sort_column : string;
  direction : option string
}.

(** One aggregation [{column, function, alias}]. *)
Record Aggregation : Type := mkAggregation {
  agg_column : string;
  agg_function : string;
  alias : option string
}.

(** The operator handed to [compareValues]. *)
Inductive relop : Type := OpEq | OpNe | OpGt | OpGe | OpLt | OpLe.

Definition Qtrunc (q : Q) : Z := Z.quot (Qnum q) (Zpos (Qden q)).

(** TimeClip: a time value is an integer of magnitude at most 8.64e15. *)
Definition TimeClip (n : number) : number :=
  match n with
  | Fin q =>
      if Z.abs (Qtrunc q) <=? 8640000000000000
      then num_of_Z (Qtrunc q) else NaN
  | _ => NaN
  end.

(** Division of a sum by a positive count. *)
Definition num_div_count (a : number) (n : nat) : number :=
  match a with
  | Fin q => Fin (Qdiv q (inject_Z (Z.of_nat n)))
  | _ => a
  end.

Section Runtime.

(** [Number(s)] on a string. *)
Variable StringToNumber : string -> number.
(** [Number.prototype.toString]. *)
Variable NumberToString : number -> string.
(** The time value of [new Date(s)] for a string; NaN for an invalid
    date. *)
Variable Date_parse : string -> number.
(** [a.localeCompare(b)]. *)
Variable localeCompare : string -> string -> number.
Variable toLowerCase : string -> string.
(** [new RegExp(pattern, 'i').test(s)]; [None] when the constructor
    throws. *)
Variable regex_test : jsval -> string -> option bool.

(** [Number(v)]. *)
Definition ToNumber (v : jsval) : number :=
  match v with
  | VUndefined => NaN
  | VNull => num_of_Z 0
  | VBool true => num_of_Z 1
  | VBool false => num_of_Z 0
  | VNum n => n
  | VStr s => StringToNumber s
  | VArr _ => StringToNumber (ToString NumberToString v)
  | VObj _ => NaN
  end.

(** [new Date(v).getTime()]. *)
Definition date_time (v : jsval) : number :=
  match v with
  | VUndefined => NaN
  | VNull => num_of_Z 0
  | VBool true => num_of_Z 1
  | VBool false => num_of_Z 0
  | VNum n => TimeClip n
  | VStr s => Date_parse s
  | VArr _ | VObj _ => Date_parse (ToString NumberToString v)
  end.

(** [String(v || '')]. *)
Definition string_or_empty (v : jsval) : string :=
  if truthy v then ToString NumberToString v else EmptyString.

Definition num_rel (op : relop) (a b : number) : bool :=
  match op with
  | OpEq => num_eqb a b
  | OpNe => negb (num_eqb a b)
  | OpGt => num_ltb b a
  | OpGe => num_geb a b
  | OpLt => num_ltb a b
  | OpLe => num_leb a b
  end.

Definition str_rel (op : relop) (a b : string) : bool :=
  match op with
  | OpEq => String.eqb a b
  | OpNe => negb (String.eqb a b)
  | OpGt => str_ltb b a
  | OpGe => negb (str_ltb a b)
  | OpLt => str_ltb a b
  | OpLe => negb (str_ltb b a)
  end.

(** [compareValues]: as numbers if both convert, else as dates if both
    are valid dates, else as strings. *)
Definition compareValues (a b : jsval) (op : relop) : bool :=
  let numA := ToNumber a in
  let numB := ToNumber b in
  if negb (isNaN numA) && negb (isNaN numB) then num_rel op numA numB
  else
    let dateA := date_time a in
    let dateB := date_time b in
    if negb (isNaN dateA) && negb (isNaN dateB) then num_rel op dateA dateB
    else str_rel op (string_or_empty a) (string_or_empty b).

Definition is_op (op name : string) : bool := String.eqb op name.

(** The body of the callback of [conditions.every] in
    [evaluateConditions]; the result is read as a boolean. *)
Definition evaluateCondition (row : Row) (c : Condition) : bool :=
  let cellValue := prop row (column c) in
  let v := value c in
  let op := operator c in
  if is_op op "equals" then compareValues cellValue v OpEq
  else if is_op op "not_equals" then compareValues cellValue v OpNe
  else if is_op op "greater_than" then compareValues cellValue v OpGt
  else if is_op op "greater_than_or_equal" then compareValues cellValue v OpGe
  else if is_op op "less_than" then compareValues cellValue v OpLt
  else if is_op op "less_than_or_equal" then compareValues cellValue v OpLe
  else if is_op op "contains" then
    str_includes (toLowerCase (string_or_empty cellValue))
                 (toLowerCase (string_or_empty v))
  else if is_op op "not_contains" then
    negb (str_includes (toLowerCase (string_or_empty cellValue))
                       (toLowerCase (string_or_empty v)))
  else if is_op op "starts_with" then
    str_startsWith (toLowerCase (string_or_empty cellValue))
                   (toLowerCase (string_or_empty v))
  else if is_op op "ends_with" then
    str_endsWith (toLowerCase (string_or_empty cellValue))
                 (toLowerCase (string_or_empty v))
  else if is_op op "is_empty" then
    negb (truthy cellValue) || strict_eq cellValue (VStr EmptyString)
    || strict_eq cellValue VNull || strict_eq cellValue VUndefined
  else if is_op op "is_not_empty" then
    truthy cellValue && negb (strict_eq cellValue (VStr EmptyString))
    && negb (strict_eq cellValue VNull)
    && negb (strict_eq cellValue VUndefined)
  else if is_op op "in_list" then
    match v with
    | VArr l => existsb (fun x => same_value_zero x cellValue) l
    | _ => false
    end
  else if is_op op "not_in_list" then
    match v with
    | VArr l => negb (existsb (fun x => same_value_zero x cellValue) l)
    | _ => false
    end
  else if is_op op "between" then
    match v with
    | VArr [lo; hi] =>
        let numValue := ToNumber cellValue in
        num_geb numValue (ToNumber lo) && num_leb numValue (ToNumber hi)
    | _ => false
    end
  else if is_op op "regex" then
    match regex_test v (string_or_empty cellValue) with
    | Some b => b
    | None => false
    end
  else true.




(** [compareForSort]. *)
Definition compareForSort (a b : jsval) : number :=
  if is_nullish a then (if is_nullish b then num_of_Z 0 else num_of_Z (-1))
  else if is_nullish b then num_of_Z 1
  else
    let numA := ToNumber a in
    let numB := ToNumber b in
    if negb (isNaN numA) && negb (isNaN numB) then num_sub numA numB
    else
      let dateA := date_time a in
      let dateB := date_time b in
      if negb (isNaN dateA) && negb (isNaN dateB) then num_sub dateA dateB
      else localeCompare (ToString NumberToString a) (ToString NumberToString b).

Definition is_desc (c : SortColumn) : bool :=
  match direction c with
  | Some d => String.eqb d "desc"
  | None => false
  end.

(** The comparator that [sortData] gives to [sort]: the first key whose
    comparison is not [0] decides, negated for a descending key. *)
Fixpoint row_compare (sortColumns : list SortColumn) (a b : Row) : number :=
  match sortColumns with
  | [] => num_of_Z 0
  | c :: rest =>
      let comparison :=
        compareForSort (prop a (sort_column c)) (prop b (sort_column c)) in
      if negb (num_eqb comparison (num_of_Z 0))
      then (if is_desc c then num_neg comparison else comparison)
      else row_compare rest a b
  end.

(** [sortData]: a sorted copy of the dataset. *)
Definition sortData (dataset : list Row) (sortColumns : list SortColumn)
  : list Row :=
  array_sort (row_compare sortColumns) dataset.



(** [initializeAggregation]. *)
Definition initializeAggregation (func : string) : jsval :=
  if is_op func "sum" || is_op func "count" then VNum (num_of_Z 0)
  else if is_op func "min" then VNum PInf
  else if is_op func "max" then VNum NInf
  else if is_op func "avg" then VNum (num_of_Z 0)
  else VNull.


(** [agg.alias || `${agg.function}_${agg.column}`]. *)
Definition alias_of (agg : Aggregation) : string :=
  match alias agg with
  | Some a => if String.eqb a EmptyString
              then agg_function agg ++ "_" ++ agg_column agg else a
  | None => agg_function agg ++ "_" ++ agg_column agg
  end.

(** One entry of the [groups] map. *)
Record Group : Type := mkGroup {
  data : Row;
  count : Z;
  values : JsMap.t (list jsval)
}.

(** The key of the group of a row: the values of the [groupBy] columns
    joined with ["|"], or ["all"] without [groupBy] columns. *)
Definition groupKey (groupBy : list string) (row : Row) : string :=
  match groupBy with
  | [] => "all"
  | _ => array_join NumberToString "|" (map (prop row) groupBy)
  end.

(** The group created for the first row with a new key. *)
Definition new_group (groupBy : list string) (aggregations : list Aggregation)
  (row : Row) : Group :=
  let groupData :=
    fold_left (fun d col => JsMap.set col (prop row col) d) groupBy [] in
  let groupData :=
    fold_left (fun d agg =>
                 JsMap.set (alias_of agg)
                           (initializeAggregation (agg_function agg)) d)
              aggregations groupData in
  mkGroup groupData 0 [].








(** ** Filtering *)



(** ** Sorting *)

(** The comparison of two key values as the specification words it:
    numbers if both convert to numbers, else dates if both are valid
    dates, else strings under the locale's collation. *)
Definition spec_compareForSort (a b : jsval) : number :=
  let numA := ToNumber a in
  let numB := ToNumber b in
  if negb (isNaN numA) && negb (isNaN numB) then num_sub numA numB
  else
    let dateA := date_time a in
    let dateB := date_time b in
    if negb (isNaN dateA) && negb (isNaN dateB) then num_sub dateA dateB
    else localeCompare (ToString NumberToString a) (ToString NumberToString b).

Fixpoint spec_row_compare (sortColumns : list SortColumn) (a b : Row)
  : number :=
  match sortColumns with
  | [] => num_of_Z 0
  | c :: rest =>
      let comparison :=
        spec_compareForSort (prop a (sort_column c)) (prop b (sort_column c)) in
      if negb (num_eqb comparison (num_of_Z 0))
      then (if is_desc c then num_neg comparison else comparison)
      else spec_row_compare rest a b
  end.

(** All sort keys of two rows compare equal. *)
Definition keys_equal (sortColumns : list SortColumn) (a b : Row) : bool :=
  forallb (fun c => num_eqb (compareForSort (prop a (sort_column c))
                                            (prop b (sort_column c)))
                            (num_of_Z 0))
          sortColumns.

Lemma num_sign_zero (n : number) :
  num_eqb n (num_of_Z 0) = true -> num_sign n = 0.
Proof.
  destruct n as [| | |q]; cbn; try discriminate.
  intros H. apply Qeq_bool_iff in H.
  destruct (Qcompare_spec q 0) as [E | L | G]; [reflexivity| |].
  - rewrite H in L. now apply Qlt_irrefl in L.
  - rewrite H in G. now apply Qlt_irrefl in G.
Qed.

Lemma keys_equal_tie (sortColumns : list SortColumn) (a b : Row) :
  keys_equal sortColumns a b = true ->
  SortCompare (row_compare sortColumns) a b = 0.
Proof.
  unfold SortCompare, keys_equal.
  induction sortColumns as [|c rest IH]; cbn; [reflexivity|].
  intros H. apply andb_prop in H. destruct H as [H1 H2].
  rewrite H1. cbn. now apply IH.
Qed.

Lemma filter_sub (A : Type) (f g : A -> bool) (l : list A) :
  (forall x, f x = true -> g x = true) ->
  filter f (filter g l) = filter f l.
Proof.
  intros H. induction l as [|x l IH]; cbn; [reflexivity|].
  destruct (g x) eqn:Eg; cbn.
  - now rewrite IH.
  - destruct (f x) eqn:Ef; [|exact IH].
    rewrite (H x Ef) in Eg. discriminate.
Qed.

(** C6 (amended).  [sortData] returns a permutation of the dataset.  A
    key value that is [null] or [undefined] comes before every other
    value and ties with another such value; two other values are
    compared as the specification says (numbers, else dates, else
    strings).  The keys are tried from left to right, a descending key
    negating its comparison.  When this comparator orders the rows of the
    dataset consistently, the result is sorted by it and the sort is
    stable: the rows that tie with a given row, in particular the rows
    whose keys all compare equal to its keys, come out in the order they
    came in. *)
Theorem sortData_spec (dataset : list Row) (sortColumns : list SortColumn) :
  consistentb (row_compare sortColumns) dataset = true ->
  Permutation dataset (sortData dataset sortColumns) /\
  StronglySorted
    (fun a b => SortCompare (row_compare sortColumns) a b <= 0)
    (sortData dataset sortColumns) /\
  (forall r, In r dataset ->
     ties_of (row_compare sortColumns) r (sortData dataset sortColumns)
     = ties_of (row_compare sortColumns) r dataset) /\
  (forall r, In r dataset ->
     filter (keys_equal sortColumns r) (sortData dataset sortColumns)
     = filter (keys_equal sortColumns r) dataset) /\
  (forall a b, is_nullish a = true ->
     compareForSort a b
     = if is_nullish b then num_of_Z 0 else num_of_Z (-1)) /\
  (forall a b, is_nullish a = false -> is_nullish b = true ->
     compareForSort a b = num_of_Z 1) /\
  (forall a b, is_nullish a = false -> is_nullish b = false ->
     compareForSort a b = spec_compareForSort a b) /\
  (forall c rest a b,
     let k := compareForSort (prop a (sort_column c)) (prop b (sort_column c)) in
     row_compare (c :: rest) a b =
     if num_eqb k (num_of_Z 0) then row_compare rest a b
     else if is_desc c then num_neg k else k).
Proof.
  intros Hc. apply consistentb_sound in Hc. unfold sortData.
  split; [apply array_sort_perm|]. split; [now apply array_sort_sorted|].
  assert (Hst : forall r, In r dataset ->
            ties_of (row_compare sortColumns) r
              (array_sort (row_compare sortColumns) dataset)
            = ties_of (row_compare sortColumns) r dataset)
    by (intros r Hr; now apply array_sort_stable).
  split; [exact Hst|]. split.
  { intros r Hr.
    assert (Hsub : forall x, keys_equal sortColumns r x = true ->
              (SortCompare (row_compare sortColumns) r x =? 0) = true).
    { intros x Hx. apply Z.eqb_eq. now apply keys_equal_tie. }
    rewrite <- (filter_sub _ _ _ (array_sort (row_compare sortColumns) dataset) Hsub).
    rewrite <- (filter_sub _ _ _ dataset Hsub).
    f_equal. exact (Hst r Hr). }
  split; [intros a b Ha; unfold compareForSort; now rewrite Ha|].
  split; [intros a b Ha Hb; unfold compareForSort; now rewrite Ha, Hb|].
  split; [intros a b Ha Hb; unfold compareForSort, spec_compareForSort;
          now rewrite Ha, Hb|].
  intros c rest a b. cbn [row_compare].
  now destruct (num_eqb _ (num_of_Z 0)).
Qed.

(** ** Aggregation *)















Lemma new_group_count (groupBy : list string) (aggregations : list Aggregation)
  (row : Row) : count (new_group groupBy aggregations row) = 0.
Proof. reflexivity. Qed.




End Runtime.

(** ** Examples with the stand-in runtime *)

Definition sortR : list Row -> list SortColumn -> list Row :=
  sortData Ref.StringToNumber Ref.NumberToString Ref.Date_parse
           Ref.localeCompare.

Definition row_compareR : list SortColumn -> Row -> Row -> number :=
  row_compare Ref.StringToNumber Ref.NumberToString Ref.Date_parse
              Ref.localeCompare.

Definition keys_equalR : list SortColumn -> Row -> Row -> bool :=
  keys_equal Ref.StringToNumber Ref.NumberToString Ref.Date_parse
             Ref.localeCompare.

Definition int (z : Z) : jsval := VNum (num_of_Z z).

(** The rows [{a:1,b:2}] and [{a:1,b:1}], sorted by [a] ascending. *)
Definition two_rows : list Row :=
  [[("a", int 1); ("b", int 2)]; [("a", int 1); ("b", int 1)]].

Definition by_a : list SortColumn := [mkSortColumn "a" (Some "asc")].

Lemma sortData_spec_witness :
  consistentb (row_compareR by_a) two_rows = true /\
  sortR two_rows by_a = two_rows /\
  filter (keys_equalR by_a [("a", int 1); ("b", int 2)]) (sortR two_rows by_a)
  = two_rows.
Proof.
  assert (Hc : consistentb (row_compareR by_a) two_rows = true)
    by (vm_compute; reflexivity).
  split; [exact Hc|]. split; [vm_compute; reflexivity|].
  destruct (sortData_spec Ref.StringToNumber Ref.NumberToString Ref.Date_parse
              Ref.localeCompare two_rows by_a Hc) as [_ [_ [_ [Hst _]]]].
  unfold sortR, keys_equalR. rewrite Hst; [vm_compute; reflexivity|].
  now left.
Defined.

(** C6 as stated fails on missing values.  By the rule of the claim the
    values [null] and [-5] both convert to numbers (0 and -5) and are
    compared as numbers, which puts [-5] first; [compareForSort] puts
    [null] first.  Sorting [{a:-5}], [{a:null}] by [a] ascending swaps
    the two rows, where the rule of the claim keeps them in place. *)
Lemma null_sorts_first :
  let rows : list Row := [[("a", int (-5))]; [("a", VNull)]] in
  num_sign (spec_compareForSort Ref.StringToNumber Ref.NumberToString
              Ref.Date_parse Ref.localeCompare VNull (int (-5))) = 1 /\
  num_sign (compareForSort Ref.StringToNumber Ref.NumberToString
              Ref.Date_parse Ref.localeCompare VNull (int (-5))) = -1 /\
  sortR rows by_a = [[("a", VNull)]; [("a", int (-5))]] /\
  array_sort (spec_row_compare Ref.StringToNumber Ref.NumberToString
                Ref.Date_parse Ref.localeCompare by_a) rows = rows.
Proof. vm_compute. repeat split. Qed.




(** ** Merging, duplicates and empty cells *)

(** A join key: a column name, or a pair [{left, right}] of names. *)
Inductive JoinKey : Type :=
| SameKey (k : string)
| KeyPair (left right : string).

Definition leftKey (key : JoinKey) : string :=
  match key with SameKey k => k | KeyPair l _ => l end.

Definition rightKey (key : JoinKey) : string :=
  match key with SameKey k => k | KeyPair _ r => r end.

(** [matchJoinKeys]. *)
Definition matchJoinKeys (leftRow rightRow : Row) (joinKeys : list JoinKey)
  : bool :=
  forallb (fun key => strict_eq (prop leftRow (leftKey key))
                                (prop rightRow (rightKey key)))
          joinKeys.

(** [{...a, ...b}]: the properties of [a], then those of [b] assigned one
    by one. *)
Definition spread (a b : Row) : Row :=
  fold_left (fun acc kv => JsMap.set (fst kv) (snd kv) acc) b a.

Inductive merge_error : Type :=
| TooFewDatasets
| UnsupportedMergeType (t : string).

(** The rows pushed for one left row by the inner loop of the joins. *)
Definition matches (leftRow : Row) (rightDataset : list Row)
  (joinKeys : list JoinKey) : list Row :=
  map (spread leftRow)
      (filter (fun rightRow => matchJoinKeys leftRow rightRow joinKeys)
              rightDataset).

(** [innerJoin], [leftJoin] and [rightJoin]. *)
Definition innerJoin (datasets : list (list Row)) (joinKeys : list JoinKey)
  : merge_error + list Row :=
  match datasets with
  | leftDataset :: rightDataset :: _ =>
      inr (flat_map (fun leftRow => matches leftRow rightDataset joinKeys)
                    leftDataset)
  | _ => inl TooFewDatasets
  end.

Definition leftJoin (datasets : list (list Row)) (joinKeys : list JoinKey)
  : merge_error + list Row :=
  match datasets with
  | leftDataset :: rightDataset :: _ =>
      inr (flat_map (fun leftRow =>
                       match matches leftRow rightDataset joinKeys with
                       | [] => [leftRow]
                       | matched => matched
                       end)
                    leftDataset)
  | _ => inl TooFewDatasets
  end.

Definition rightJoin (datasets : list (list Row)) (joinKeys : list JoinKey)
  : merge_error + list Row :=
  match datasets with
  | leftDataset :: rightDataset :: _ =>
      leftJoin [rightDataset; leftDataset] joinKeys
  | _ => inl TooFewDatasets
  end.

(** The loop shared by [fullJoin], [unionData] and [removeDuplicates]:
    a row is kept when its key has not been seen. *)
Definition unique_step (keyOf : Row -> string)
  (st : list string * list Row) (row : Row) : list string * list Row :=
  let key := keyOf row in
  if existsb (String.eqb key) (fst st) then st
  else (fst st ++ [key], snd st ++ [row]).

Definition unique_by (keyOf : Row -> string) (rows : list Row) : list Row :=
  snd (fold_left (unique_step keyOf) rows ([], [])).

Section Cleaning.

Variable StringToNumber : string -> number.
Variable NumberToString : number -> string.
Variable Date_parse : string -> number.
Variable JSON_stringify : jsval -> string.
Variable toLowerCase : string -> string.
Variable regex_test : jsval -> string -> option bool.
(** [s.trim()]. *)
Variable trim : string -> string.

Local Abbreviation ToNumber' := (ToNumber StringToNumber NumberToString).
Local Abbreviation compareValues' :=
  (compareValues StringToNumber NumberToString Date_parse).

Definition json_key (row : Row) : string := JSON_stringify (VObj row).

(** [fullJoin], [unionData] and [concatData]. *)
Definition fullJoin (datasets : list (list Row)) (joinKeys : list JoinKey)
  : merge_error + list Row :=
  match leftJoin datasets joinKeys with
  | inl e => inl e
  | inr leftResult =>
      match rightJoin datasets joinKeys with
      | inl e => inl e
      | inr rightResult => inr (unique_by json_key (leftResult ++ rightResult))
      end
  end.

Definition unionData (datasets : list (list Row)) : list Row :=
  unique_by json_key (List.concat datasets).

Definition concatData (datasets : list (list Row)) : list Row :=
  fold_left (fun acc dataset => acc ++ dataset) datasets [].

(** [mergeData]. *)
Definition mergeData (datasets : list (list Row)) (mergeType : string)
  (joinKeys : list JoinKey) : merge_error + list Row :=
  if is_op mergeType "inner" then innerJoin datasets joinKeys
  else if is_op mergeType "left" then leftJoin datasets joinKeys
  else if is_op mergeType "right" then rightJoin datasets joinKeys
  else if is_op mergeType "full" then fullJoin datasets joinKeys
  else if is_op mergeType "union" then inr (unionData datasets)
  else if is_op mergeType "concat" then inr (concatData datasets)
  else inl (UnsupportedMergeType mergeType).

(** The key under which [removeDuplicates] remembers a row. *)
Definition duplicate_key (columns : list string) (row : Row) : string :=
  match columns with
  | [] => json_key row
  | _ => array_join NumberToString "|" (map (prop row) columns)
  end.

Record DedupResult : Type := mkDedup {
  unique_rows : list Row;
  d_originalRows : Z;
  d_uniqueRows : Z;
  d_duplicatesRemoved : Z
}.

(** [removeDuplicates]. *)
Definition removeDuplicates (dataset : list Row) (columns : list string)
  : DedupResult :=
  let result := unique_by (duplicate_key columns) dataset in
  let totalRows := Z.of_nat (List.length dataset) in
  mkDedup result totalRows (Z.of_nat (List.length result))
          (totalRows - Z.of_nat (List.length result)).

(** [isEmpty]. *)
Definition isEmpty (v : jsval) : bool :=
  match v with
  | VNull | VUndefined => true
  | VStr s => String.eqb s EmptyString || String.eqb (trim s) EmptyString
  | _ => false
  end.

(** The numbers of a column that [calculateColumnMean] and
    [calculateColumnMedian] work on. *)
Definition numeric_values (dataset : list Row) (column : string)
  : list number :=
  map ToNumber'
      (filter (fun val => negb (isEmpty val) && negb (isNaN (ToNumber' val)))
              (map (fun row => prop row column) dataset)).

(** [calculateColumnMean]. *)
Definition calculateColumnMean (dataset : list Row) (column : string)
  : jsval :=
  let values := numeric_values dataset column in
  match values with
  | [] => VNull
  | _ => VNum (num_div_count (fold_left num_add values (num_of_Z 0))
                             (List.length values))
  end.

(** [calculateColumnMedian]. *)
Definition calculateColumnMedian (dataset : list Row) (column : string)
  : jsval :=
  let values := array_sort (fun a b => num_sub a b)
                           (numeric_values dataset column) in
  match values with
  | [] => VNull
  | _ =>
      let mid := (List.length values / 2)%nat in
      if (List.length values mod 2 =? 0)%nat
      then VNum (num_div_count
                   (num_add (nth (mid - 1) values NaN) (nth mid values NaN)) 2)
      else VNum (nth mid values NaN)
  end.

(** [counts.set(value, (counts.get(value) || 0) + 1)]; the keys of a
    [Map] are compared with SameValueZero. *)
Fixpoint count_add (v : jsval) (counts : list (jsval * Z))
  : list (jsval * Z) :=
  match counts with
  | [] => [(v, 1)]
  | (v', n) :: rest =>
      if same_value_zero v' v then (v', n + 1) :: rest
      else (v', n) :: count_add v rest
  end.

(** [calculateColumnMode]: the first value with the highest count. *)
Definition calculateColumnMode (dataset : list Row) (column : string)
  : jsval :=
  let counts :=
    fold_left (fun counts row =>
                 let v := prop row column in
                 if isEmpty v then counts else count_add v counts)
              dataset [] in
  match counts with
  | [] => VNull
  | _ =>
      snd (fold_left (fun best vc =>
                        if fst best <? snd vc then (snd vc, fst vc) else best)
                     counts (0, VNull))
  end.

(** One fill rule [{column, method, value}]. *)
Record FillRule : Type := mkFillRule {
  fill_column : string;
  fill_method : string;
  fill_value : jsval
}.

(** The first non-empty value of a column in the rows that follow. *)
Definition first_non_empty (later : list Row) (column : string)
  : option jsval :=
  match find (fun r => negb (isEmpty (prop r column))) later with
  | Some r => Some (prop r column)
  | None => None
  end.

(** The callback of [fillRules.forEach] for row [i]: [result] holds the
    rows already filled (so [i] is its length), [later] the rows of the
    dataset after row [i]. *)
Definition apply_rule (dataset result later : list Row) (row : Row)
  (rule : FillRule) : Row :=
  let column := fill_column rule in
  let method := fill_method rule in
  let i := List.length result in
  if isEmpty (prop row column) then
    if is_op method "constant" then JsMap.set column (fill_value rule) row
    else if is_op method "forward_fill" then
      if (0 <? i)%nat then
        match nth_error result (i - 1) with
        | Some previous => JsMap.set column (prop previous column) row
        | None => row
        end
      else row
    else if is_op method "backward_fill" then
      match first_non_empty later column with
      | Some v => JsMap.set column v row
      | None => row
      end
    else if is_op method "mean" then
      JsMap.set column (calculateColumnMean dataset column) row
    else if is_op method "median" then
      JsMap.set column (calculateColumnMedian dataset column) row
    else if is_op method "mode" then
      JsMap.set column (calculateColumnMode dataset column) row
    else row
  else row.

Fixpoint fill_rows (dataset : list Row) (fillRules : list FillRule)
  (result rest : list Row) : list Row :=
  match rest with
  | [] => result
  | row :: later =>
      fill_rows dataset fillRules
        (result ++ [fold_left (apply_rule dataset result later) fillRules row])
        later
  end.

(** [fillEmptyValues]. *)
Definition fillEmptyValues (dataset : list Row) (fillRules : list FillRule)
  : list Row :=
  fill_rows dataset fillRules [] dataset.

(** *** Joins *)

Lemma prop_spread (a b : Row) (k : string) :
  NoDup (JsMap.keys b) ->
  prop (spread a b) k = if JsMap.has k b then prop b k else prop a k.
Proof.
  unfold spread, prop, JsMap.has, JsMap.keys. revert a.
  induction b as [|[k0 v0] b IH]; intros a Hnd; [reflexivity|].
  inversion Hnd as [|? ? Hnotin Hnd']; subst.
  cbn [fold_left fst snd JsMap.get]. rewrite (IH _ Hnd').
  destruct (String.eqb k k0) eqn:E.
  - apply String.eqb_eq in E. subst k0.
    assert (Hnone : JsMap.get k b = None).
    { destruct (JsMap.get k b) as [v|] eqn:Eg; [|reflexivity].
      exfalso. apply Hnotin. apply JsMap.get_In in Eg.
      change k with (fst (k, v)). now apply in_map. }
    rewrite Hnone. now rewrite JsMap.get_set_same.
  - destruct (JsMap.get k b); [reflexivity|].
    rewrite JsMap.get_set_other; [reflexivity|].
    intros ->. rewrite String.eqb_refl in E. discriminate.
Qed.

Lemma matches_nil (a : Row) (r : list Row) (ks : list JoinKey) :
  matches a r ks = [] <->
  existsb (fun b => matchJoinKeys a b ks) r = false.
Proof.
  unfold matches. induction r as [|b r IH]; cbn; [tauto|].
  destruct (matchJoinKeys a b ks); cbn; [split; discriminate | exact IH].
Qed.

(** X17.  Every row of an inner join is a left row overlaid with a right
    row that matches it on the join keys: on a column that the right row
    has, the joined row carries the right row's value, on any other
    column the left row's. *)
Theorem inner_join_rows (l r : list Row) (rest : list (list Row))
  (ks : list JoinKey) (row : Row) :
  forallb (fun b => Cache.nodupb (JsMap.keys b)) r = true ->
  (exists out, innerJoin (l :: r :: rest) ks = inr out /\ In row out) ->
  exists a b,
    In a l /\ In b r /\ matchJoinKeys a b ks = true /\
    forall k, prop row k = if JsMap.has k b then prop b k else prop a k.
Proof.
  intros Hnd [out [Hout Hin]]. cbn in Hout. inversion Hout; subst out.
  apply in_flat_map in Hin. destruct Hin as [a [Ha Hin]].
  unfold matches in Hin. apply in_map_iff in Hin.
  destruct Hin as [b [<- Hb]]. apply filter_In in Hb. destruct Hb as [Hb Hm].
  exists a, b. repeat split; auto. intros k. apply prop_spread.
  rewrite forallb_forall in Hnd. apply Cache.nodupb_NoDup. now apply Hnd.
Qed.

(** X18.  A left join holds every row of the inner join, and every left
    row without a match as it is: its length is that of the inner join
    plus the number of unmatched left rows. *)
Theorem left_join_keeps_left_rows (l r : list Row) (rest : list (list Row))
  (ks : list JoinKey) :
  exists out inn,
    leftJoin (l :: r :: rest) ks = inr out /\
    innerJoin (l :: r :: rest) ks = inr inn /\
    incl inn out /\
    (forall a, In a l -> existsb (fun b => matchJoinKeys a b ks) r = false ->
               In a out) /\
    List.length out
    = (List.length inn
       + List.length (filter (fun a => negb (existsb (fun b =>
                                matchJoinKeys a b ks) r)) l))%nat.
Proof.
  eexists. eexists. split; [reflexivity|]. split; [reflexivity|].
  split; [|split].
  - intros row Hin. apply in_flat_map in Hin. destruct Hin as [a [Ha Hin]].
    apply in_flat_map. exists a. split; [exact Ha|].
    destruct (matches a r ks); [destruct Hin | exact Hin].
  - intros a Ha Hno. apply in_flat_map. exists a. split; [exact Ha|].
    apply matches_nil in Hno. rewrite Hno. now left.
  - induction l as [|a l IH]; [reflexivity|].
    cbn [flat_map filter]. rewrite !length_app, IH.
    destruct (existsb (fun b => matchJoinKeys a b ks) r) eqn:E; cbn [negb].
    + destruct (matches a r ks) eqn:Em.
      * apply matches_nil in Em. congruence.
      * lia.
    + apply matches_nil in E. rewrite E. cbn [List.length]. lia.
Qed.

(** X19.  Without join keys every pair of rows matches: the inner join
    of two datasets is their cross product, and with fewer than two
    datasets every join fails. *)
Theorem join_without_keys (l r : list Row) (rest : list (list Row)) :
  (exists out, innerJoin (l :: r :: rest) [] = inr out /\
               List.length out = (List.length l * List.length r)%nat) /\
  (forall ks d, innerJoin [d] ks = inl TooFewDatasets /\
                leftJoin [d] ks = inl TooFewDatasets /\
                rightJoin [d] ks = inl TooFewDatasets /\
                fullJoin [d] ks = inl TooFewDatasets).
Proof.
  split; [|repeat split].
  eexists. split; [reflexivity|].
  induction l as [|a l IH]; [reflexivity|].
  cbn [flat_map List.length]. rewrite length_app, IH. unfold matches.
  rewrite length_map.
  assert (E : filter (fun rightRow => matchJoinKeys a rightRow []) r = r).
  { clear. induction r as [|b r IH]; [reflexivity|].
    cbn [filter matchJoinKeys forallb]. f_equal. exact IH. }
  rewrite E. lia.
Qed.

(** *** Duplicates *)

(** The rows kept by the loop, given the keys already seen. *)
Fixpoint first_seen (keyOf : Row -> string) (seen : list string)
  (rows : list Row) : list Row :=
  match rows with
  | [] => []
  | row :: rest =>
      if existsb (String.eqb (keyOf row)) seen
      then first_seen keyOf seen rest
      else row :: first_seen keyOf (seen ++ [keyOf row]) rest
  end.

Lemma unique_by_first_seen (keyOf : Row -> string) (rows : list Row) :
  unique_by keyOf rows = first_seen keyOf [] rows.
Proof.
  unfold unique_by.
  assert (H : forall rows seen res,
            snd (fold_left (unique_step keyOf) rows (seen, res))
            = res ++ first_seen keyOf seen rows).
  { clear. induction rows as [|row rows IH]; intros seen res;
      cbn [fold_left first_seen]; [now rewrite app_nil_r|].
    unfold unique_step at 2. cbn [fst snd].
    destruct (existsb (String.eqb (keyOf row)) seen); [apply IH|].
    rewrite IH, <- app_assoc. reflexivity. }
  apply (H rows [] []).
Qed.

Lemma existsb_eqb_mem (k : string) (l : list string) :
  existsb (String.eqb k) l = true <-> In k l.
Proof.
  rewrite existsb_exists. split.
  - intros [x [Hx E]]. apply String.eqb_eq in E. now subst.
  - intros H. exists k. split; [exact H | apply String.eqb_refl].
Qed.

Lemma first_seen_spec (keyOf : Row -> string) (rows : list Row) :
  forall seen,
    NoDup (map keyOf (first_seen keyOf seen rows)) /\
    (forall row, In row (first_seen keyOf seen rows) ->
                 In row rows /\ ~ In (keyOf row) seen) /\
    (forall row, In row rows ->
                 In (keyOf row) seen \/
                 In (keyOf row) (map keyOf (first_seen keyOf seen rows))).
Proof.
  induction rows as [|row rows IH]; intros seen; cbn [first_seen].
  - split; [constructor|]. split; intros row [].
  - destruct (existsb (String.eqb (keyOf row)) seen) eqn:E.
    + destruct (IH seen) as [H1 [H2 H3]]. split; [exact H1|]. split.
      * intros x Hx. destruct (H2 x Hx). split; [now right | assumption].
      * intros x [<- | Hx]; [left; now apply existsb_eqb_mem | now apply H3].
    + assert (Hnot : ~ In (keyOf row) seen).
      { intros H. apply existsb_eqb_mem in H. congruence. }
      destruct (IH (seen ++ [keyOf row])) as [H1 [H2 H3]].
      split; [|split].
      * cbn [map]. constructor; [|exact H1].
        intros Hin. apply in_map_iff in Hin. destruct Hin as [x [Ex Hx]].
        destruct (H2 x Hx) as [_ Hn]. apply Hn. rewrite Ex.
        apply in_or_app. right. now left.
      * intros x [<- | Hx]; [split; [now left | exact Hnot]|].
        destruct (H2 x Hx) as [Hx1 Hx2]. split; [now right|].
        intros H. apply Hx2. apply in_or_app. now left.
      * intros x [<- | Hx]; [right; now left|].
        destruct (H3 x Hx) as [H | H].
        -- apply in_app_or in H. destruct H as [H | [H | []]];
             [now left | right; left; now symmetry].
        -- right. now right.
Qed.

Lemma first_seen_idem (keyOf : Row -> string) (rows : list Row) :
  forall seen,
    first_seen keyOf seen (first_seen keyOf seen rows)
    = first_seen keyOf seen rows.
Proof.
  induction rows as [|row rows IH]; intros seen; cbn [first_seen];
    [reflexivity|].
  destruct (existsb (String.eqb (keyOf row)) seen) eqn:E; [apply IH|].
  cbn [first_seen]. rewrite E. now rewrite IH.
Qed.

(** X20.  [removeDuplicates] keeps one row per key: the rows kept are
    rows of the dataset with pairwise different keys, every row of the
    dataset has its key among them, and the counts reported add up. *)
Theorem removeDuplicates_distinct (dataset : list Row) (columns : list string) :
  let r := removeDuplicates dataset columns in
  NoDup (map (duplicate_key columns) (unique_rows r)) /\
  incl (unique_rows r) dataset /\
  (forall row, In row dataset ->
     exists kept, In kept (unique_rows r) /\
                  duplicate_key columns kept = duplicate_key columns row) /\
  d_originalRows r = d_uniqueRows r + d_duplicatesRemoved r /\
  d_uniqueRows r = Z.of_nat (List.length (unique_rows r)).
Proof.
  cbv zeta. unfold removeDuplicates. cbn [unique_rows d_originalRows
    d_uniqueRows d_duplicatesRemoved].
  rewrite unique_by_first_seen.
  destruct (first_seen_spec (duplicate_key columns) dataset [])
    as [H1 [H2 H3]].
  split; [exact H1|]. split; [intros x Hx; now apply H2|].
  split; [|split; [lia | reflexivity]].
  intros row Hin. destruct (H3 row Hin) as [[] | H].
  apply in_map_iff in H. destruct H as [kept [E Hk]]. now exists kept.
Qed.

(** X21.  Removing duplicates twice removes nothing more: a second pass
    over the result, with the same columns, returns it unchanged and
    reports no duplicate. *)
Theorem removeDuplicates_idempotent (dataset : list Row)
  (columns : list string) :
  let once := removeDuplicates dataset columns in
  let twice := removeDuplicates (unique_rows once) columns in
  unique_rows twice = unique_rows once /\ d_duplicatesRemoved twice = 0.
Proof.
  cbv zeta. unfold removeDuplicates. cbn [unique_rows d_duplicatesRemoved].
  rewrite !unique_by_first_seen, first_seen_idem. split; [reflexivity | lia].
Qed.

(** *** Empty cells *)

Lemma apply_rule_keeps (dataset result later : list Row) (row : Row)
  (rule : FillRule) (c : string) :
  isEmpty (prop row c) = false ->
  prop (apply_rule dataset result later row rule) c = prop row c.
Proof.
  intros Hc. unfold apply_rule.
  destruct (String.eqb c (fill_column rule)) eqn:E.
  - apply String.eqb_eq in E. subst c. now rewrite Hc.
  - assert (Hne : c <> fill_column rule).
    { intros ->. rewrite String.eqb_refl in E. discriminate. }
    assert (Hset : forall v, prop (JsMap.set (fill_column rule) v row) c
                             = prop row c).
    { intros v. unfold prop. now rewrite JsMap.get_set_other. }
    destruct (isEmpty (prop row (fill_column rule))); [|reflexivity].
    repeat match goal with
    | |- context [if ?b then _ else _] => destruct b
    | |- context [match ?o with Some _ => _ | None => _ end] => destruct o
    end; auto.
Qed.

Lemma fill_rules_keep (dataset result later : list Row)
  (rules : list FillRule) (c : string) :
  forall row, isEmpty (prop row c) = false ->
  prop (fold_left (apply_rule dataset result later) rules row) c = prop row c.
Proof.
  induction rules as [|rule rules IH]; intros row Hc; [reflexivity|].
  cbn [fold_left]. rewrite IH.
  - now apply apply_rule_keeps.
  - now rewrite apply_rule_keeps.
Qed.

Lemma fill_rows_spec (dataset : list Row) (rules : list FillRule)
  (R : Row -> Row -> Prop) :
  (forall result later row,
     R row (fold_left (apply_rule dataset result later) rules row)) ->
  forall rest result,
  exists tail, fill_rows dataset rules result rest = result ++ tail /\
               Forall2 R rest tail.
Proof.
  intros HR. induction rest as [|row later IH]; intros result;
    cbn [fill_rows].
  - exists []. split; [now rewrite app_nil_r | constructor].
  - destruct (IH (result ++
        [fold_left (apply_rule dataset result later) rules row]))
      as [tail [E H]].
    exists (fold_left (apply_rule dataset result later) rules row :: tail).
    split; [rewrite E, <- app_assoc; reflexivity|].
    constructor; [apply HR | exact H].
Qed.

(** X22.  [fillEmptyValues] returns one row per row of the dataset, in
    order, and never touches a cell that is not empty: whatever the
    rules, such a cell has the same value in the result. *)
Theorem fill_keeps_values (dataset : list Row) (fillRules : list FillRule) :
  Forall2 (fun row filled =>
             forall c, isEmpty (prop row c) = false ->
                       prop filled c = prop row c)
          dataset (fillEmptyValues dataset fillRules).
Proof.
  unfold fillEmptyValues.
  destruct (fill_rows_spec dataset fillRules
              (fun row filled => forall c, isEmpty (prop row c) = false ->
                                           prop filled c = prop row c))
       with (rest := dataset) (result := @nil Row) as [tail [-> H]].
  - intros result later row c Hc. now apply fill_rules_keep.
  - exact H.
Qed.

(** X23.  A [constant] rule with a value that is not itself empty leaves
    no empty cell in its column, whatever the other rules are. *)
Theorem constant_fill_leaves_none_empty (dataset : list Row)
  (fillRules : list FillRule) (c : string) (v : jsval) :
  In (mkFillRule c "constant" v) fillRules ->
  isEmpty v = false ->
  Forall (fun filled => isEmpty (prop filled c) = false)
         (fillEmptyValues dataset fillRules).
Proof.
  intros Hin Hv. unfold fillEmptyValues.
  destruct (fill_rows_spec dataset fillRules
              (fun _ filled => isEmpty (prop filled c) = false))
       with (rest := dataset) (result := @nil Row) as [tail [-> H]].
  - intros result later row. clear - Hin Hv.
    apply in_split in Hin. destruct Hin as [r1 [r2 ->]].
    rewrite fold_left_app. cbn [fold_left].
    set (row1 := fold_left (apply_rule dataset result later) r1 row).
    assert (H1 : isEmpty (prop (apply_rule dataset result later row1
                                  (mkFillRule c "constant" v)) c) = false).
    { unfold apply_rule. cbn [fill_column fill_method fill_value].
      destruct (isEmpty (prop row1 c)) eqn:E; [|exact E].
      cbn. unfold prop. now rewrite JsMap.get_set_same. }
    now rewrite fill_rules_keep.
  - cbn [app]. clear - H. induction H; constructor; auto.
Qed.

(** *** Comparisons *)

Lemma num_leb_not_gtb (a b : number) :
  isNaN a = false -> isNaN b = false ->
  num_leb a b = negb (num_ltb b a) /\ num_geb a b = negb (num_ltb a b).
Proof.
  unfold num_leb, num_geb.
  destruct a as [| | |x], b as [| | |y]; cbn; try discriminate; auto.
  intros _ _. rewrite <- (Qcompare_antisym x y).
  destruct (Qcompare x y) eqn:E; cbn.
  - apply Qeq_alt in E. apply Qeq_bool_iff in E. rewrite E. auto.
  - assert (Hne : Qeq_bool x y = false).
    { destruct (Qeq_bool x y) eqn:Eq; [|reflexivity].
      apply Qeq_bool_iff, Qeq_alt in Eq. congruence. }
    rewrite Hne. auto.
  - assert (Hne : Qeq_bool x y = false).
    { destruct (Qeq_bool x y) eqn:Eq; [|reflexivity].
      apply Qeq_bool_iff, Qeq_alt in Eq. congruence. }
    rewrite Hne. auto.
Qed.

Lemma compareValues_complement (a b : jsval) :
  compareValues' a b OpNe = negb (compareValues' a b OpEq) /\
  compareValues' a b OpLe = negb (compareValues' a b OpGt) /\
  compareValues' a b OpGe = negb (compareValues' a b OpLt).
Proof.
  unfold compareValues.
  destruct (isNaN (ToNumber' a)) eqn:Ea, (isNaN (ToNumber' b)) eqn:Eb;
    cbn [negb andb];
    try (destruct (isNaN (date_time NumberToString Date_parse a)) eqn:Da,
                  (isNaN (date_time NumberToString Date_parse b)) eqn:Db;
         cbn [negb andb]);
    cbn [num_rel str_rel];
    repeat match goal with
    | Hx : isNaN ?x = false, Hy : isNaN ?y = false |- context [num_leb ?x ?y] =>
        destruct (num_leb_not_gtb x y Hx Hy) as [-> _]
    | Hx : isNaN ?x = false, Hy : isNaN ?y = false |- context [num_geb ?x ?y] =>
        destruct (num_leb_not_gtb x y Hx Hy) as [_ ->]
    end;
    repeat split; rewrite ?negb_involutive; reflexivity.
Qed.

(** X24.  The comparison operators of the filter come in complementary
    pairs: whatever the row, the column and the value, the row passes
    exactly one of [equals] and [not_equals], of [greater_than] and
    [less_than_or_equal], and of [less_than] and
    [greater_than_or_equal]. *)
Theorem comparisons_are_complementary (row : Row) (col : string) (v : jsval) :
  let pass op := evaluateCondition StringToNumber NumberToString Date_parse
                   toLowerCase regex_test row (mkCondition col op v) in
  pass "not_equals" = negb (pass "equals") /\
  pass "less_than_or_equal" = negb (pass "greater_than") /\
  pass "greater_than_or_equal" = negb (pass "less_than").
Proof.
  cbv zeta. unfold evaluateCondition.
  cbn [operator column value is_op String.eqb Ascii.eqb Bool.eqb].
  apply compareValues_complement.
Qed.

End Cleaning.

(** ** Examples of merging and cleaning *)

Definition orders : list Row :=
  [[("id", int 1); ("item", VStr "pen")];
   [("id", int 2); ("item", VStr "ink")];
   [("id", int 3); ("item", VStr "pad")]].

Definition prices : list Row :=
  [[("id", int 1); ("price", int 5)];
   [("id", int 3); ("price", int 7)];
   [("id", int 3); ("price", int 8)]].

Lemma inner_join_rows_witness :
  forallb (fun b => Cache.nodupb (JsMap.keys b)) prices = true /\
  (exists out, innerJoin [orders; prices] [SameKey "id"] = inr out /\
               In [("id", int 3); ("item", VStr "pad"); ("price", int 8)] out) /\
  exists a b,
    In a orders /\ In b prices /\ matchJoinKeys a b [SameKey "id"] = true /\
    forall k, prop [("id", int 3); ("item", VStr "pad"); ("price", int 8)] k
              = if JsMap.has k b then prop b k else prop a k.
Proof.
  assert (H1 : forallb (fun b => Cache.nodupb (JsMap.keys b)) prices = true)
    by (vm_compute; reflexivity).
  assert (H2 : exists out,
             innerJoin [orders; prices] [SameKey "id"] = inr out /\
             In [("id", int 3); ("item", VStr "pad"); ("price", int 8)] out).
  { eexists. split; [reflexivity|]. vm_compute. auto. }
  split; [exact H1|]. split; [exact H2|].
  exact (inner_join_rows orders prices [] [SameKey "id"] _ H1 H2).
Defined.

(** [s.trim()] for strings whose only white space is the space. *)
Fixpoint trim_start (s : string) : string :=
  match s with
  | String " "%char s' => trim_start s'
  | _ => s
  end.

Definition trim (s : string) : string :=
  str_rev (trim_start (str_rev (trim_start s))).

Definition fillR : list Row -> list FillRule -> list Row :=
  fillEmptyValues Ref.StringToNumber Ref.NumberToString trim.

Lemma constant_fill_leaves_none_empty_witness :
  In (mkFillRule "item" "constant" (VStr "none"))
     [mkFillRule "id" "forward_fill" VUndefined;
      mkFillRule "item" "constant" (VStr "none")] /\
  isEmpty trim (VStr "none") = false /\
  Forall (fun filled => isEmpty trim (prop filled "item") = false)
         (fillR [[("id", int 1); ("item", VStr "  ")]; [("id", VNull)]]
                [mkFillRule "id" "forward_fill" VUndefined;
                 mkFillRule "item" "constant" (VStr "none")]).
Proof.
  split; [right; now left|]. split; [reflexivity|].
  apply (constant_fill_leaves_none_empty Ref.StringToNumber Ref.NumberToString
           trim [[("id", int 1); ("item", VStr "  ")]; [("id", VNull)]]
           [mkFillRule "id" "forward_fill" VUndefined;
            mkFillRule "item" "constant" (VStr "none")] "item" (VStr "none")).
  - right; now left.
  - reflexivity.
Defined.

End Processor.

(* ================================================================== *)
(** * CSV lines ([DataParserWorker], src/workers/cacheWorker.js) *)
(* ================================================================== *)

Module Parser.

Definition dquote : ascii := "034"%char.

Definition char_str (c : ascii) : string := String c EmptyString.

(** The [while] loop of [parseCSVLine], on what is left of the line.  A
    quote inside quotes that is followed by a quote stands for one
    quote and both are consumed; any other quote opens or closes the
    quoted part. *)
Fixpoint parse_loop (delimiter line current : string) (inQuotes : bool)
  (values : list string) : list string :=
  match line with
  | EmptyString => values ++ [current]
  | String char rest =>
      if Ascii.eqb char dquote then
        match rest with
        | String nextChar rest' =>
            if inQuotes && Ascii.eqb nextChar dquote
            then parse_loop delimiter rest' (current ++ char_str dquote)
                            inQuotes values
            else parse_loop delimiter rest current (negb inQuotes) values
        | EmptyString => parse_loop delimiter rest current (negb inQuotes) values
        end
      else if String.eqb (char_str char) delimiter && negb inQuotes
      then parse_loop delimiter rest EmptyString inQuotes (values ++ [current])
      else parse_loop delimiter rest (current ++ char_str char) inQuotes values
  end.

(** [parseCSVLine]. *)
Definition parseCSVLine (line delimiter : string) : list string :=
  parse_loop delimiter line EmptyString false [].

End Parser.

(* ================================================================== *)
(** * The chunked pipeline ([StreamProcessor], src/main/streamProcessor.js) *)
(* ================================================================== *)

Module Stream.

Definition Row : Type := JsMap.t jsval.

(** A chunk as it travels between stages. *)
Record DataChunk : Type := mkChunk {
  type : string;
  chunk : list Row;
  startRow : Z;
  endRow : Z;
  headers : list string
}.

(** [this.options] of a [StreamProcessor]. *)
Record Options : Type := mkOptions {
  chunkSize : Z;
  memoryLimit : Z
}.

(** The constructor: [{chunkSize: options.chunkSize || 100000, ...,
    ...options}]; a field given by the caller overrides the default,
    whatever its value. *)
Definition new_options (givenChunkSize givenMemoryLimit : option Z) : Options :=
  mkOptions
    (match givenChunkSize with Some c => c | None => 100000 end)
    (match givenMemoryLimit with Some m => m
                               | None => 4 * 1024 * 1024 * 1024 end).

(** What [this] is bound to when a function of the pipeline runs, as far
    as the functions below look at it: its property [options]. *)
Record ThisObject : Type := mkThis {
  this_options : option Options
}.

(** Inside a method of the [StreamProcessor], [this] is the processor. *)
Definition processor_this (o : Options) : ThisObject := mkThis (Some o).

(** Inside the [transform] and [flush] functions given to
    [new Transform({...})], [this] is the stream that Node creates: the
    constructor keeps these two functions and none of the other
    properties of the object it was given ([evaluateConditions],
    [initializeAggregation], [updateAggregation]), and a stream has no
    property [options]. *)
Definition transform_this : ThisObject := mkThis None.

(** An exception thrown inside a stage; it is handed to the stage's
    callback and ends the pipeline. *)
Inductive stage_error : Type := TypeError.

(** ** The chunked reader *)

(** The part of a worksheet the reader looks at: the header cells by
    column and the cell values by row and column ([None]: no cell), and
    the range of the sheet. *)
Record Worksheet : Type := mkWorksheet {
  header_cell : Z -> option string;
  cell : Z -> Z -> option jsval;
  first_col : Z;
  last_col : Z
}.

(** The integers [lo], [lo + 1], ..., [hi]. *)
Definition zrange (lo hi : Z) : list Z :=
  map (fun i => lo + Z.of_nat i) (seq 0 (Z.to_nat (hi - lo + 1))).

Definition read_headers (ws : Worksheet) : list string :=
  map (fun col =>
         match header_cell ws col with
         | Some v => v
         | None =>
             ("Column" ++ NilZero.string_of_int (Z.to_int (col + 1)))%string
         end)
      (zrange (first_col ws) (last_col ws)).

Definition read_row (ws : Worksheet) (hs : list string) (row : Z) : Row :=
  fold_left
    (fun rowData col =>
       JsMap.set (nth (Z.to_nat (col - first_col ws)) hs "undefined")
                 (match cell ws row col with Some v => v | None => VNull end)
                 rowData)
    (zrange (first_col ws) (last_col ws)) [].

(** The [while] loop of [processExcelInChunks]; [None] when the fuel
    runs out before the loop ends. *)
Fixpoint read_chunks (fuel : nat) (ws : Worksheet) (hs : list string)
  (size currentRow endRow' : Z) : option (list DataChunk) :=
  if currentRow <=? endRow' then
    match fuel with
    | O => None
    | S fuel' =>
        let chunkEndRow := Z.min (currentRow + size - 1) endRow' in
        let rows := map (read_row ws hs) (zrange currentRow chunkEndRow) in
        match read_chunks fuel' ws hs size (chunkEndRow + 1) endRow' with
        | Some rest =>
            Some (mkChunk "data" rows currentRow chunkEndRow hs :: rest)
        | None => None
        end
    end
  else Some [].

(** [processExcelInChunks] with [this] the processor. *)
Definition processExcelInChunks (fuel : nat) (o : Options) (ws : Worksheet)
  (startRow' endRow' : Z) : option (list DataChunk) :=
  read_chunks fuel ws (read_headers ws) (chunkSize o) startRow' endRow'.

(** ** The sort stage *)

Section Runtime.

Variable StringToNumber : string -> number.
Variable NumberToString : number -> string.

(** ToPrimitive: arrays and objects convert to their string form. *)
Definition to_primitive (v : jsval) : jsval :=
  match v with
  | VArr _ | VObj _ => VStr (ToString NumberToString v)
  | _ => v
  end.

(** [a < b] on values: by code units for two strings, as numbers
    otherwise. *)
Definition js_lt (a b : jsval) : bool :=
  match to_primitive a, to_primitive b with
  | VStr x, VStr y => str_ltb x y
  | pa, pb => num_ltb (Processor.ToNumber StringToNumber NumberToString pa)
                      (Processor.ToNumber StringToNumber NumberToString pb)
  end.

(** The comparator of the sort stage. *)
Fixpoint stream_compare (sortColumns : list Processor.SortColumn) (a b : Row)
  : number :=
  match sortColumns with
  | [] => num_of_Z 0
  | c :: rest =>
      let aVal := prop a (Processor.sort_column c) in
      let bVal := prop b (Processor.sort_column c) in
      let comparison :=
        if js_lt aVal bVal then -1 else if js_lt bVal aVal then 1 else 0 in
      if negb (comparison =? 0)
      then num_of_Z (if Processor.is_desc c then - comparison else comparison)
      else stream_compare rest a b
  end.

(** [this.options?.chunkSize || 100000]. *)
Definition flush_chunkSize (this : ThisObject) : Z :=
  match this_options this with
  | Some o => if chunkSize o =? 0 then 100000 else chunkSize o
  | None => 100000
  end.

(** The [for] loop that slices the sorted rows; it stops when the fuel
    runs out. *)
Fixpoint rechunk (fuel : nat) (size i : Z) (allData : list Row)
  (hs : list string) : list DataChunk :=
  if i <? Z.of_nat (List.length allData) then
    match fuel with
    | O => []
    | S fuel' =>
        let rows := firstn (Z.to_nat size) (skipn (Z.to_nat i) allData) in
        mkChunk "data" rows i (i + Z.of_nat (List.length rows) - 1) hs
        :: rechunk fuel' size (i + size) allData hs
    end
  else [].

(** [transform] of the sort stage: chunks of type ['data'] are kept. *)
Definition sort_transform (chunks : list DataChunk) (c : DataChunk)
  : list DataChunk :=
  if String.eqb (type c) "data" then chunks ++ [c] else chunks.

(** [flush] of the sort stage, run with [this]. *)
Definition sort_flush (this : ThisObject)
  (sortColumns : list Processor.SortColumn) (chunks : list DataChunk)
  : list DataChunk :=
  let allData := List.concat (map chunk chunks) in
  let sorted := array_sort (stream_compare sortColumns) allData in
  rechunk (List.length sorted) (flush_chunkSize this) 0 sorted
          (match chunks with c :: _ => headers c | [] => [] end).

(** The stage made by [createSortStream]: what it emits for a stream of
    incoming chunks.  Node runs [transform] and [flush] with [this] bound
    to the stream. *)
Definition createSortStream (sortColumns : list Processor.SortColumn)
  (input : list DataChunk) : list DataChunk :=
  sort_flush transform_this sortColumns (fold_left sort_transform input []).

(** ** The aggregate stage *)

(** [transform] of the aggregate stage for one row.  A row with a new
    key creates its group from the [groupBy] columns.  With a non-empty
    list of aggregations the accumulators are then initialised through
    [this.initializeAggregation], which is [undefined] on the stream:
    the call throws a TypeError before the group is stored, so that no
    group is ever stored and every row takes this path. *)
Definition aggregate_row (aggregations : list Processor.Aggregation)
  (groupBy : list string) (groups : JsMap.t Row) (row : Row)
  : stage_error + JsMap.t Row :=
  let k := Processor.groupKey NumberToString groupBy row in
  match aggregations with
  | [] =>
      if JsMap.has k groups then inr groups
      else inr (JsMap.set k
                  (fold_left (fun d col => JsMap.set col (prop row col) d)
                             groupBy [])
                  groups)
  | _ :: _ => inl TypeError
  end.

Fixpoint aggregate_rows (aggregations : list Processor.Aggregation)
  (groupBy : list string) (groups : JsMap.t Row) (rows : list Row)
  : stage_error + JsMap.t Row :=
  match rows with
  | [] => inr groups
  | row :: rest =>
      match aggregate_row aggregations groupBy groups row with
      | inl e => inl e
      | inr groups' => aggregate_rows aggregations groupBy groups' rest
      end
  end.

(** [flush] of the aggregate stage: all groups in one chunk. *)
Definition aggregate_flush (groups : JsMap.t Row) : DataChunk :=
  let result := JsMap.values groups in
  mkChunk "data" result 0 (Z.of_nat (List.length result) - 1)
          (match result with r :: _ => JsMap.keys r | [] => [] end).

(** The stage made by [createAggregateStream], run by Node with [this]
    bound to the stream. *)
Definition createAggregateStream (aggregations : list Processor.Aggregation)
  (groupBy : list string) (input : list DataChunk)
  : stage_error + list DataChunk :=
  match aggregate_rows aggregations groupBy []
          (List.concat (map chunk
                     (filter (fun c => String.eqb (type c) "data") input))) with
  | inl e => inl e
  | inr groups => inr [aggregate_flush groups]
  end.

End Runtime.

(** ** Chunk sizes *)

Lemma zrange_length (lo hi : Z) :
  List.length (zrange lo hi) = Z.to_nat (hi - lo + 1).
Proof. unfold zrange. now rewrite length_map, length_seq. Qed.

Lemma map_seq_offset (lo : Z) (a n : nat) :
  map (fun i => lo + Z.of_nat i) (seq a n)
  = map (fun i => lo + Z.of_nat a + Z.of_nat i) (seq 0 n).
Proof.
  revert a. induction n as [|n IH]; intros a; cbn [seq map]; [reflexivity|].
  f_equal; [lia|]. rewrite (IH (S a)), <- seq_shift, map_map.
  apply map_ext. intros i. lia.
Qed.

Lemma zrange_app (lo mid hi : Z) :
  lo <= mid + 1 -> mid <= hi ->
  zrange lo mid ++ zrange (mid + 1) hi = zrange lo hi.
Proof.
  intros H1 H2. unfold zrange.
  replace (Z.to_nat (hi - lo + 1))
    with (Z.to_nat (mid - lo + 1) + Z.to_nat (hi - (mid + 1) + 1))%nat by lia.
  rewrite seq_app, map_app. f_equal. cbn [Nat.add].
  rewrite (map_seq_offset lo (Z.to_nat (mid - lo + 1))).
  apply map_ext. intros i. lia.
Qed.

(** X25.  With a chunk size of at least one the reader ends (given
    fuel for one chunk per row), emits chunks of at least one and at
    most [size] rows, and emits every row once, in order. *)
Lemma read_chunks_spec (ws : Worksheet) (hs : list string) (size endRow' : Z) :
  1 <= size ->
  forall (fuel : nat) (currentRow : Z),
  (Z.to_nat (endRow' - currentRow + 1) <= fuel)%nat ->
  exists chunks,
    read_chunks fuel ws hs size currentRow endRow' = Some chunks /\
    Forall (fun c => 1 <= Z.of_nat (List.length (chunk c)) <= size) chunks /\
    List.concat (map chunk chunks)
    = map (read_row ws hs) (zrange currentRow endRow').
Proof.
  intros Hsize. induction fuel as [|fuel IH]; intros cur Hfuel.
  - cbn. destruct (Z.leb_spec cur endRow'); [lia|].
    exists []. repeat split; [constructor|].
    unfold zrange. now replace (Z.to_nat (endRow' - cur + 1)) with 0%nat by lia.
  - cbn [read_chunks]. destruct (Z.leb_spec cur endRow') as [Hle | Hgt].
    + set (chunkEndRow := Z.min (cur + size - 1) endRow').
      assert (Hce : cur <= chunkEndRow <= endRow') by (subst chunkEndRow; lia).
      destruct (IH (chunkEndRow + 1)) as [rest [Hr [Hall Hcat]]]; [lia|].
      rewrite Hr. eexists. split; [reflexivity|]. split.
      * constructor; [|exact Hall]. cbn [chunk].
        rewrite length_map, zrange_length. subst chunkEndRow. lia.
      * cbn [map chunk List.concat]. rewrite Hcat, <- map_app.
        f_equal. apply zrange_app; lia.
    + exists []. repeat split; [constructor|].
      unfold zrange.
      now replace (Z.to_nat (endRow' - cur + 1)) with 0%nat by lia.
Qed.

Lemma rechunk_bound (size : Z) (allData : list Row) (hs : list string) :
  0 <= size ->
  forall (fuel : nat) (i : Z),
  Forall (fun c => Z.of_nat (List.length (chunk c)) <= size)
         (rechunk fuel size i allData hs).
Proof.
  intros Hsize. induction fuel as [|fuel IH]; intros i; cbn [rechunk];
    destruct (i <? Z.of_nat (List.length allData)); constructor.
  - cbn [chunk]. pose proof (firstn_le_length (Z.to_nat size)
                               (skipn (Z.to_nat i) allData)). lia.
  - apply IH.
Qed.

Lemma rechunk_all (size : Z) (allData : list Row) (hs : list string) :
  1 <= size ->
  forall (fuel : nat) (i : Z),
  0 <= i ->
  (List.length allData - Z.to_nat i <= fuel)%nat ->
  List.concat (map chunk (rechunk fuel size i allData hs))
  = skipn (Z.to_nat i) allData.
Proof.
  intros Hsize. induction fuel as [|fuel IH]; intros i Hi Hfuel;
    cbn [rechunk];
    destruct (Z.ltb_spec i (Z.of_nat (List.length allData))) as [Hlt | Hge].
  - lia.
  - cbn. symmetry. apply skipn_all2. lia.
  - cbn [map chunk List.concat]. rewrite IH by lia.
    replace (Z.to_nat (i + size)) with (Z.to_nat size + Z.to_nat i)%nat by lia.
    rewrite <- skipn_skipn. apply firstn_skipn.
  - cbn. symmetry. apply skipn_all2. lia.
Qed.

(** With [this] the processor, [flush] would cut the sorted rows at the
    configured chunk size. *)
Lemma sort_flush_processor_this (StringToNumber : string -> number)
  (NumberToString : number -> string) (o : Options)
  (sortColumns : list Processor.SortColumn) (chunks : list DataChunk) :
  1 <= chunkSize o ->
  Forall (fun c => Z.of_nat (List.length (chunk c)) <= chunkSize o)
         (sort_flush StringToNumber NumberToString (processor_this o)
                     sortColumns chunks).
Proof.
  intros H. unfold sort_flush, flush_chunkSize. cbn [this_options processor_this].
  destruct (Z.eqb_spec (chunkSize o) 0); [lia|].
  apply rechunk_bound. lia.
Qed.

(** X27.  As Node runs it, with [this] the stream, the sort stage cuts
    the sorted rows at 100000 whatever the processor was configured
    with, and emits the rows of the data chunks it received, each once. *)
Lemma createSortStream_chunks (StringToNumber : string -> number)
  (NumberToString : number -> string)
  (sortColumns : list Processor.SortColumn) (input : list DataChunk) :
  let output := createSortStream StringToNumber NumberToString sortColumns
                                 input in
  Forall (fun c => Z.of_nat (List.length (chunk c)) <= 100000) output /\
  Permutation
    (List.concat (map chunk (filter (fun c => String.eqb (type c) "data")
                                    input)))
    (List.concat (map chunk output)).
Proof.
  cbv zeta. unfold createSortStream, sort_flush.
  change (flush_chunkSize transform_this) with 100000.
  split; [apply rechunk_bound; lia|].
  rewrite rechunk_all by (cbn; lia). cbn [Z.to_nat skipn].
  assert (E : forall acc, fold_left sort_transform input acc
                 = acc ++ filter (fun c => String.eqb (type c) "data") input).
  { induction input as [|c cs IH]; intros acc; cbn [fold_left filter].
    - now rewrite app_nil_r.
    - rewrite IH. unfold sort_transform.
      destruct (String.eqb (type c) "data"); [|reflexivity].
      now rewrite <- app_assoc. }
  rewrite (E []). cbn [app]. apply array_sort_perm.
Qed.

(** With aggregations, the aggregate stage fails on its first row. *)
Lemma createAggregateStream_fails (NumberToString : number -> string)
  (agg : Processor.Aggregation) (aggregations : list Processor.Aggregation)
  (groupBy : list string) (c : DataChunk) (input : list DataChunk)
  (row : Row) (rows : list Row) :
  type c = "data" -> chunk c = row :: rows ->
  createAggregateStream NumberToString (agg :: aggregations) groupBy
                        (c :: input)
  = inl TypeError.
Proof.
  intros Ht Hc. unfold createAggregateStream. cbn [filter].
  rewrite Ht. cbn. rewrite Hc. reflexivity.
Qed.

(** X26.  A chunk size of zero or less, which the constructor accepts
    when the caller gives it, keeps the reader in its loop for ever: on
    a range with at least one row it never ends, whatever the fuel. *)
Theorem reader_never_ends (o : Options) (ws : Worksheet)
  (startRow' endRow' : Z) :
  chunkSize o <= 0 -> startRow' <= endRow' ->
  forall fuel, processExcelInChunks fuel o ws startRow' endRow' = None.
Proof.
  intros Hsize Hrows fuel. unfold processExcelInChunks.
  revert startRow' Hrows. induction fuel as [|fuel IH]; intros cur Hcur;
    cbn [read_chunks]; destruct (Z.leb_spec cur endRow'); try lia;
    [reflexivity|].
  rewrite IH; [reflexivity | lia].
Qed.

(** ** The filter stage *)

(** [transform] of the filter stage, run by Node with [this] bound to
    the stream, on which [evaluateConditions] is [undefined]: the call
    in the callback of [filter] throws a TypeError at the first row.  A
    data chunk without rows gives an empty result, which is not pushed;
    any other chunk is passed on. *)
Definition filter_transform (conditions : list Processor.Condition)
  (c : DataChunk) : stage_error + list DataChunk :=
  if String.eqb (type c) "data" then
    match chunk c with
    | [] => inr []
    | _ :: _ => inl TypeError
    end
  else inr [c].

(** The stage made by [createFilterStream]: what it emits for a stream
    of incoming chunks, or the error that ends the pipeline. *)
Fixpoint createFilterStream (conditions : list Processor.Condition)
  (input : list DataChunk) : stage_error + list DataChunk :=
  match input with
  | [] => inr []
  | c :: rest =>
      match filter_transform conditions c with
      | inl e => inl e
      | inr out =>
          match createFilterStream conditions rest with
          | inl e => inl e
          | inr outs => inr (out ++ outs)
          end
      end
  end.

Definition has_rows (c : DataChunk) : bool :=
  String.eqb (type c) "data" && match chunk c with [] => false | _ => true end.

(** X28.  The filter stage never filters: whatever the conditions, it
    fails with a TypeError as soon as a data chunk with a row arrives,
    and otherwise passes on the chunks that are not data chunks and
    nothing else. *)
Theorem filter_stage_fails_on_rows (conditions : list Processor.Condition)
  (input : list DataChunk) :
  createFilterStream conditions input
  = if existsb has_rows input then inl TypeError
    else inr (filter (fun c => negb (String.eqb (type c) "data")) input).
Proof.
  induction input as [|c rest IH]; [reflexivity|].
  cbn [createFilterStream existsb filter]. rewrite IH.
  unfold filter_transform, has_rows.
  destruct (String.eqb (type c) "data"); cbn [andb negb orb].
  - destruct (chunk c); cbn [orb]; [|reflexivity].
    now destruct (existsb _ rest).
  - now destruct (existsb _ rest).
Qed.

(** ** The CSV writer *)

Section Writer.

Variable NumberToString : number -> string.

Definition newline : ascii := "010"%char.

(** The [replace] of the writer: every quote becomes two quotes. *)
Fixpoint double_quotes (s : string) : string :=
  match s with
  | EmptyString => EmptyString
  | String c s' =>
      if Ascii.eqb c Parser.dquote
      then String Parser.dquote (String Parser.dquote (double_quotes s'))
      else String c (double_quotes s')
  end.

(** The text of a cell: empty for [null] and [undefined], [String(value)]
    otherwise. *)
Definition cell_text (value : jsval) : string :=
  if is_nullish value then EmptyString else ToString NumberToString value.

(** How a text is written: between quotes, with its quotes doubled, if
    it holds a comma, a quote or a line feed. *)
Definition quote_text (strValue : string) : string :=
  if str_includes strValue ","
     || str_includes strValue (Parser.char_str Parser.dquote)
     || str_includes strValue (Parser.char_str newline)
  then String Parser.dquote
         (double_quotes strValue ++ Parser.char_str Parser.dquote)
  else strValue.

(** The callback of [chunk.headers.map] in [write]. *)
Definition csv_value (value : jsval) : string :=
  if is_nullish value then EmptyString
  else quote_text (ToString NumberToString value).

(** The line written for a row, without its line feed. *)
Definition csv_line (hs : list string) (row : Row) : string :=
  join "," (map (fun header => csv_value (prop row header)) hs).

(** [write] of the stream made by [createCSVWriteStream]: the state is
    [headerWritten] and the text written so far. *)
Definition csv_write (st : bool * string) (c : DataChunk) : bool * string :=
  if String.eqb (type c) "data"
     && match chunk c with [] => false | _ => true end
  then
    let out := if fst st then snd st
               else (snd st ++ join "," (headers c)
                     ++ Parser.char_str newline)%string in
    (true,
     fold_left (fun o row =>
                  (o ++ csv_line (headers c) row
                   ++ Parser.char_str newline)%string)
               (chunk c) out)
  else st.

(** The text in the file when the stream has taken the chunks. *)
Definition createCSVWriteStream (input : list DataChunk) : string :=
  snd (fold_left csv_write input (false, EmptyString)).

Fixpoint has_char (c : ascii) (s : string) : bool :=
  match s with
  | EmptyString => false
  | String a s' => Ascii.eqb a c || has_char c s'
  end.

Lemma str_includes_char (c : ascii) (s : string) :
  str_includes s (Parser.char_str c) = has_char c s.
Proof.
  induction s as [|a s IH]; [reflexivity|].
  cbn [str_includes has_char]. rewrite IH. f_equal.
  unfold Parser.char_str. cbn [String.prefix].
  destruct (ascii_dec c a) as [-> | Hne].
  - rewrite Ascii.eqb_refl. now destruct s.
  - destruct (Ascii.eqb a c) eqn:E; [|reflexivity].
    apply Ascii.eqb_eq in E. congruence.
Qed.

Lemma append_assoc (a b c : string) : ((a ++ b) ++ c = a ++ (b ++ c))%string.
Proof. induction a as [|x a IH]; cbn; [reflexivity | now rewrite IH]. Qed.

Lemma append_nil_r (a : string) : (a ++ EmptyString)%string = a.
Proof. induction a as [|x a IH]; cbn; [reflexivity | now rewrite IH]. Qed.

(** What follows a field in a line: nothing, or a comma. *)
Definition field_end (rest : string) : Prop :=
  rest = EmptyString \/ exists r, rest = String ","%char r.

Lemma parse_plain (t : string) :
  has_char ","%char t = false -> has_char Parser.dquote t = false ->
  forall rest cur values,
  Parser.parse_loop "," (t ++ rest) cur false values
  = Parser.parse_loop "," rest (cur ++ t) false values.
Proof.
  induction t as [|c t IH]; intros Hc Hq rest cur values.
  - now rewrite append_nil_r.
  - cbn [has_char] in Hc, Hq. apply orb_false_elim in Hc, Hq.
    destruct Hc as [Hc Hc'], Hq as [Hq Hq'].
    cbn [append Parser.parse_loop]. rewrite Hq.
    assert (E : String.eqb (Parser.char_str c) "," = false).
    { unfold Parser.char_str. cbn [String.eqb]. now rewrite Hc. }
    rewrite E. cbn [andb]. rewrite (IH Hc' Hq').
    unfold Parser.char_str. rewrite append_assoc. reflexivity.
Qed.

Lemma parse_quoted (t : string) :
  forall rest cur values, field_end rest ->
  Parser.parse_loop "," (double_quotes t ++ String Parser.dquote rest)
                    cur true values
  = Parser.parse_loop "," rest (cur ++ t) false values.
Proof.
  induction t as [|c t IH]; intros rest cur values Hend.
  - cbn [double_quotes append Parser.parse_loop]. rewrite Ascii.eqb_refl.
    rewrite append_nil_r.
    destruct Hend as [-> | [r ->]]; reflexivity.
  - cbn [double_quotes]. destruct (Ascii.eqb c Parser.dquote) eqn:E.
    + apply Ascii.eqb_eq in E. subst c.
      cbn [append Parser.parse_loop]. rewrite Ascii.eqb_refl. cbn [andb].
      rewrite (IH rest _ values Hend).
      unfold Parser.char_str. rewrite append_assoc. reflexivity.
    + cbn [append Parser.parse_loop]. rewrite E, andb_false_r.
      rewrite (IH rest _ values Hend).
      unfold Parser.char_str. rewrite append_assoc. reflexivity.
Qed.

Lemma parse_open_quote (line cur : string) (values : list string) :
  Parser.parse_loop "," (String Parser.dquote line) cur false values
  = Parser.parse_loop "," line cur true values.
Proof.
  cbn [Parser.parse_loop]. rewrite Ascii.eqb_refl. now destruct line.
Qed.

Lemma parse_field (t rest : string) (values : list string) :
  field_end rest ->
  Parser.parse_loop "," (quote_text t ++ rest) EmptyString false values
  = Parser.parse_loop "," rest t false values.
Proof.
  intros Hend. unfold quote_text.
  change (str_includes t ",") with (str_includes t (Parser.char_str ","%char)).
  rewrite !str_includes_char.
  destruct (has_char ","%char t) eqn:Hc; cbn [orb].
  - cbn [append]. rewrite parse_open_quote, append_assoc.
    change (Parser.char_str Parser.dquote ++ rest)%string
      with (String Parser.dquote rest).
    now rewrite (parse_quoted t rest EmptyString values Hend).
  - destruct (has_char Parser.dquote t) eqn:Hq; cbn [orb].
    + cbn [append]. rewrite parse_open_quote, append_assoc.
    change (Parser.char_str Parser.dquote ++ rest)%string
      with (String Parser.dquote rest).
      now rewrite (parse_quoted t rest EmptyString values Hend).
    + destruct (has_char newline t).
      * cbn [append]. rewrite parse_open_quote, append_assoc.
    change (Parser.char_str Parser.dquote ++ rest)%string
      with (String Parser.dquote rest).
        now rewrite (parse_quoted t rest EmptyString values Hend).
      * now rewrite (parse_plain t Hc Hq rest EmptyString values).
Qed.

Lemma parse_fields (fs : list string) :
  forall f values,
  Parser.parse_loop "," (join "," (map quote_text (f :: fs))) EmptyString
                    false values
  = values ++ f :: fs.
Proof.
  unfold join. induction fs as [|g fs IH]; intros f values.
  - cbn [map String.concat].
    rewrite <- (append_nil_r (quote_text f)).
    rewrite parse_field by now left. reflexivity.
  - change (String.concat "," (map quote_text (f :: g :: fs)))
      with (quote_text f
            ++ String ","%char (String.concat "," (map quote_text (g :: fs))))%string.
    rewrite parse_field by (right; eexists; reflexivity).
    cbn [Parser.parse_loop]. cbn [Ascii.eqb Bool.eqb Parser.dquote].
    cbn [Parser.char_str String.eqb Ascii.eqb Bool.eqb andb negb].
    rewrite IH, <- app_assoc. reflexivity.
Qed.

Lemma csv_value_quote_text (v : jsval) :
  csv_value v = quote_text (cell_text v).
Proof.
  unfold csv_value, cell_text. now destruct (is_nullish v).
Qed.

(** X29.  What the CSV writer writes for a row, [parseCSVLine] reads
    back: splitting the line at commas gives the texts of the cells, in
    the order of the headers, whatever commas, quotes and line feeds
    they hold. *)
Theorem csv_line_round_trip (hs : list string) (row : Row) :
  hs <> [] ->
  Parser.parseCSVLine (csv_line hs row) ","
  = map (fun header => cell_text (prop row header)) hs.
Proof.
  intros Hhs. destruct hs as [|h hs]; [congruence|].
  unfold Parser.parseCSVLine, csv_line.
  rewrite (map_ext _ (fun header => quote_text (cell_text (prop row header))))
    by (intros; apply csv_value_quote_text).
  rewrite <- (map_map (fun header => cell_text (prop row header)) quote_text).
  exact (parse_fields
           (map (fun header => cell_text (prop row header)) hs)
           (cell_text (prop row h)) []).
Qed.

End Writer.

(** ** A run of the reader and the sort stage *)

(** A sheet with one column [a] and the three data rows 30, 10, 20 in
    rows 1 to 3. *)
Definition sheet : Worksheet :=
  mkWorksheet (fun col => if col =? 0 then Some "a" else None)
              (fun row col =>
                 if col =? 0 then
                   Some (VNum (num_of_Z
                     (if row =? 1 then 30 else if row =? 2 then 10 else 20)))
                 else None)
              0 0.

(** A processor configured with chunks of two rows. *)
Definition two_row_chunks : Options := new_options (Some 2) None.

Definition sheet_chunks : list DataChunk :=
  match processExcelInChunks 3 two_row_chunks sheet 1 3 with
  | Some l => l
  | None => []
  end.

(** C8, at the failing input.  With [chunkSize] 2 the reader emits the
    three rows as a chunk of two rows and a chunk of one row; the sort
    stage, fed these two chunks, emits a single chunk of three rows. *)
Theorem sort_stage_exceeds_chunkSize :
  chunkSize two_row_chunks = 2 /\
  map (fun c => List.length (chunk c)) sheet_chunks = [2%nat; 1%nat] /\
  map (fun c => List.length (chunk c))
      (createSortStream Ref.StringToNumber Ref.NumberToString
         [Processor.mkSortColumn "a" None] sheet_chunks)
  = [3%nat] /\
  map chunk (createSortStream Ref.StringToNumber Ref.NumberToString
               [Processor.mkSortColumn "a" None] sheet_chunks)
  = [[[("a", VNum (num_of_Z 10))]; [("a", VNum (num_of_Z 20))];
      [("a", VNum (num_of_Z 30))]]].
Proof. vm_compute. repeat split. Qed.

Lemma read_chunks_spec_witness :
  1 <= 2 /\ (Z.to_nat (3 - 1 + 1) <= 3)%nat /\
  exists chunks,
    read_chunks 3 sheet (read_headers sheet) 2 1 3 = Some chunks /\
    Forall (fun c => 1 <= Z.of_nat (List.length (chunk c)) <= 2) chunks /\
    List.concat (map chunk chunks)
    = map (read_row sheet (read_headers sheet)) (zrange 1 3).
Proof.
  split; [lia|]. split; [vm_compute; lia|].
  apply (read_chunks_spec sheet (read_headers sheet) 2 3); [lia|].
  vm_compute; lia.
Defined.

Lemma reader_never_ends_witness :
  chunkSize (new_options (Some 0) None) <= 0 /\ 1 <= 3 /\
  processExcelInChunks 1000 (new_options (Some 0) None) sheet 1 3 = None.
Proof.
  split; [vm_compute; discriminate|]. split; [lia|].
  apply (reader_never_ends (new_options (Some 0) None) sheet 1 3).
  - vm_compute; discriminate.
  - lia.
Defined.

(** The text [said], a space, and [hi] between quotes. *)
Definition said_hi : string :=
  "said " ++ String Parser.dquote ("hi" ++ String Parser.dquote EmptyString).

(** A row with a comma, a quote and a missing cell. *)
Definition awkward_row : Row :=
  [("name", VStr "Smith, J."); ("note", VStr said_hi);
   ("qty", VNum (num_of_Z 3)); ("gone", VNull)].

Lemma csv_line_round_trip_witness :
  ["name"; "note"; "qty"; "gone"] <> [] /\
  Parser.parseCSVLine
    (csv_line Ref.NumberToString ["name"; "note"; "qty"; "gone"] awkward_row)
    ","
  = ["Smith, J."; said_hi; "3"; EmptyString].
Proof.
  split; [discriminate|].
  apply (csv_line_round_trip Ref.NumberToString
           ["name"; "note"; "qty"; "gone"] awkward_row).
  discriminate.
Defined.

End Stream.
